(** * bistro-scraper: the screenshot scraper's extraction pipeline

    A shallow embedding of [src/screenshot-scraper.js]: the item parser, the
    section classifier, the progressive viewport sampler and the site runner,
    with the browser kept abstract. *)

From Stdlib Require Import Strings.String Strings.Ascii.
From Stdlib Require Import List Bool Arith NArith ZArith QArith Lia.
Import ListNotations.

Local Open Scope nat_scope.

(** ** JavaScript strings

    A JavaScript string is a sequence of UTF-16 code units; [length],
    [indexOf], [substring] and the regular expressions (none of which carries
    the [u] flag) all count in code units. *)

Definition jsstring := list N.

Module Utf8.

(** Literals are written as Rocq strings, whose bytes are the UTF-8
    encoding of the source text; [units] turns them into code units
    (a code point above the BMP becomes a surrogate pair). *)

Definition cont (b : N) : N := (b mod 64)%N.

Fixpoint units (bs : list N) : jsstring :=
  match bs with
  | [] => []
  | b0 :: t0 =>
      if (b0 <? 128)%N then b0 :: units t0
      else match t0 with
           | [] => [65533%N]
           | b1 :: t1 =>
               if (b0 <? 224)%N then ((b0 mod 32) * 64 + cont b1)%N :: units t1
               else match t1 with
                    | [] => [65533%N]
                    | b2 :: t2 =>
                        if (b0 <? 240)%N
                        then ((b0 mod 16) * 4096 + cont b1 * 64 + cont b2)%N :: units t2
                        else match t2 with
                             | [] => [65533%N]
                             | b3 :: t3 =>
                                 let cp := ((b0 mod 8) * 262144 + cont b1 * 4096
                                            + cont b2 * 64 + cont b3)%N in
                                 let v := (cp - 65536)%N in
                                 (55296 + v / 1024)%N :: (56320 + v mod 1024)%N :: units t3
                             end
                    end
           end
  end.

End Utf8.

Definition js (s : string) : jsstring :=
  Utf8.units (map N_of_ascii (list_ascii_of_string s)).

(** A one-character literal. *)
Definition cu (s : string) : N := hd 0%N (js s).

Definition jseqb (a b : jsstring) : bool :=
  if list_eq_dec N.eq_dec a b then true else false.

Fixpoint startsWith (p s : jsstring) : bool :=
  match p, s with
  | [], _ => true
  | _ :: _, [] => false
  | a :: p', b :: s' => (a =? b)%N && startsWith p' s'
  end.

(** [String.prototype.includes]. *)
Fixpoint includes (s p : jsstring) : bool :=
  startsWith p s ||
  match s with
  | [] => false
  | _ :: s' => includes s' p
  end.

(** [String.prototype.indexOf]; [None] stands for [-1]. *)
Fixpoint indexOf_from (i : nat) (s p : jsstring) : option nat :=
  if startsWith p s then Some i
  else match s with
       | [] => None
       | _ :: s' => indexOf_from (S i) s' p
       end.

Definition indexOf (s p : jsstring) : option nat := indexOf_from 0 s p.

(** [s.substring(a, b)] and [s.substring(a)] for [0 <= a <= b]. *)
Definition substring (s : jsstring) (a b : nat) : jsstring :=
  firstn (b - a) (skipn a s).

Definition substring_from (s : jsstring) (a : nat) : jsstring := skipn a s.

(** The class [\s], which is also what [trim] strips: WhiteSpace and
    LineTerminator of the language specification. *)
Definition is_space (c : N) : bool :=
  ((9 <=? c) && (c <=? 13) || (c =? 32) || (c =? 160) || (c =? 5760)
   || (8192 <=? c) && (c <=? 8202) || (c =? 8232) || (c =? 8233)
   || (c =? 8239) || (c =? 8287) || (c =? 12288) || (c =? 65279))%N.

(** The class [\d]. *)
Definition is_digit (c : N) : bool := ((48 <=? c) && (c <=? 57))%N.

(** What [.] accepts without the [s] flag: anything but a line terminator. *)
Definition is_dot (c : N) : bool :=
  negb ((c =? 10) || (c =? 13) || (c =? 8232) || (c =? 8233))%N.

Fixpoint trimStart (s : jsstring) : jsstring :=
  match s with
  | c :: s' => if is_space c then trimStart s' else s
  | [] => []
  end.

Definition trimEnd (s : jsstring) : jsstring := rev (trimStart (rev s)).

Definition trim (s : jsstring) : jsstring := trimEnd (trimStart s).

(** ** Letter case

    [toLowerCase] and the canonicalisation that the [i] flag applies are
    given on Basic Latin, Latin-1 Supplement and Latin Extended-A, which
    contain every letter of the Slovak and English texts the scraper looks
    for; code units outside these blocks are left as they are. *)

Module Case.

Definition in_range (lo hi c : N) : bool := ((lo <=? c) && (c <=? hi))%N.

(** Lower-case mapping of one code unit; U+0130 expands to two. *)
Definition lower (c : N) : list N :=
  if in_range 65 90 c then [c + 32]%N
  else if in_range 192 222 c && negb (c =? 215)%N then [c + 32]%N
  else if (c =? 304)%N then [105; 775]%N
  else if (c =? 376)%N then [255]%N
  else if (in_range 256 303 c || in_range 306 311 c || in_range 330 375 c)
          && N.even c then [c + 1]%N
  else if (in_range 313 328 c || in_range 377 382 c) && N.odd c then [c + 1]%N
  else [c].

(** Upper-case mapping of one code unit, [None] where the upper-case form
    is not a single code unit (U+00DF, U+0149). *)
Definition upper (c : N) : option N :=
  if in_range 97 122 c then Some (c - 32)%N
  else if (c =? 181)%N then Some 924%N
  else if (c =? 223)%N || (c =? 329)%N then None
  else if in_range 224 254 c && negb (c =? 247)%N then Some (c - 32)%N
  else if (c =? 255)%N then Some 376%N
  else if (c =? 305)%N then Some 73%N
  else if (c =? 383)%N then Some 83%N
  else if (in_range 256 303 c || in_range 306 311 c || in_range 330 375 c)
          && N.odd c then Some (c - 1)%N
  else if (in_range 313 328 c || in_range 377 382 c) && N.even c then Some (c - 1)%N
  else Some c.

(** Canonicalize of the language specification, without the [u] flag. *)
Definition canonicalize (c : N) : N :=
  match upper c with
  | None => c
  | Some u => if (128 <=? c)%N && (u <? 128)%N then c else u
  end.

End Case.

Definition toLowerCase (s : jsstring) : jsstring := flat_map Case.lower s.

(** ** Regular expressions

    A backtracking matcher in continuation-passing style, after the matcher
    of the language specification: alternatives are tried left to right,
    quantifiers are greedy, and an iteration of a quantifier that consumes
    nothing is refused.  The scraper's patterns use no back-references,
    look-arounds or lazy quantifiers. *)

Module Regex.

Inductive regex : Type :=
| Eps                             (* the empty pattern *)
| Chr (p : N -> bool)             (* one code unit accepted by [p] *)
| Seq (a b : regex)               (* [ab] *)
| Alt (a b : regex)               (* [a|b] *)
| Star (a : regex)                (* [a*] *)
| Opt (a : regex)                 (* [a?] *)
| Group (n : nat) (a : regex)     (* the [n]-th capturing group *)
| Bol                             (* [^] *)
| Eol.                            (* [$] *)

Definition Plus (a : regex) : regex := Seq a (Star a).

(** A matcher state: the index reached, the input that is left, and the
    captures recorded so far (latest first). *)
Record mstate : Type := MState {
  pos : nat;
  rest : jsstring;
  caps : list (nat * jsstring)
}.

Definition advance (st : mstate) (tl : jsstring) : mstate :=
  MState (S (pos st)) tl (caps st).

Definition set_cap (n : nat) (w : jsstring) (st : mstate) : mstate :=
  MState (pos st) (rest st) ((n, w) :: caps st).

Fixpoint lookup (n : nat) (cs : list (nat * jsstring)) : option jsstring :=
  match cs with
  | [] => None
  | (m, w) :: cs' => if m =? n then Some w else lookup n cs'
  end.

Definition cont := mstate -> option mstate.

(** One greedy quantifier loop; [body] is the matcher of the quantified
    pattern.  Every iteration consumes at least one code unit, so the
    [S (length (rest st))] rounds given at [Star] are never used up
    (see [star_loop_fuel]). *)
Fixpoint star_loop (body : cont -> cont) (k : cont) (fuel : nat) (st : mstate)
  : option mstate :=
  match fuel with
  | O => k st
  | S f =>
      match body (fun st' => if pos st' =? pos st then None
                             else star_loop body k f st') st with
      | Some r => Some r
      | None => k st
      end
  end.

Fixpoint rmatch (r : regex) (k : cont) (st : mstate) : option mstate :=
  match r with
  | Eps => k st
  | Chr p =>
      match rest st with
      | c :: tl => if p c then k (advance st tl) else None
      | [] => None
      end
  | Seq a b => rmatch a (rmatch b k) st
  | Alt a b =>
      match rmatch a k st with
      | Some r => Some r
      | None => rmatch b k st
      end
  | Star a => star_loop (rmatch a) k (S (length (rest st))) st
  | Opt a =>
      match rmatch a (fun st' => if pos st' =? pos st then None else k st') st with
      | Some r => Some r
      | None => k st
      end
  | Group n a =>
      rmatch a (fun st' => k (set_cap n (firstn (pos st' - pos st) (rest st)) st')) st
  | Bol => if pos st =? 0 then k st else None
  | Eol => match rest st with [] => k st | _ :: _ => None end
  end.

(** The result of [exec]: where the match starts and ends, its text
    ([m[0]]) and its groups ([m[n]], [None] for [undefined]). *)
Record rmatch_result : Type := MatchResult {
  m_index : nat;
  m_end : nat;
  m_text : jsstring;
  m_caps : list (nat * jsstring)
}.

Definition group (n : nat) (m : rmatch_result) : option jsstring :=
  lookup n (m_caps m).

(** Leftmost match at or after index [i], where [suffix] is the input
    from [i] on. *)
Fixpoint search (re : regex) (i : nat) (suffix : jsstring) : option rmatch_result :=
  match rmatch re Some (MState i suffix []) with
  | Some st => Some (MatchResult i (pos st) (firstn (pos st - i) suffix) (caps st))
  | None =>
      match suffix with
      | [] => None
      | _ :: tl => search re (S i) tl
      end
  end.

(** [s.match(re)] for a pattern without the [g] flag. *)
Definition exec (re : regex) (s : jsstring) : option rmatch_result := search re 0 s.

(** [re.test(s)]. *)
Definition test (re : regex) (s : jsstring) : bool :=
  match exec re s with Some _ => true | None => false end.

(** [s.replace(re, repl)] for a pattern without the [g] flag and a
    replacement text without [$] patterns. *)
Definition replace (re : regex) (repl s : jsstring) : jsstring :=
  match exec re s with
  | None => s
  | Some m => firstn (m_index m) s ++ repl ++ skipn (m_end m) s
  end.

(** [s.replace(re, repl)] for a pattern with the [g] flag: every match
    from left to right, stepping over one code unit after an empty match;
    a round per code unit and one more is enough (see
    [replace_from_fuel]). *)
Fixpoint replace_from (fuel : nat) (re : regex) (repl : jsstring)
         (i : nat) (suffix : jsstring) : jsstring :=
  match fuel with
  | O => suffix
  | S f =>
      match search re i suffix with
      | None => suffix
      | Some m =>
          let pre := firstn (m_index m - i) suffix in
          if m_end m =? m_index m then
            match skipn (m_index m - i) suffix with
            | [] => pre ++ repl
            | c :: tl => pre ++ repl ++ c :: replace_from f re repl (S (m_index m)) tl
            end
          else pre ++ repl ++ replace_from f re repl (m_end m) (skipn (m_end m - i) suffix)
      end
  end.

Definition replace_all (re : regex) (repl s : jsstring) : jsstring :=
  replace_from (S (length s)) re repl 0 s.

(** *** Pattern syntax *)

Definition lit (c : N) : regex := Chr (N.eqb c).

(** A literal code unit under the [i] flag. *)
Definition liti (c : N) : regex :=
  Chr (fun x => (Case.canonicalize x =? Case.canonicalize c)%N).

Definition digit : regex := Chr is_digit.
Definition space : regex := Chr is_space.
Definition dot : regex := Chr is_dot.

(** A character class given by its members, and the same under [i]. *)
Definition cls (members : jsstring) : regex :=
  Chr (fun x => existsb (N.eqb x) members).

Definition clsi (members : jsstring) : regex :=
  Chr (fun x => existsb (fun m => (Case.canonicalize x =? Case.canonicalize m)%N) members).

Fixpoint seq_of (f : N -> regex) (s : jsstring) : regex :=
  match s with
  | [] => Eps
  | [c] => f c
  | c :: s' => Seq (f c) (seq_of f s')
  end.

(** A literal text, and the same under [i]. *)
Definition str (s : string) : regex := seq_of lit (js s).
Definition stri (s : string) : regex := seq_of liti (js s).

Fixpoint alts (rs : list regex) : regex :=
  match rs with
  | [] => Eps
  | [r] => r
  | r :: rs' => Alt r (alts rs')
  end.

End Regex.

Import Regex.
Local Open Scope string_scope.
Local Open Scope list_scope.
Local Open Scope nat_scope.

(** [s.substring(a, b)] and [s.substring(a)] on arbitrary integers: both
    ends are clamped to [0 .. length s] and swapped when out of order. *)
Definition clampIndex (s : jsstring) (z : Z) : nat := Nat.min (Z.to_nat z) (length s).

Definition substringZ (s : jsstring) (a b : Z) : jsstring :=
  let a' := clampIndex s a in
  let b' := clampIndex s b in
  substring s (Nat.min a' b') (Nat.max a' b').

Definition substringFromZ (s : jsstring) (a : Z) : jsstring :=
  substring_from s (clampIndex s a).

Definition indexOfZ (s p : jsstring) : Z :=
  match indexOf s p with
  | Some i => Z.of_nat i
  | None => (-1)%Z
  end.

(** [a || b] on strings: the empty string is falsy. *)
Definition orElse (a b : jsstring) : jsstring :=
  match a with [] => b | _ :: _ => a end.

(** ** The page as the in-page scripts see it *)

Inductive tag : Type := TSection | TDiv | TArticle | TMain | TOther.

Definition tag_eqb (a b : tag) : bool :=
  match a, b with
  | TSection, TSection | TDiv, TDiv | TArticle, TArticle
  | TMain, TMain | TOther, TOther => true
  | _, _ => false
  end.

(** An [li] descendant: its text and the top and height of its bounding
    client rectangle (CSS pixels, relative to the viewport). *)
Record ListItem : Type := {
  li_textContent : jsstring;
  li_top : Q;
  li_height : Q
}.

Record Element : Type := {
  el_tag : tag;
  el_role : option jsstring;
  el_textContent : jsstring;
  el_top : Q;
  el_items : list ListItem          (* [el.querySelectorAll("li")] *)
}.

(** The document at one moment, elements in document order. *)
Record Dom : Type := {
  dom_title : jsstring;
  dom_bodyText : jsstring;
  innerHeight : Z;
  scrollHeight : Z;
  dom_elements : list Element
}.

Inductive selector : Type := SelTag (t : tag) | SelRoleRegion.

Definition sel_matches (s : selector) (el : Element) : bool :=
  match s with
  | SelTag t => tag_eqb t (el_tag el)
  | SelRoleRegion =>
      match el_role el with
      | Some r => jseqb r (js "region")
      | None => false
      end
  end.

(** [document.querySelectorAll] of a selector list. *)
Definition querySelectorAll (sels : list selector) (d : Dom) : list Element :=
  filter (fun el => existsb (fun s => sel_matches s el) sels) (dom_elements d).

(** [top >= 0 && top <= window.innerHeight]. *)
Definition inViewport (d : Dom) (top : Q) : bool :=
  Qle_bool 0 top && Qle_bool top (inject_Z (innerHeight d)).

(** ** Section classifier *)

Definition seqs (rs : list regex) : regex := fold_right Seq Eps rs.

Definition excludePatterns : list jsstring :=
  map js ["obľúbené"; "oblubene"; "populárne"; "popular"; "favorites";
          "burger central"; "domáca slovenská klasika"; "hlavné jedlá"].

Definition weekdays_sk (tuesday : string) : regex :=
  Group 1 (alts (map stri ["pondelok"; tuesday; "streda"; "štvrtok";
                           "piatok"; "sobota"; "nedeľa"])).

Definition weekdays_en : regex :=
  Group 1 (alts (map stri ["monday"; "tuesday"; "wednesday"; "thursday";
                           "friday"; "saturday"; "sunday"])).

(** [dailyMenuPatterns] as in [scrapeRestaurant] (lines 268-272) and in
    [extractMenuFromScreenshot] (lines 603-607). *)
Definition dailyMenuPatterns : list regex :=
  [ Seq (stri "denné menu ") (weekdays_sk "utorok");
    Seq (stri "daily menu ") weekdays_en;
    Seq (stri "denne menu ") (weekdays_sk "utorok") ].

(** [dailyMenuPatterns] as in [extractItemsFromCurrentViewport]
    (lines 430-434). *)
Definition dailyMenuPatterns_viewport : list regex :=
  [ Seq (stri "denné menu ") (weekdays_sk "utorak");
    Seq (stri "daily menu ") weekdays_en;
    Seq (stri "denne menu ") (weekdays_sk "utorok") ].

(** The callback given to [find]: the three copies in the source differ
    only in their pattern list. *)
Definition sectionTest (patterns : list regex) (el : Element) : bool :=
  match el_textContent el with
  | [] => false
  | _ :: _ =>
      let text := toLowerCase (el_textContent el) in
      if existsb (fun pattern => includes text pattern) excludePatterns then false
      else
        existsb (fun pattern => test pattern text) patterns
        || (includes text (js "denné menu")
            && includes text (js "položiek")
            && negb (existsb (fun pattern => includes text pattern) excludePatterns))
  end.

Definition allSelectors : list selector :=
  [SelTag TSection; SelTag TDiv; SelTag TArticle; SelTag TMain; SelRoleRegion].

(** The classifier of the sampling loop: the first element, in document
    order, among all candidate containers. *)
Definition findSection_step (d : Dom) : option Element :=
  find (sectionTest dailyMenuPatterns) (querySelectorAll allSelectors d).

Fixpoint filter_some {A : Type} (l : list (option A)) : list A :=
  match l with
  | [] => []
  | Some a :: l' => a :: filter_some l'
  | None :: l' => filter_some l'
  end.

(** The classifier of the two extraction passes: one [find] per selector,
    the hits kept in selector order, the first one taken. *)
Definition findSection_extract (patterns : list regex) (d : Dom) : option Element :=
  hd_error
    (filter_some
       (map (fun s => find (sectionTest patterns) (querySelectorAll [s] d)) allSelectors)).

(** What the sampling loop learns about the current viewport. *)
Record DailyMenuInfo : Type := {
  visible : bool;
  totalItems : nat;
  visibleItems : nat;
  sampleText : option jsstring;
  stepNumber : nat
}.

Definition dailyMenuInfo (d : Dom) (currentStep : nat) : DailyMenuInfo :=
  let none := Build_DailyMenuInfo false 0 0 None currentStep in
  match findSection_step d with
  | Some sec =>
      if inViewport d (el_top sec) then
        let menuItems := el_items sec in
        let visibleItems :=
          filter (fun item =>
                    let itemText := trim (li_textContent item) in
                    inViewport d (li_top item)
                    && includes itemText (js "€")
                    && (20 <? length itemText)) menuItems in
        Build_DailyMenuInfo true (length menuItems) (length visibleItems)
                            (Some (substringZ (el_textContent sec) 0 200)) currentStep
      else none
  | None => none
  end.

(** ** Item parser *)

(** The [viewport] field of an item: a step number, or the text
    ["unknown"] when the fallback pass has no best viewport. *)
Inductive viewportTag : Type := VStep (n : nat) | VUnknown.

(** An item record; [source] and [viewport] are absent ([None]) on the
    placeholder item of [extractMenuFromScreenshot]'s handler. *)
Record MenuItem : Type := {
  name : jsstring;
  price : jsstring;
  category : jsstring;
  description : jsstring;
  screenshot : bool;
  source : option jsstring;
  viewport : option viewportTag
}.

Definition euro : N := cu "€".

(** [/\s+/g] *)
Definition re_spaces : regex := Plus space.

(** [/(\d+,\d+\s*€)/] *)
Definition re_priceMatch : regex :=
  Group 1 (seqs [Plus digit; lit (cu ","); Plus digit; Star space; lit euro]).

(** The boilerplate prefixes of line 495, anchored at the start and under
    the [i] flag: "Samostatná polievka:", "Polievka [0-9]:" and
    "Menu [0-9]:", each with the white space that follows. *)
Definition re_prefix : regex :=
  Seq Bol
      (Group 1
         (alts [ seqs [stri "Samostatná polievka:"; Star space];
                 seqs [stri "Polievka "; clsi (js "0123456789"); liti (cu ":"); Star space];
                 seqs [stri "Menu "; clsi (js "0123456789"); liti (cu ":"); Star space] ])).

(** [/od$/], [/[,.]od$/], [/\.od$/] and [/[,.]$/] *)
Definition re_od : regex := seqs [str "od"; Eol].
Definition re_sep_od : regex := seqs [cls (js ",."); str "od"; Eol].
Definition re_dot_od : regex := seqs [lit (cu "."); str "od"; Eol].
Definition re_sep : regex := seqs [cls (js ",."); Eol].

(** [/(od\s+)?(\d+,\d+)\s*€/] *)
Definition pricePattern : regex :=
  seqs [ Opt (Group 1 (Seq (str "od") (Plus space)));
         Group 2 (seqs [Plus digit; lit (cu ","); Plus digit]);
         Star space; lit euro ].

(** [/popis jedla.*$/i], [/\d+,\d+\s*€.*$/g], [/\d+,\d+kg.*$/g] and
    [/\d+,\d+l.*$/g] *)
Definition re_popis : regex := seqs [stri "popis jedla"; Star dot; Eol].
Definition re_morePrices : regex :=
  seqs [Plus digit; lit (cu ","); Plus digit; Star space; lit euro; Star dot; Eol].
Definition re_weight : regex :=
  seqs [Plus digit; lit (cu ","); Plus digit; str "kg"; Star dot; Eol].
Definition re_volume : regex :=
  seqs [Plus digit; lit (cu ","); Plus digit; lit (cu "l"); Star dot; Eol].

(** [/(Denné menu [a-záčďéíĺľňóôŕšťúýž]+|Daily menu|Menu dňa)/i] *)
Definition re_category : regex :=
  Group 1
    (alts [ Seq (stri "Denné menu ")
                (Plus (clsi (js "abcdefghijklmnopqrstuvwxyzáčďéíĺľňóôŕšťúýž")));
            stri "Daily menu";
            stri "Menu dňa" ]).

Definition categoryOf (sectionText : jsstring) : jsstring :=
  match exec re_category sectionText with
  | Some m => orElse (m_text m) (js "Daily Menu")
  | None => js "Daily Menu"
  end.

(** Lines 484-502 (and 682-702): the text with white space collapsed, and
    the name cut before the first price and cleaned. *)
Definition cleanTextOf (itemText : jsstring) : jsstring :=
  trim (replace_all re_spaces (js " ") itemText).

Definition cleanName (rawName : jsstring) : jsstring :=
  let name := replace re_prefix [] rawName in
  let name := replace re_od [] name in
  let name := replace re_sep_od [] name in
  let name := replace re_dot_od [] name in
  let name := replace re_sep [] name in
  trim name.

(** Lines 504-510 (and 704-710). *)
Definition priceOf (cleanText : jsstring) : jsstring :=
  match exec pricePattern cleanText with
  | Some priceMatch2 =>
      let amount := match group 2 priceMatch2 with
                    | Some a => a
                    | None => js "undefined"
                    end in
      match group 1 priceMatch2 with
      | Some (_ :: _) => js "od " ++ amount ++ js " €"
      | _ => amount ++ js " €"
      end
  | None => js "N/A"
  end.

(** Lines 512-519 (and 712-719). *)
Definition descriptionOf (defaultDescription rest : jsstring) : jsstring :=
  let description := replace re_popis [] rest in
  let description := replace_all re_morePrices [] description in
  let description := replace_all re_weight [] description in
  let description := replace_all re_volume [] description in
  orElse (trim description) defaultDescription.

(** What one visible [li] is turned into before the final test on the
    name: [None] when the element is skipped as structural noise. *)
Record Candidate : Type := {
  c_name : jsstring;
  c_price : jsstring;
  c_description : jsstring
}.

Definition candidateOf (minLength : nat) (defaultDescription : jsstring)
           (item : ListItem) : option Candidate :=
  let itemText := trim (li_textContent item) in
  if (length itemText <? minLength)
     || includes itemText (js "Denné menu")
     || includes itemText (js "položiek")
     || includes itemText (js "Zobraz viac")
     || negb (includes itemText (js "€"))
  then None
  else if includes itemText (js "€") then
    let cleanText := cleanTextOf itemText in
    match exec re_priceMatch cleanText with
    | None => None
    | Some priceMatch =>
        let firstPriceIndex := indexOfZ cleanText (m_text priceMatch) in
        let name := cleanName (trim (substringZ cleanText 0 firstPriceIndex)) in
        let price := priceOf cleanText in
        let description :=
          descriptionOf defaultDescription
            (substringFromZ cleanText
               (firstPriceIndex + Z.of_nat (length (m_text priceMatch)))) in
        Some (Build_Candidate name price description)
    end
  else None.

(** Line 521 (and 721): [name && name.length > 3 && !name.includes("€")]. *)
Definition nameAccepted (name : jsstring) : bool :=
  match name with [] => false | _ :: _ => true end
  && (3 <? length name)
  && negb (includes name (js "€")).

Definition parseListItem (minLength : nat) (defaultDescription : jsstring)
           (sectionText : jsstring) (vp : viewportTag) (item : ListItem)
  : option MenuItem :=
  match candidateOf minLength defaultDescription item with
  | None => None
  | Some c =>
      if nameAccepted (c_name c) then
        Some {| name := c_name c;
                price := c_price c;
                category := categoryOf sectionText;
                description := c_description c;
                screenshot := true;
                source := Some (js "daily-menu-section");
                viewport := Some vp |}
      else None
  end.

(** [rect.top >= 0 && rect.top <= window.innerHeight && rect.height > 10] *)
Definition itemVisible (d : Dom) (item : ListItem) : bool :=
  inViewport d (li_top item) && negb (Qle_bool (li_height item) 10).

Definition extractFromSection (minLength : nat) (defaultDescription : jsstring)
           (vp : viewportTag) (d : Dom) (section : option Element) : list MenuItem :=
  match section with
  | Some sec =>
      filter_some
        (map (parseListItem minLength defaultDescription (el_textContent sec) vp)
             (filter (itemVisible d) (el_items sec)))
  | None => []
  end.

(** The page function of [extractItemsFromCurrentViewport]. *)
Definition extractItemsFromCurrentViewport_page (d : Dom) (viewportNumber : nat)
  : list MenuItem :=
  extractFromSection 15 (js "Daily menu item") (VStep viewportNumber) d
                     (findSection_extract dailyMenuPatterns_viewport d).

(** The best viewport kept by the sampling loop: the step's
    [DailyMenuInfo] with its scroll offset. *)
Record BestViewport : Type := {
  bv_info : DailyMenuInfo;
  bv_scrollY : Z
}.

(** The page function of [extractMenuFromScreenshot]. *)
Definition extractMenuFromScreenshot_page (d : Dom) (bestViewport : option BestViewport)
  : list MenuItem :=
  extractFromSection 5 (js "Denne menu item")
                     (match bestViewport with
                      | Some bv => VStep (stepNumber (bv_info bv))
                      | None => VUnknown
                      end) d
                     (findSection_extract dailyMenuPatterns d).

(** ** Progressive viewport sampler: the number of steps

    [window.innerHeight] and [document.body.scrollHeight] are integers.
    The quotient of two integers below 2^53 and its exact value have the
    same ceiling, so [Math.ceil(totalHeight / viewportHeight)] is given on
    integers; a zero divisor yields an infinity or NaN as in the language. *)

Inductive jsnum : Type := Num (z : Z) | PosInf | NegInf | NaN.

Definition ceilDiv (totalHeight viewportHeight : Z) : jsnum :=
  if (viewportHeight =? 0)%Z then
    if (totalHeight =? 0)%Z then NaN
    else if (0 <? totalHeight)%Z then PosInf else NegInf
  else Num (- ((- totalHeight) / viewportHeight))%Z.

(** [Math.min(x, 3)] *)
Definition min3 (x : jsnum) : jsnum :=
  match x with
  | Num z => Num (Z.min z 3)
  | PosInf => Num 3
  | NegInf => NegInf
  | NaN => NaN
  end.

(** How often [for (let step = 0; step < bound; step++)] runs its body. *)
Definition iterations (bound : jsnum) : nat :=
  match bound with
  | Num z => Z.to_nat z
  | PosInf => 0   (* not reached: [min3] never yields it *)
  | NegInf => 0
  | NaN => 0
  end.

Definition scrollSteps (totalHeight viewportHeight : Z) : jsnum :=
  ceilDiv totalHeight viewportHeight.

Definition stepCount (totalHeight viewportHeight : Z) : nat :=
  iterations (min3 (scrollSteps totalHeight viewportHeight)).

(** [scrollY] of step [step] (counted from 0). *)
Definition scrollYOf (viewportHeight : Z) (step : nat) : Z :=
  (Z.of_nat step * viewportHeight)%Z.

Definition stepOffsets (totalHeight viewportHeight : Z) : list Z :=
  map (scrollYOf viewportHeight) (seq 0 (stepCount totalHeight viewportHeight)).

(** ** The browser

    Playwright is kept abstract: every call the scraper makes is an
    operation answered by the environment, which may also throw. *)

Definition browserId := nat.
Definition pageId := nat.

Record JsError : Type := { message : jsstring }.

Inductive outcome (A : Type) : Type :=
| Ok (a : A)
| Throw (e : JsError).
Arguments Ok {A} a.
Arguments Throw {A} e.

(** Calls on a page. *)
Inductive pageOp : Type -> Type :=
| Goto (url : jsstring) (timeout : Z) : pageOp unit
| WaitForTimeout (ms : Z) : pageOp unit
| Evaluate : pageOp Dom                     (* a script that reads the document *)
| ScrollTo (y : Z) : pageOp unit            (* [window.scrollTo(0, y)] *)
| ScrollThrough : pageOp unit               (* the lazy-loading pass, lines 171-187 *)
| Screenshot (path : jsstring) (fullPage : bool) : pageOp unit
| WaitForSelector (sel : jsstring) (timeout : Z) : pageOp unit
| IsVisible (sel : jsstring) (timeout : Z) : pageOp bool
| Click (sel : jsstring) : pageOp unit
| CountAll (sel : jsstring) : pageOp nat    (* [locator(sel).all()], its length *)
| ClickNth (sel : jsstring) (i : nat) : pageOp unit
| ReadConsoleMessages : pageOp (list jsstring)
| AddInitScript : pageOp unit
| ClosePage : pageOp unit.

Inductive op : Type -> Type :=
| EnsureDir (path : jsstring) : op unit
| Launch : op browserId
| NewPage (b : browserId) : op pageId       (* [newContext] and [newPage] *)
| CloseBrowser (b : browserId) : op unit
| RunScript (code : jsstring) : op unit     (* [eval] of a site's custom script *)
| OnPage (p : pageId) {R : Type} (o : pageOp R) : op R.

(** One entry of the log of calls made. *)
Definition event : Type := { R : Type & op R }.

Definition ev {R : Type} (o : op R) : event := existT _ R o.

(** The page a call was made on. *)
Definition pageOf (e : event) : option pageId :=
  match projT2 e with
  | OnPage p _ => Some p
  | _ => None
  end.

Definition isScrollTo (e : event) : option Z :=
  match projT2 e with
  | OnPage _ (ScrollTo y) => Some y
  | _ => None
  end.

Definition isStepScreenshot (e : event) : bool :=
  match projT2 e with
  | OnPage _ (Screenshot _ false) => true
  | _ => false
  end.

Definition isClose (e : event) : bool :=
  match projT2 e with
  | OnPage _ ClosePage => true
  | CloseBrowser _ => true
  | _ => false
  end.

Definition isGoto (e : event) : option jsstring :=
  match projT2 e with
  | OnPage _ (Goto url _) => Some url
  | _ => None
  end.

(** The scroll offsets requested, in order. *)
Definition scrollsOf (tr : list event) : list Z := filter_some (map isScrollTo tr).

(** ** The scraper object and its results *)

Record Site : Type := {
  site_name : jsstring;
  site_url : jsstring;
  site_enabled : bool;
  customScript : option jsstring;
  waitForSelector : option jsstring
}.

Record Scraper : Type := {
  cfg_timeout : option Z;                   (* [this.config.timeout] *)
  screenshotDir : jsstring;
  siteConfig : list Site;                   (* the sites of [this.siteConfig] *)
  browser : option browserId;
  page : option pageId;
  bestDailyMenuViewport : option BestViewport
}.

(** What [scrapeRestaurant] returns; fields the failure record does not
    have are [None] ([undefined]). *)
Record SiteData : Type := {
  sd_success : bool;
  sd_restaurant : jsstring;
  sd_url : option jsstring;
  sd_scrapedAt : option jsstring;
  sd_screenshotPath : option jsstring;
  sd_menuData : option (list MenuItem);
  sd_itemCount : option nat;
  sd_error : option jsstring
}.

(** An entry of the list [scrapeAllSites] returns. *)
Record SiteResult : Type := {
  r_name : jsstring;
  r_url : jsstring;
  r_success : bool;
  r_scrapedAt : option jsstring;
  r_itemCount : option nat;
  r_items : option (list MenuItem);         (* [menuData.items] *)
  r_totalCount : option nat;                (* [menuData.totalCount] *)
  r_screenshotPath : option jsstring;
  r_error : option jsstring
}.

(** Decimal text of a number, for file names. *)
Definition digitOf (n : nat) : N := (48 + N.of_nat n)%N.

Fixpoint showNat_aux (fuel n : nat) (acc : jsstring) : jsstring :=
  match fuel with
  | O => acc
  | S f =>
      let acc' := digitOf (n mod 10) :: acc in
      if n / 10 =? 0 then acc' else showNat_aux f (n / 10) acc'
  end.

Definition showNat (n : nat) : jsstring := showNat_aux (S n) n [].

(** [path.join(dir, file)] for a directory without a trailing separator. *)
Definition pathJoin (dir file : jsstring) : jsstring := dir ++ js "/" ++ file.

(** [iso.replace(/:/g, "-").split(".")[0]] *)
Fixpoint upTo (c : N) (s : jsstring) : jsstring :=
  match s with
  | [] => []
  | x :: s' => if (x =? c)%N then [] else x :: upTo c s'
  end.

Definition timestampOf (iso : jsstring) : jsstring :=
  upTo (cu ".") (replace_all (lit (cu ":")) (js "-") iso).

(** A string used as a condition: [undefined] and the empty string are falsy. *)
Definition truthy (s : option jsstring) : bool :=
  match s with
  | Some (_ :: _) => true
  | _ => false
  end.

(** The quotation mark, for selector texts. *)
Definition quoted (s : string) : jsstring := [34%N] ++ js s ++ [34%N].

Definition hasText (t : string) : jsstring :=
  js "button:has-text(" ++ quoted t ++ js ")".

Definition attrContains (attr value rest : string) : jsstring :=
  js "[" ++ js attr ++ js "*=" ++ quoted value ++ js "]" ++ js rest.

Definition cookieSelectors : list jsstring :=
  [ hasText "Súhlasím";
    hasText "Prijať všetky";
    hasText "Prijať";
    hasText "Accept all";
    hasText "Accept";
    hasText "Akceptovať";
    hasText "OK";
    attrContains "id" "cookie" " button:first-of-type";
    attrContains "class" "cookie" " button:first-of-type";
    attrContains "data-testid" "cookie" " button";
    attrContains "class" "consent" " button:first-of-type";
    js "button" ++ attrContains "class" "accept" "";
    js "button" ++ attrContains "id" "accept" "" ].

Definition dialogSelector : jsstring :=
  js "[role=" ++ quoted "dialog" ++ js "] button, .modal button, "
     ++ attrContains "class" "popup" " button".

Definition cloudflareIndicators : list jsstring :=
  map js [ "verifying you are human";
           "checking your browser";
           "cloudflare";
           "please wait while we check your browser";
           "this may take a few seconds" ].

(** ** The scraper's methods

    A state and exception monad over the scraper object, the environment
    and the log of calls. *)

Section Pipeline.

(** The environment: its state, how it answers a call, and its clock
    ([new Date().toISOString()]). *)
Variable W : Type.
Variable handle : forall R : Type, op R -> W -> outcome R * W.
Variable clock : W -> jsstring * W.

Record State : Type := {
  self : Scraper;
  world : W;
  trace : list event
}.

Definition M (A : Type) : Type := State -> outcome A * State.

Definition ret {A : Type} (a : A) : M A := fun st => (Ok a, st).

Definition throw {A : Type} (e : JsError) : M A := fun st => (Throw e, st).

Definition bind {A B : Type} (m : M A) (k : A -> M B) : M B :=
  fun st =>
    match m st with
    | (Ok a, st') => k a st'
    | (Throw e, st') => (Throw e, st')
    end.

(** [try { m } catch (error) { h error }] *)
Definition try_catch {A : Type} (m : M A) (h : JsError -> M A) : M A :=
  fun st =>
    match m st with
    | (Ok a, st') => (Ok a, st')
    | (Throw e, st') => h e st'
    end.

Local Notation "x <- m ;; k" := (bind m (fun x => k))
  (at level 61, m at next level, right associativity).
Local Notation "m ;;; k" := (bind m (fun _ => k))
  (at level 61, right associativity).

Definition call {R : Type} (o : op R) : M R :=
  fun st =>
    let (r, w') := handle R o (world st) in
    (r, {| self := self st; world := w'; trace := trace st ++ [ev o] |}).

Definition now : M jsstring :=
  fun st =>
    let (iso, w') := clock (world st) in
    (Ok iso, {| self := self st; world := w'; trace := trace st |}).

Definition getSelf : M Scraper := fun st => (Ok (self st), st).

Definition setSelf (s : Scraper) : M unit :=
  fun st => (Ok tt, {| self := s; world := world st; trace := trace st |}).

Definition setBrowser (b : browserId) : M unit :=
  s <- getSelf ;;
  setSelf {| cfg_timeout := cfg_timeout s; screenshotDir := screenshotDir s;
             siteConfig := siteConfig s; browser := Some b; page := page s;
             bestDailyMenuViewport := bestDailyMenuViewport s |}.

Definition setPage (p : pageId) : M unit :=
  s <- getSelf ;;
  setSelf {| cfg_timeout := cfg_timeout s; screenshotDir := screenshotDir s;
             siteConfig := siteConfig s; browser := browser s; page := Some p;
             bestDailyMenuViewport := bestDailyMenuViewport s |}.

Definition setBest (b : option BestViewport) : M unit :=
  s <- getSelf ;;
  setSelf {| cfg_timeout := cfg_timeout s; screenshotDir := screenshotDir s;
             siteConfig := siteConfig s; browser := browser s; page := page s;
             bestDailyMenuViewport := b |}.

Definition nullError : JsError :=
  {| message := js "Cannot read properties of null" |}.

(** [this.page.m(...)]: a TypeError when [this.page] is [null]. *)
Definition onPage {R : Type} (o : pageOp R) : M R :=
  s <- getSelf ;;
  match page s with
  | Some p => call (OnPage p o)
  | None => throw nullError
  end.

(** *** initialize and close *)

Definition initialize : M bool :=
  try_catch
    (s <- getSelf ;;
     call (EnsureDir (screenshotDir s)) ;;;
     b <- call Launch ;;
     setBrowser b ;;;
     p <- call (NewPage b) ;;
     setPage p ;;;
     onPage AddInitScript ;;;
     ret true)
    (fun _ => ret false).

Definition close : M unit :=
  try_catch
    (s <- getSelf ;;
     match page s with
     | Some p => call (OnPage p ClosePage)
     | None => ret tt
     end ;;;
     match browser s with
     | Some b => call (CloseBrowser b)
     | None => ret tt
     end)
    (fun _ => ret tt).

(** *** handleCloudflareProtection *)

Definition handleCloudflareProtection : M bool :=
  try_catch
    (d <- onPage Evaluate ;;
     let title := toLowerCase (dom_title d) in
     let bodyText := toLowerCase (dom_bodyText d) in
     let cloudflareDetected :=
       existsb (fun indicator => includes title indicator || includes bodyText indicator)
               cloudflareIndicators in
     if cloudflareDetected then
       onPage (WaitForTimeout 5000) ;;;
       d2 <- onPage Evaluate ;;
       let bodyText := toLowerCase (dom_bodyText d2) in
       ret (includes bodyText (js "verifying you are human")
            || includes bodyText (js "checking your browser"))
     else ret false)
    (fun _ => ret false).

(** *** Consent dismissal (lines 96-152) *)

Fixpoint tryCookieSelectors (sels : list jsstring) : M bool :=
  match sels with
  | [] => ret false
  | selector :: sels' =>
      accepted <-
        try_catch
          (v <- onPage (IsVisible selector 2000) ;;
           if v then
             onPage (Click selector) ;;;
             onPage (WaitForTimeout 3000) ;;;
             ret true
           else ret false)
          (fun _ => ret false) ;;
      if accepted then ret true else tryCookieSelectors sels'
  end.

Definition handleCookies : M unit :=
  try_catch
    (onPage (WaitForTimeout 3000) ;;;
     cookieAccepted <- tryCookieSelectors cookieSelectors ;;
     if cookieAccepted then ret tt
     else
       try_catch
         (n <- onPage (CountAll dialogSelector) ;;
          if 0 <? n then
            onPage (ClickNth dialogSelector 0) ;;;
            onPage (WaitForTimeout 3000)
          else ret tt)
         (fun _ => ret tt))
    (fun _ => ret tt).

(** *** extractItemsFromCurrentViewport *)

Definition extractItemsFromCurrentViewport (siteName : jsstring) (viewportNumber : nat)
  : M (list MenuItem) :=
  d <- onPage Evaluate ;;
  ret (extractItemsFromCurrentViewport_page d viewportNumber).

(** *** extractMenuFromScreenshot *)

Definition placeholderItem (screenshotPath : jsstring) : MenuItem :=
  {| name := js "Screenshot Analysis Required";
     price := js "N/A";
     category := js "Manual Review";
     description := js "Screenshot saved at " ++ screenshotPath
                       ++ js " - requires manual or AI analysis";
     screenshot := true;
     source := None;
     viewport := None |}.

Definition extractMenuFromScreenshot (screenshotPath : jsstring) (site : Site)
           (bestViewport : option BestViewport) : M (list MenuItem) :=
  try_catch
    (match bestViewport with
     | Some bv =>
         if jseqb (site_name site) (js "Central Pub") then
           onPage (ScrollTo (bv_scrollY bv)) ;;;
           onPage (WaitForTimeout 2000)
         else ret tt
     | None => ret tt
     end ;;;
     d <- onPage Evaluate ;;
     let items := extractMenuFromScreenshot_page d bestViewport in
     onPage ReadConsoleMessages ;;;
     ret items)
    (fun _ => ret [placeholderItem screenshotPath]).

(** *** scrapeRestaurant *)

Definition stepScreenshotPath (dir : jsstring) (site : Site) (timestamp : jsstring)
           (step : nat) : jsstring :=
  pathJoin dir (site_name site ++ js "-" ++ timestamp ++ js "-step"
                          ++ showNat (step + 1) ++ js ".png").

Definition mainScreenshotPath (dir : jsstring) (site : Site) (timestamp : jsstring)
  : jsstring :=
  pathJoin dir (site_name site ++ js "-" ++ timestamp ++ js ".png").

(** Lines 324-334. *)
Definition updateBest (info : DailyMenuInfo) (scrollY : Z) (step : nat) : M unit :=
  if visible info then
    s <- getSelf ;;
    let better :=
      match bestDailyMenuViewport s with
      | None => true
      | Some best => visibleItems (bv_info best) <? visibleItems info
      end in
    if better then
      setBest (Some {| bv_info := {| visible := visible info;
                                     totalItems := totalItems info;
                                     visibleItems := visibleItems info;
                                     sampleText := sampleText info;
                                     stepNumber := step + 1 |};
                       bv_scrollY := scrollY |})
    else ret tt
  else ret tt.

(** One round of the sampling loop (lines 222-350); the result is the
    step's screenshot path and its items. *)
Definition sampleStep (site : Site) (timestamp : jsstring) (viewportHeight : Z)
           (step : nat) : M (jsstring * list MenuItem) :=
  let scrollY := scrollYOf viewportHeight step in
  onPage (ScrollTo scrollY) ;;;
  onPage (WaitForTimeout 2000) ;;;
  s <- getSelf ;;
  let path := stepScreenshotPath (screenshotDir s) site timestamp step in
  onPage (Screenshot path false) ;;;
  d <- onPage Evaluate ;;
  updateBest (dailyMenuInfo d (step + 1)) scrollY step ;;;
  viewportItems <- extractItemsFromCurrentViewport (site_name site) (step + 1) ;;
  ret (path, viewportItems).

(** The loop over the given steps, with [screenshots] and
    [allDailyMenuItems] as accumulators. *)
Fixpoint sampleSteps (site : Site) (timestamp : jsstring) (viewportHeight : Z)
         (steps : list nat) (screenshots : list jsstring)
         (allDailyMenuItems : list MenuItem)
  : M (list jsstring * list MenuItem) :=
  match steps with
  | [] => ret (screenshots, allDailyMenuItems)
  | step :: steps' =>
      r <- sampleStep site timestamp viewportHeight step ;;
      sampleSteps site timestamp viewportHeight steps'
                  (screenshots ++ [fst r]) (allDailyMenuItems ++ snd r)
  end.

(** The body of the [try] block (lines 68-390). *)
Definition scrapeRestaurant_try (site : Site) : M SiteData :=
  setBest None ;;;
  s <- getSelf ;;
  onPage (Goto (site_url site)
               (match cfg_timeout s with
                | Some t => if (t =? 0)%Z then 60000%Z else t
                | None => 60000%Z
                end)) ;;;
  isCloudflareProtected <- handleCloudflareProtection ;;
  (if isCloudflareProtected then
     onPage (WaitForTimeout 15000) ;;;
     try_catch (onPage (Goto (site_url site) 30000)) (fun _ => ret tt)
   else ret tt) ;;;
  handleCookies ;;;
  (if truthy (customScript site) then
     try_catch
       (call (RunScript (match customScript site with Some c => c | None => [] end)))
       (fun _ => ret tt)
   else ret tt) ;;;
  (match waitForSelector site with
   | Some (c :: sel) => onPage (WaitForSelector (c :: sel) 10000)
   | _ => ret tt
   end) ;;;
  try_catch
    (onPage ScrollThrough ;;;
     onPage (WaitForTimeout 2000))
    (fun _ => ret tt) ;;;
  iso <- now ;;
  let timestamp := timestampOf iso in
  d1 <- onPage Evaluate ;;
  let viewportHeight := innerHeight d1 in
  d2 <- onPage Evaluate ;;
  let totalHeight := scrollHeight d2 in
  onPage (ScrollTo 0) ;;;
  onPage (WaitForTimeout 2000) ;;;
  sampled <- sampleSteps site timestamp viewportHeight
                         (seq 0 (stepCount totalHeight viewportHeight)) [] [] ;;
  let allDailyMenuItems := snd sampled in
  onPage (ScrollTo 0) ;;;
  onPage (WaitForTimeout 2000) ;;;
  let screenshotPath := mainScreenshotPath (screenshotDir s) site timestamp in
  onPage (Screenshot screenshotPath true) ;;;
  menuData <-
    match allDailyMenuItems with
    | _ :: _ => ret allDailyMenuItems
    | [] =>
        s' <- getSelf ;;
        extractMenuFromScreenshot screenshotPath site (bestDailyMenuViewport s')
    end ;;
  scrapedAt <- now ;;
  ret {| sd_success := true;
         sd_restaurant := site_name site;
         sd_url := Some (site_url site);
         sd_scrapedAt := Some scrapedAt;
         sd_screenshotPath := Some screenshotPath;
         sd_menuData := Some menuData;
         sd_itemCount := Some (length menuData);
         sd_error := None |}.

Definition scrapeRestaurant (site : Site) : M SiteData :=
  try_catch
    (scrapeRestaurant_try site)
    (fun error =>
       ret {| sd_success := false;
              sd_restaurant := site_name site;
              sd_url := None;
              sd_scrapedAt := None;
              sd_screenshotPath := None;
              sd_menuData := None;
              sd_itemCount := None;
              sd_error := Some (message error) |}).

(** *** scrapeAllSites *)

Definition getEnabledSites (s : Scraper) : list Site :=
  filter site_enabled (siteConfig s).

(** The body of the loop over the sites (lines 921-960). *)
Definition scrapeSite (site : Site) : M SiteResult :=
  try_catch
    (siteData <- scrapeRestaurant site ;;
     ret {| r_name := site_name site;
            r_url := site_url site;
            r_success := sd_success siteData;
            r_scrapedAt := sd_scrapedAt siteData;
            r_itemCount := sd_itemCount siteData;
            r_items := sd_menuData siteData;
            r_totalCount := sd_itemCount siteData;
            r_screenshotPath := sd_screenshotPath siteData;
            r_error := if sd_success siteData then None else sd_error siteData |})
    (fun error =>
       scrapedAt <- now ;;
       ret {| r_name := site_name site;
              r_url := site_url site;
              r_success := false;
              r_scrapedAt := Some scrapedAt;
              r_itemCount := Some 0;
              r_items := Some [];
              r_totalCount := Some 0;
              r_screenshotPath := None;
              r_error := Some (message error) |}).

Fixpoint scrapeSites (sites : list Site) (results : list SiteResult)
  : M (list SiteResult) :=
  match sites with
  | [] => ret results
  | site :: sites' =>
      r <- scrapeSite site ;;
      scrapeSites sites' (results ++ [r])
  end.

Definition scrapeAllSites : M (list SiteResult) :=
  s <- getSelf ;;
  let sites := getEnabledSites s in
  match sites with
  | [] => ret []
  | _ :: _ => scrapeSites sites []
  end.

End Pipeline.

Arguments self {W} s.
Arguments world {W} s.
Arguments trace {W} s.
Arguments Build_State {W} self world trace.
Arguments ret {W A} a.
Arguments throw {W A} e.
Arguments bind {W A B} m k.
Arguments try_catch {W A} m h.

(** ** What a successful match means

    [matches r st w st']: from state [st] the pattern [r] can consume the
    word [w] and end in state [st']. *)

Inductive matches : regex -> mstate -> jsstring -> mstate -> Prop :=
| M_eps st : matches Eps st [] st
| M_chr p c tl st :
    rest st = c :: tl -> p c = true -> matches (Chr p) st [c] (advance st tl)
| M_seq a b st1 w1 st2 w2 st3 :
    matches a st1 w1 st2 -> matches b st2 w2 st3 ->
    matches (Seq a b) st1 (w1 ++ w2) st3
| M_alt_l a b st w st' : matches a st w st' -> matches (Alt a b) st w st'
| M_alt_r a b st w st' : matches b st w st' -> matches (Alt a b) st w st'
| M_star_nil a st : matches (Star a) st [] st
| M_star_cons a st1 w1 st2 w2 st3 :
    matches a st1 w1 st2 -> w1 <> [] -> matches (Star a) st2 w2 st3 ->
    matches (Star a) st1 (w1 ++ w2) st3
| M_opt_none a st : matches (Opt a) st [] st
| M_opt_some a st w st' :
    matches a st w st' -> w <> [] -> matches (Opt a) st w st'
| M_group n a st w st' :
    matches a st w st' -> matches (Group n a) st w (set_cap n w st')
| M_bol st : pos st = 0 -> matches Bol st [] st
| M_eol st : rest st = [] -> matches Eol st [] st.

(** ** The price patterns of the specification *)

(** [^(od )?\d+,\d{2} €$]: the two-decimal money pattern. *)
Definition re_money_twoDecimals : regex :=
  seqs [ Bol; Opt (Group 1 (str "od ")); Plus digit; lit (cu ","); digit; digit;
         lit (cu " "); lit euro; Eol ].

(** [^(od )?\d+,\d+ €$]: the same with any number of decimals. *)
Definition re_money : regex :=
  seqs [ Bol; Opt (Group 1 (str "od ")); Plus digit; lit (cu ","); Plus digit;
         lit (cu " "); lit euro; Eol ].

(** The text of an amount: digits, a comma, digits. *)
Definition amountText (w : jsstring) : Prop :=
  exists ds1 ds2,
    ds1 <> [] /\ ds2 <> [] /\
    forallb is_digit ds1 = true /\ forallb is_digit ds2 = true /\
    w = ds1 ++ cu "," :: ds2.

(** The part of [re_money] after the qualifier. *)
Definition re_moneyTail : regex :=
  seqs [ Plus digit; lit (cu ","); Plus digit; lit (cu " "); lit euro; Eol ].

(** ** Named conditions of the specification *)

(** The lower-cased text of a candidate section contains an exclusion
    phrase. *)
Definition excluded (el : Element) : bool :=
  existsb (fun pattern => includes (toLowerCase (el_textContent el)) pattern)
          excludePatterns.

(** The lower-cased text matches one of the daily-menu patterns. *)
Definition included (patterns : list regex) (el : Element) : bool :=
  existsb (fun pattern => test pattern (toLowerCase (el_textContent el))) patterns.

(** Scenario A as the specification states it. *)
Definition scenarioA_expected (it : MenuItem) : Prop :=
  name it = js "Goulash" /\ price it = js "3,50 €" /\ description it = js "with bread".

(** Soundness of the matcher at one pattern. *)
Definition sound_at (r : regex) : Prop :=
  forall k st res,
    rmatch r k st = Some res ->
    exists w st', matches r st w st' /\ k st' = Some res.

(** A completed round of the loop has made exactly these calls. *)
Definition stepEvents (p : pageId) (path : jsstring) (scrollY : Z) : list event :=
  [ ev (OnPage p (ScrollTo scrollY));
    ev (OnPage p (WaitForTimeout 2000));
    ev (OnPage p (Screenshot path false));
    ev (OnPage p Evaluate);
    ev (OnPage p Evaluate) ].

(** ** Specifications of the methods

    [triple I m Q]: from a state that satisfies [I], the computation [m]
    ends in a state that satisfies [I], with an outcome that satisfies
    [Q]. *)

Definition triple {W A : Type} (I : State W -> Prop) (m : M W A)
           (Q : outcome A -> Prop) : Prop :=
  forall st, I st -> I (snd (m st)) /\ Q (fst (m st)).

(** The invariant used throughout: [this.page] is [pg], and every call
    made since the log read [tr0] satisfies [E]. *)
Definition since {W : Type} (pg : option pageId) (E : event -> bool)
           (tr0 : list event) (st : State W) : Prop :=
  page (self st) = pg /\
  exists evs, trace st = tr0 ++ evs /\ forallb E evs = true.

Definition anyOutcome {A : Type} (_ : outcome A) : Prop := True.

(** The outcome is a value that satisfies [Q]. *)
Definition returns {A : Type} (Q : A -> Prop) (r : outcome A) : Prop :=
  exists a, r = Ok a /\ Q a.

Definition anything {A : Type} (_ : A) : Prop := True.

(** A call on page [p] other than closing it, or a site's custom script. *)
Definition sharedPageEvent (p : pageId) (e : event) : bool :=
  match projT2 e with
  | OnPage q ClosePage => false
  | OnPage q _ => q =? p
  | RunScript _ => true
  | _ => false
  end.

Definition notScroll (e : event) : bool :=
  match isScrollTo e with
  | Some _ => false
  | None => true
  end.

Definition anyEvent (_ : event) : bool := true.

(** The navigations made: page and address. *)
Definition gotosOf (tr : list event) : list (pageId * jsstring) :=
  filter_some
    (map (fun e => match pageOf e, isGoto e with
                   | Some p, Some url => Some (p, url)
                   | _, _ => None
                   end) tr).

(** The session discipline of the specification, on a log of calls: two
    navigations to different addresses are made on different pages, and
    every page navigated is closed. *)
Definition sessionPerSite (tr : list event) : Prop :=
  (forall p1 u1 p2 u2,
      In (p1, u1) (gotosOf tr) -> In (p2, u2) (gotosOf tr) -> u1 <> u2 -> p1 <> p2)
  /\ (forall p u, In (p, u) (gotosOf tr) ->
                  existsb (fun e => isClose e && match pageOf e with
                                                 | Some q => q =? p
                                                 | None => false
                                                 end) tr = true).

Definition isClosePage {R : Type} (o : pageOp R) : bool :=
  match o with
  | ClosePage => true
  | _ => false
  end.

(** The fallback pass of [extractMenuFromScreenshot] is anchored: between
    the logs [tr] and [tr'] the first call scrolls page [p] to the best
    viewport's offset, and no later call scrolls. *)
Definition anchoredFallback (p : pageId) (bv : BestViewport) (tr tr' : list event)
  : Prop :=
  exists evs,
    tr' = tr ++ ev (OnPage p (ScrollTo (bv_scrollY bv))) :: evs /\
    forallb notScroll evs = true.

(** The fallback pass runs wherever the page happens to be scrolled. *)
Definition unanchoredFallback (tr tr' : list event) : Prop :=
  exists evs, tr' = tr ++ evs /\ forallb notScroll evs = true.

(** The failure record of [scrapeRestaurant] as [scrapeAllSites] reports
    it: everything but the name, the address and the message is
    [undefined]. *)
Definition failureResult (site : Site) (error : JsError) : SiteResult :=
  {| r_name := site_name site;
     r_url := site_url site;
     r_success := false;
     r_scrapedAt := None;
     r_itemCount := None;
     r_items := None;
     r_totalCount := None;
     r_screenshotPath := None;
     r_error := Some (message error) |}.

(** A document in which neither extraction pass finds a section. *)
Definition noSection (d : Dom) : Prop :=
  findSection_extract dailyMenuPatterns_viewport d = None /\
  findSection_extract dailyMenuPatterns d = None.

(** What a run without a menu returns. *)
Definition noMenuData (data : SiteData) : Prop :=
  sd_success data = true /\
  sd_menuData data = Some [] /\
  sd_itemCount data = Some 0 /\
  sd_error data = None.

(** [ahead st st']: the matcher has moved from [st] to [st'] by consuming
    input. *)
Definition ahead (st st' : mstate) : Prop :=
  pos st <= pos st' /\
  pos st' + length (rest st') = pos st + length (rest st).

(** A continuation is only ever called on states ahead of the start. *)
Definition ext_at (r : regex) : Prop :=
  forall k k' st,
    (forall st', ahead st st' -> k st' = k' st') ->
    rmatch r k st = rmatch r k' st.

(** Every item of a returned list, and of a returned site record,
    satisfies [P]. *)
Definition itemsSatisfy (P : MenuItem -> Prop) (r : outcome (list MenuItem)) : Prop :=
  match r with
  | Ok items => Forall P items
  | Throw _ => True
  end.

Definition sampledSatisfy (P : MenuItem -> Prop)
           (r : outcome (list jsstring * list MenuItem)) : Prop :=
  match r with
  | Ok sampled => Forall P (snd sampled)
  | Throw _ => True
  end.

Definition stepSatisfies (P : MenuItem -> Prop)
           (r : outcome (jsstring * list MenuItem)) : Prop :=
  match r with
  | Ok step => Forall P (snd step)
  | Throw _ => True
  end.

Definition menuDataSatisfies (P : MenuItem -> Prop) (r : outcome SiteData) : Prop :=
  match r with
  | Ok data =>
      match sd_menuData data with
      | Some items => Forall P items
      | None => True
      end
  | Throw _ => True
  end.

(** The invariants of an item record (section 3 of the specification,
    with the price pattern as the code has it). *)
Definition wellFormedItem (it : MenuItem) : Prop :=
  3 < length (name it) /\
  includes (name it) (js "€") = false /\
  (price it = js "N/A" \/ test re_money (price it) = true).

(** ** Concrete pages and a concrete browser, for the examples *)

Module Demo.

(** A list item 30px high at the top of the viewport. *)
Definition li (text : string) : ListItem :=
  {| li_textContent := js text; li_top := 0; li_height := 30 |}.

Definition div (text : string) (top : Q) (items : list ListItem) : Element :=
  {| el_tag := TDiv; el_role := None; el_textContent := js text;
     el_top := top; el_items := items |}.

Definition section (text : string) (top : Q) (items : list ListItem) : Element :=
  {| el_tag := TSection; el_role := None; el_textContent := js text;
     el_top := top; el_items := items |}.

Definition dom (height : Z) (els : list Element) : Dom :=
  {| dom_title := js "Bistro"; dom_bodyText := js "Bistro";
     innerHeight := 1024; scrollHeight := height; dom_elements := els |}.

(** A daily-menu section with one dish whose price has one decimal. *)
Definition oneDecimal : Dom :=
  dom 900 [ div "Denné menu Pondelok Gulášová polievka 3,5 € s chlebom" 0
                [ li "Gulášová polievka 3,5 € s chlebom" ] ].

Definition oneDecimalItem : MenuItem :=
  {| name := js "Gulášová polievka";
     price := js "3,5 €";
     category := js "Denné menu Pondelok";
     description := js "s chlebom";
     screenshot := true;
     source := Some (js "daily-menu-section");
     viewport := Some (VStep 1) |}.

(** A drink whose name is three code units long. *)
Definition rumItem : ListItem := li "Rum 2,50 € tuzemský".

(** Scenario A of the specification, and its Slovak counterpart. *)
Definition soupItem : ListItem := li "Soup 1: Goulash 3,50 € with bread".
Definition polievkaItem : ListItem := li "Polievka 1: Goulash 3,50 € with bread".

(** Scenario D: a favourites block that also announces the daily menu. *)
Definition favourites : Element :=
  div "Obľúbené Denné menu Monday Daily menu Monday" 0 [].

(** A section for Tuesday's menu. *)
Definition tuesday : Element :=
  div "Denné menu Utorok Vyprážaný syr s hranolkami 6,90 € tatárska omáčka" 0
      [ li "Vyprážaný syr s hranolkami 6,90 € tatárska omáčka" ].

Definition tuesdayPage : Dom := dom 900 [tuesday].

(** A [div] and a [section] that both announce a daily menu, the [div]
    first in document order. *)
Definition divThenSection : Dom :=
  dom 900 [ div "Denné menu Pondelok A" 0 []; section "Denné menu Pondelok B" 0 [] ].

(** *** A browser

    Its state is the address shown and the scroll offset.  Navigation
    to [downUrl] times out; consent banners are never present. *)

Record browserState : Type := { w_url : jsstring; w_scrollY : Z }.

Definition downUrl : jsstring := js "https://down.example/menu".
Definition tuesdayUrl : jsstring := js "https://utorok.example/menu".
Definition emptyUrl : jsstring := js "https://empty.example/menu".

(** An element that lies [top] pixels below the start of the document,
    seen at scroll offset [y]. *)
Definition at_offset (y top : Z) : Q := inject_Z (top - y).

(** The document of [tuesdayUrl], 3500px high: Tuesday's menu starts at
    1500px, its only dish at 1600px. *)
Definition tuesdayAt (y : Z) : Dom :=
  dom 3500
      [ {| el_tag := TDiv; el_role := None;
           el_textContent := el_textContent tuesday;
           el_top := at_offset y 1500;
           el_items := [ {| li_textContent :=
                              js "Vyprážaný syr s hranolkami 6,90 € tatárska omáčka";
                            li_top := at_offset y 1600;
                            li_height := 30 |} ] |} ].

(** The document of every other address: no daily menu. *)
Definition emptyAt (y : Z) : Dom :=
  dom 3500 [ div "Stále menu Pizza Margherita 7,50 €" (at_offset y 200) [] ].

Definition render (w : browserState) : Dom :=
  if jseqb (w_url w) tuesdayUrl then tuesdayAt (w_scrollY w) else emptyAt (w_scrollY w).

Definition timeoutError : JsError :=
  {| message := js "page.goto: Timeout 60000ms exceeded." |}.

Definition onPageOp {R : Type} (o : pageOp R) (w : browserState) : outcome R * browserState :=
  match o in pageOp R return outcome R * browserState with
  | Goto url _ =>
      if jseqb url downUrl then (Throw timeoutError, w)
      else (Ok tt, {| w_url := url; w_scrollY := 0 |})
  | WaitForTimeout _ => (Ok tt, w)
  | Evaluate => (Ok (render w), w)
  | ScrollTo y => (Ok tt, {| w_url := w_url w; w_scrollY := y |})
  | ScrollThrough => (Ok tt, {| w_url := w_url w; w_scrollY := 0 |})
  | Screenshot _ _ => (Ok tt, w)
  | WaitForSelector _ _ => (Ok tt, w)
  | IsVisible _ _ => (Ok false, w)
  | Click _ => (Ok tt, w)
  | CountAll _ => (Ok 0, w)
  | ClickNth _ _ => (Ok tt, w)
  | ReadConsoleMessages => (Ok [], w)
  | AddInitScript => (Ok tt, w)
  | ClosePage => (Ok tt, w)
  end.

Definition handle (R : Type) (o : op R) (w : browserState) : outcome R * browserState :=
  match o in op R return outcome R * browserState with
  | EnsureDir _ => (Ok tt, w)
  | Launch => (Ok 1, w)
  | NewPage _ => (Ok 7, w)
  | CloseBrowser _ => (Ok tt, w)
  | RunScript _ => (Ok tt, w)
  | OnPage _ o' => onPageOp o' w
  end.

(** A browser that never throws and never shows a daily menu. *)
Definition quietOnPageOp {R : Type} (o : pageOp R) (w : browserState)
  : outcome R * browserState :=
  match o in pageOp R return outcome R * browserState with
  | Goto url _ => (Ok tt, {| w_url := url; w_scrollY := 0 |})
  | WaitForTimeout _ => (Ok tt, w)
  | Evaluate => (Ok (emptyAt (w_scrollY w)), w)
  | ScrollTo y => (Ok tt, {| w_url := w_url w; w_scrollY := y |})
  | ScrollThrough => (Ok tt, {| w_url := w_url w; w_scrollY := 0 |})
  | Screenshot _ _ => (Ok tt, w)
  | WaitForSelector _ _ => (Ok tt, w)
  | IsVisible _ _ => (Ok false, w)
  | Click _ => (Ok tt, w)
  | CountAll _ => (Ok 0, w)
  | ClickNth _ _ => (Ok tt, w)
  | ReadConsoleMessages => (Ok [], w)
  | AddInitScript => (Ok tt, w)
  | ClosePage => (Ok tt, w)
  end.

Definition quietHandle (R : Type) (o : op R) (w : browserState)
  : outcome R * browserState :=
  match o in op R return outcome R * browserState with
  | EnsureDir _ => (Ok tt, w)
  | Launch => (Ok 1, w)
  | NewPage _ => (Ok 7, w)
  | CloseBrowser _ => (Ok tt, w)
  | RunScript _ => (Ok tt, w)
  | OnPage _ o' => quietOnPageOp o' w
  end.

Definition clock (w : browserState) : jsstring * browserState :=
  (js "2024-05-07T10:11:12.345Z", w).

Definition site (siteName : string) (url : jsstring) : Site :=
  {| site_name := js siteName; site_url := url; site_enabled := true;
     customScript := None; waitForSelector := None |}.

Definition downSite : Site := site "Down Bistro" downUrl.
Definition emptySite : Site := site "Empty Bistro" emptyUrl.
Definition tuesdaySite : Site := site "Utorok Bistro" tuesdayUrl.
Definition centralPub : Site := site "Central Pub" tuesdayUrl.

Definition scraper (sites : list Site) (p : option pageId) : Scraper :=
  {| cfg_timeout := Some 60000%Z; screenshotDir := js "./screenshots";
     siteConfig := sites; browser := Some 1; page := p;
     bestDailyMenuViewport := None |}.

Definition start (sites : list Site) : State browserState :=
  {| self := scraper sites (Some 7);
     world := {| w_url := js "about:blank"; w_scrollY := 0 |};
     trace := [] |}.

(** The scraper with its page already at [url], scrolled to the top. *)
Definition startAt (url : jsstring) (sites : list Site) : State browserState :=
  {| self := scraper sites (Some 7);
     world := {| w_url := url; w_scrollY := 0 |};
     trace := [] |}.

Definition run {A : Type} (m : M browserState A) (sites : list Site)
  : outcome A * State browserState := m (start sites).

(** The best viewport the sampling loop finds on [tuesdayUrl]. *)
Definition tuesdayBest : BestViewport :=
  {| bv_info := {| visible := true; totalItems := 1; visibleItems := 1;
                   sampleText := Some (el_textContent tuesday); stepNumber := 2 |};
     bv_scrollY := 1024 |}.

End Demo.

(** ** Further conditions used in the properties below *)

(** Two matcher states at the same place of the same input. *)
Definition same_input (s s' : mstate) : Prop :=
  pos s = pos s' /\ rest s = rest s'.

(** Wherever [k] succeeds, [k'] succeeds at the same place. *)
Definition succeeds_like (k k' : cont) : Prop :=
  forall s s', same_input s s' -> k s <> None -> k' s' <> None.

Definition caps_irrelevant_at (r : regex) : Prop :=
  forall k k' st st',
    same_input st st' -> succeeds_like k k' ->
    rmatch r k st <> None -> rmatch r k' st' <> None.

(** A text that [trim] leaves as it is. *)
Definition trimmed (s : jsstring) : Prop := trim s = s.

(** A text that begins, or ends, with a white-space code unit. *)
Definition begins_with_space (s : jsstring) : bool :=
  match s with
  | c :: _ => is_space c
  | [] => false
  end.

Definition ends_with_space (s : jsstring) : bool := begins_with_space (rev s).

(** A text that is not empty and has nothing left to trim. *)
Definition tidy (s : jsstring) : Prop :=
  s <> [] /\ begins_with_space s = false /\ ends_with_space s = false.

(** [t] occurs in [s]. *)
Definition occursIn (t s : jsstring) : Prop := exists pre post, s = pre ++ t ++ post.

(** The items of one pass agree on what they take from the section and
    the step. *)
Definition uniformItems (items : list MenuItem) : Prop :=
  forall it it', In it items -> In it' items ->
    category it = category it' /\ viewport it = viewport it' /\ source it = source it'.

(** Every category is the default one or is read off an element of the
    document. *)
Definition categoriesFrom (d : Dom) (items : list MenuItem) : Prop :=
  forall it, In it items ->
    category it = js "Daily Menu" \/
    exists sec, In sec (dom_elements d) /\ occursIn (category it) (el_textContent sec).

(** ** Further notions for the site runner *)

(** From every state, [m] adds to the log of calls a list of events that
    satisfies [Phi]. *)
Definition emits {W A : Type} (m : M W A) (Phi : list event -> Prop) : Prop :=
  forall st, exists evs, trace (snd (m st)) = trace st ++ evs /\ Phi evs.

Definition only (E : event -> bool) (evs : list event) : Prop := forallb E evs = true.

Definition countOf (c : event -> bool) (evs : list event) : nat := length (filter c evs).

Definition atMost (c : event -> bool) (n : nat) (evs : list event) : Prop :=
  countOf c evs <= n.

Definition isNavigation (e : event) : bool :=
  match isGoto e with
  | Some _ => true
  | None => false
  end.

Definition isFullPageScreenshot (e : event) : bool :=
  match projT2 e with
  | OnPage _ (Screenshot _ true) => true
  | _ => false
  end.

Definition isClick (e : event) : bool :=
  match projT2 e with
  | OnPage _ (Click _) => true
  | OnPage _ (ClickNth _ _) => true
  | _ => false
  end.

(** A call that is no navigation, or a navigation to one of [urls]. *)
Definition navigatesTo (urls : list jsstring) (e : event) : bool :=
  match isGoto e with
  | Some url => existsb (jseqb url) urls
  | None => true
  end.

(** The outcome of [m] satisfies [Q], from every state. *)
Definition post {W A : Type} (m : M W A) (Q : outcome A -> Prop) : Prop :=
  forall st, Q (fst (m st)).

(** A value that satisfies [Q], or an exception. *)
Definition okAnd {A : Type} (Q : A -> Prop) (r : outcome A) : Prop :=
  match r with
  | Ok a => Q a
  | Throw _ => True
  end.

(** The record of a site run that reached its end. *)
Definition successData (site : Site) (data : SiteData) : Prop :=
  sd_success data = true /\
  sd_restaurant data = site_name site /\
  sd_url data = Some (site_url site) /\
  sd_error data = None /\
  sd_scrapedAt data <> None /\
  sd_screenshotPath data <> None /\
  exists items,
    sd_menuData data = Some items /\ sd_itemCount data = Some (length items).

(** An entry of the batch's report: a success with its items and their
    count, or a failure with a message and nothing else. *)
Definition wellShaped (site : Site) (r : SiteResult) : Prop :=
  r_name r = site_name site /\
  r_url r = site_url site /\
  if r_success r then
    r_error r = None /\ r_scrapedAt r <> None /\ r_screenshotPath r <> None /\
    exists items,
      r_items r = Some items /\
      r_itemCount r = Some (length items) /\ r_totalCount r = Some (length items)
  else
    r_error r <> None /\ r_items r = None /\ r_itemCount r = None /\
    r_totalCount r = None /\ r_scrapedAt r = None /\ r_screenshotPath r = None.

(** Page calls that neither navigate, take a screenshot, click nor close
    the page. *)
Definition isQuietOp {R : Type} (o : pageOp R) : bool :=
  match o with
  | Goto _ _ => false
  | Screenshot _ _ => false
  | Click _ => false
  | ClickNth _ _ => false
  | ClosePage => false
  | _ => true
  end.

(** The calls of one site visit: navigations go to the site's address
    only, and there are at most two of them, at most three viewport
    screenshots and at most one full-page screenshot. *)
Definition siteCalls (site : Site) (evs : list event) : Prop :=
  only (navigatesTo [site_url site]) evs /\
  atMost isNavigation 2 evs /\
  atMost isStepScreenshot 3 evs /\
  atMost isFullPageScreenshot 1 evs.

(** The calls of a batch over [sites]. *)
Definition batchCalls (sites : list Site) (evs : list event) : Prop :=
  only (navigatesTo (map site_url sites)) evs /\
  atMost isNavigation (2 * length sites) evs /\
  atMost isStepScreenshot (3 * length sites) evs /\
  atMost isFullPageScreenshot (length sites) evs.

(** No call at all. *)
Definition silent (evs : list event) : Prop := evs = [].

(** The calls [close] makes: the page is closed first, and the browser
    only if that did not throw. *)
Definition closeCalls (s : Scraper) (pageClosed : bool) : list event :=
  match page s with
  | Some p => [ev (OnPage p ClosePage)]
  | None => []
  end
  ++ (if pageClosed then
        match browser s with
        | Some b => [ev (CloseBrowser b)]
        | None => []
        end
      else []).

(** The calls of an [initialize] that succeeds. *)
Definition launchCalls (dir : jsstring) (b : browserId) (p : pageId) : list event :=
  [ev (EnsureDir dir); ev Launch; ev (NewPage b); ev (OnPage p AddInitScript)].

(** The best viewport, when there is one, is a visible section seen in
    one of the three rounds. *)
Definition bestOK (b : option BestViewport) : Prop :=
  match b with
  | Some bv =>
      visible (bv_info bv) = true /\
      1 <= stepNumber (bv_info bv) <= 3 /\
      visibleItems (bv_info bv) <= totalItems (bv_info bv)
  | None => True
  end.

(** The step tag of an item, when it is a number, is the number of a
    round. *)
Definition stepTagOK (it : MenuItem) : Prop :=
  match viewport it with
  | Some (VStep n) => 1 <= n <= 3
  | _ => True
  end.

(** The scraper's best viewport is well formed. *)
Definition keepsBest {W : Type} (st : State W) : Prop :=
  bestOK (bestDailyMenuViewport (self st)).

(** The page calls of a visit that are made outside every [try] block of
    [scrapeRestaurant]. *)
Definition mustSucceed {R : Type} (o : pageOp R) : bool :=
  match o with
  | Goto _ _ => true
  | WaitForTimeout _ => true
  | WaitForSelector _ _ => true
  | Evaluate => true
  | ScrollTo _ => true
  | Screenshot _ _ => true
  | _ => false
  end.

(** A browser like [Demo.quietHandle] in which every consent button, the lazy
    loading scroll, the console read and the custom scripts throw. *)
Definition flakyError : JsError := {| message := js "Target closed" |}.

Definition flakyHandle (R : Type) (o : op R) (w : Demo.browserState)
  : outcome R * Demo.browserState :=
  match o in op R return outcome R * Demo.browserState with
  | RunScript _ => (Throw flakyError, w)
  | OnPage _ o' =>
      if mustSucceed o' then Demo.quietOnPageOp o' w else (Throw flakyError, w)
  | o' => Demo.handle _ o' w
  end.

(** The calls of [handleCloudflareProtection] when it reports a challenge. *)
Definition challengeCalls (p : pageId) : list event :=
  [ev (OnPage p Evaluate); ev (OnPage p (WaitForTimeout 5000)); ev (OnPage p Evaluate)].

(** The text of a challenge page that is still up. *)
Definition stillProtected (d : Dom) : bool :=
  includes (toLowerCase (dom_bodyText d)) (js "verifying you are human")
  || includes (toLowerCase (dom_bodyText d)) (js "checking your browser").

(** A browser like [Demo.handle] on whose pages no selector ever
    appears. *)
Definition selectorError : JsError :=
  {| message := js "page.waitForSelector: Timeout 10000ms exceeded." |}.

Definition noSelectorOnPageOp {R : Type} (o : pageOp R) (w : Demo.browserState)
  : outcome R * Demo.browserState :=
  match o in pageOp R return outcome R * Demo.browserState with
  | WaitForSelector _ _ => (Throw selectorError, w)
  | o' => Demo.onPageOp o' w
  end.

Definition noSelectorHandle (R : Type) (o : op R) (w : Demo.browserState)
  : outcome R * Demo.browserState :=
  match o in op R return outcome R * Demo.browserState with
  | OnPage _ o' => noSelectorOnPageOp o' w
  | o' => Demo.handle _ o' w
  end.

(** [c === ":" ? "-" : c] *)
Definition colonToDash (c : N) : N := if (cu ":" =? c)%N then cu "-" else c.

(** ** The Discord messages ([src/formatter.js]) *)

Record Field : Type := {
  f_name : jsstring;
  f_value : jsstring;
  f_inline : bool
}.

(** An embed; [url], [fields] and [footer] (its [text]) are absent
    ([None]) where the object literal has none. *)
Record Embed : Type := {
  e_title : jsstring;
  e_description : jsstring;
  e_url : option jsstring;
  e_color : Z;
  e_timestamp : jsstring;
  e_fields : option (list Field);
  e_footer : option jsstring
}.

Record Message : Type := { embeds : list Embed }.

Definition newline : jsstring := [10%N].

(** [item.price && item.price !== "N/A" && item.price.trim() !== ""] *)
Definition priceShown (price : jsstring) : bool :=
  match price with [] => false | _ :: _ => true end
  && negb (jseqb price (js "N/A"))
  && match trim price with [] => false | _ :: _ => true end.

(** [formatMenuItem] (lines 119-129). *)
Definition formatMenuItem (item : MenuItem) : jsstring :=
  let formatted := js "**" ++ name item ++ js "**" ++ newline in
  if priceShown (price item) then formatted ++ price item ++ newline ++ newline
  else formatted ++ newline.

(** [groupItemsByCategory] (lines 131-165) with [categories] left at its
    default [[]]: [formatSiteMenu] passes [menuData.categories], a property
    that no record of the scraper has.  Every item is then pushed to
    [uncategorized], and the key is deleted when its list is empty.  The
    result is given as [Object.entries] lists it. *)
Definition groupItemsByCategory (items : list MenuItem)
  : list (jsstring * list MenuItem) :=
  match items with
  | [] => []
  | _ :: _ => [(js "uncategorized", items)]
  end.

(** The state of the loop of [formatSiteMenu] (lines 86-109): the fields
    of the embed, [currentFieldLength], and how often the embed has been
    pushed to [messages]. *)
Record Building : Type := {
  b_fields : list Field;
  b_length : nat;
  b_pushed : nat
}.

(** One round of the loop; [this.maxMessageLength - 500] is 1500. *)
Definition addField (b : Building) (entry : jsstring * list MenuItem) : Building :=
  let categoryTitle :=
    if jseqb (fst entry) (js "uncategorized") then [8203%N] else fst entry in
  let itemsText := concat (map formatMenuItem (snd entry)) in
  let fieldData := {| f_name := categoryTitle;
                      f_value := orElse itemsText (js "No items available");
                      f_inline := false |} in
  let b1 := if 1500 <? b_length b + length (f_value fieldData)
            then {| b_fields := []; b_length := 0; b_pushed := S (b_pushed b) |}
            else b in
  {| b_fields := b_fields b1 ++ [fieldData];
     b_length := b_length b1 + length (f_value fieldData);
     b_pushed := b_pushed b1 |}.

(** Every message pushed by the loop holds the one [embed] object, which
    the loop goes on changing: whoever reads [messages] after the loop
    sees the embed's final state in each of them. *)
Definition readMessages (embed : Embed) (pushed : nat) : list Message :=
  repeat {| embeds := [embed] |} pushed.

(** [menuData.items.length] when [items] is [undefined]. *)
Definition undefinedError : JsError :=
  {| message := js "Cannot read properties of undefined" |}.

(** [a.join(sep)] *)
Fixpoint join (sep : jsstring) (l : list jsstring) : jsstring :=
  match l with
  | [] => []
  | [x] => x
  | x :: l' => x ++ sep ++ join sep l'
  end.

Section Formatter.

(** The clock as in the scraper, the local time of day
    ([toLocaleTimeString]), and the two look-ups in the formatting
    configuration, which are kept abstract. *)
Variable W : Type.
Variable clock : W -> jsstring * W.
Variable localClock : W -> jsstring * W.
Variable getRestaurantEmoji : jsstring -> jsstring.
Variable getRestaurantColor : jsstring -> Z.

Local Notation "x <- m ;; k" := (bind m (fun x => k))
  (at level 61, m at next level, right associativity).

Definition nowLocal : M W jsstring :=
  fun st =>
    let (t, w') := localClock (world st) in
    (Ok t, {| self := self st; world := w'; trace := trace st |}).

(** [formatSiteMenu] (lines 43-117). *)
Definition formatSiteMenu (siteResult : SiteResult) : M W (list Message) :=
  match r_items siteResult with
  | None => throw undefinedError
  | Some [] =>
      iso <- now W clock ;;
      ret [ {| embeds :=
                 [ {| e_title := js "🟠 " ++ r_name siteResult ++ js " - daily menu";
                      e_description := js "No daily menu available today";
                      e_url := Some (r_url siteResult);
                      e_color := 16749824;
                      e_timestamp := iso;
                      e_fields := None;
                      e_footer := None |} ] |} ]
  | Some items =>
      let restaurantEmoji := getRestaurantEmoji (r_name siteResult) in
      iso <- now W clock ;;
      localTime <- nowLocal ;;
      let built := fold_left addField (groupItemsByCategory items)
                             {| b_fields := []; b_length := 0; b_pushed := 0 |} in
      let pushed := match b_fields built with
                    | [] => b_pushed built
                    | _ :: _ => S (b_pushed built)
                    end in
      ret (readMessages
             {| e_title := restaurantEmoji ++ js " " ++ r_name siteResult
                                           ++ js " - daily menu";
                e_description := showNat (length items) ++ js " items available";
                e_url := Some (r_url siteResult);
                e_color := getRestaurantColor (r_name siteResult);
                e_timestamp := iso;
                e_fields := Some (b_fields built);
                e_footer := Some (js "Updated at " ++ localTime) |}
             pushed)
  end.

(** [formatErrorSummary] (lines 167-182). *)
Definition formatErrorSummary (failedSites : list SiteResult) : M W Message :=
  let errorList :=
    join newline
         (map (fun site => js "• **" ++ r_name site ++ js "**: "
                              ++ match r_error site with
                                 | Some e => e
                                 | None => js "undefined"
                                 end) failedSites) in
  iso <- now W clock ;;
  ret {| embeds := [ {| e_title := js "🔴 Scraping Errors";
                        e_description := errorList;
                        e_url := None;
                        e_color := 16711680;
                        e_timestamp := iso;
                        e_fields := None;
                        e_footer := None |} ] |}.

(** The loop over the successful sites (lines 16-19). *)
Fixpoint formatSites (sites : list SiteResult) (messages : list Message)
  : M W (list Message) :=
  match sites with
  | [] => ret messages
  | siteResult :: sites' =>
      siteMessages <- formatSiteMenu siteResult ;;
      formatSites sites' (messages ++ siteMessages)
  end.

(** [formatForDiscord] (lines 10-41). *)
Definition formatForDiscord (scrapingResults : list SiteResult) : M W (list Message) :=
  let successfulSites := filter r_success scrapingResults in
  let failedSites := filter (fun result => negb (r_success result)) scrapingResults in
  messages <- formatSites successfulSites [] ;;
  messages <-
    match failedSites with
    | [] => ret messages
    | _ :: _ =>
        errorMessage <- formatErrorSummary failedSites ;;
        ret (messages ++ [errorMessage])
    end ;;
  match successfulSites, failedSites with
  | [], _ :: _ =>
      iso <- now W clock ;;
      ret (messages
             ++ [ {| embeds :=
                       [ {| e_title := js "❌ No Menus Available";
                            e_description :=
                              js "All sites failed to load. Please check the logs for more details.";
                            e_url := None;
                            e_color := 16711680;
                            e_timestamp := iso;
                            e_fields := None;
                            e_footer := None |} ] |} ])
  | _, _ => ret messages
  end.

End Formatter.

(** A report entry the formatter can read: a success has its item list. *)
Definition readable (r : SiteResult) : Prop :=
  r_success r = true -> exists items, r_items r = Some items.

(** The text of a menu's only field: all items, one after the other. *)
Definition menuText (items : list MenuItem) : jsstring :=
  concat (map formatMenuItem items).

(** ** The Discord notifier ([src/discord.js]) *)

(** The class [\w] (no [i] or [u] flag), and [[\w-]]. *)
Definition is_word (c : N) : bool :=
  ((65 <=? c) && (c <=? 90) || (97 <=? c) && (c <=? 122)
   || (48 <=? c) && (c <=? 57) || (c =? 95))%N.

Definition is_tokenChar (c : N) : bool := is_word c || (c =? 45)%N.

Definition webhookPrefix : jsstring := js "https://discord.com/api/webhooks/".

(** [/^https:\/\/discord\.com\/api\/webhooks\/\d+\/[\w-]+$/] *)
Definition webhookPattern : regex :=
  seqs [ Bol; seq_of lit webhookPrefix; Plus digit; lit (cu "/");
         Plus (Chr is_tokenChar); Eol ].

(** [validateWebhookUrl] (lines 122-134); [this.webhookUrl] is the value
    of an environment variable, [None] when it is not set. *)
Definition validateWebhookUrl (webhookUrl : option jsstring) : outcome bool :=
  match webhookUrl with
  | Some (c :: url) =>
      if test webhookPattern (c :: url) then Ok true
      else Throw {| message := js "Invalid Discord webhook URL format" |}
  | _ => Throw {| message := js "Discord webhook URL is not configured" |}
  end.

(** The shape the pattern describes: the prefix, a numeric id, a slash
    and a token. *)
Definition webhookShape (url : jsstring) : Prop :=
  exists id token,
    url = webhookPrefix ++ id ++ js "/" ++ token /\
    id <> [] /\ forallb is_digit id = true /\
    token <> [] /\ forallb is_tokenChar token = true.

(** How [axios.post] ends: the promise resolves with a response (its
    status), or rejects with an error that has a response (its status, its
    [retry-after] header and the [message] of its data), only a request,
    or neither. *)
Inductive AxiosResult : Type :=
| Resolved (status : Z)
| RejectedWithResponse (status : Z) (retryAfter : option Z)
                       (dataMessage : option jsstring)
| RejectedWithRequest
| RejectedInSetup (errorMessage : jsstring).

(** An error as [sendMenuUpdates] looks at it: its message, and the
    status and [retry-after] header of its [response], if it has one. *)
Record SendError : Type := {
  se_message : jsstring;
  se_response : option (Z * option Z)
}.

(** [new Error(message)]: an error without [response]. *)
Definition newError (text : jsstring) : SendError :=
  {| se_message := text; se_response := None |}.

Definition showZ (z : Z) : jsstring :=
  if (z <? 0)%Z then js "-" ++ showNat (Z.to_nat (- z)) else showNat (Z.to_nat z).

(** [sendMessage] (lines 48-71) on the outcome of its post: it returns
    true on status 204 and otherwise throws a new error.  The error thrown
    in the [try] block for another status is caught by the block's own
    handler, where it has neither [response] nor [request]. *)
Definition sendMessage (r : AxiosResult) : SendError + bool :=
  match r with
  | Resolved status =>
      if (status =? 204)%Z then inr true
      else inl (newError (js "Request setup error: "
                             ++ js "Unexpected response status: " ++ showZ status))
  | RejectedWithResponse status _ dataMessage =>
      inl (newError (js "Discord API error: " ++ showZ status ++ js " - "
                        ++ match dataMessage with
                           | Some m => orElse m (js "Unknown error")
                           | None => js "Unknown error"
                           end))
  | RejectedWithRequest => inl (newError (js "Failed to connect to Discord webhook"))
  | RejectedInSetup errorMessage =>
      inl (newError (js "Request setup error: " ++ errorMessage))
  end.

(** What the notifier does, in order. *)
Inductive NetAction : Type :=
| Posted (m : Message)
| Delayed (ms : Z)
| CleanedUp (screenshotPath : jsstring).

(** The loop of [sendMenuUpdates] (lines 22-41) from index [i], where
    [answer n] is how the [n]-th post of the run ends and [posts] counts
    the posts made.  A round that retries leaves [i] as it is, so the loop
    is given a number of rounds; [None] when they are used up. *)
Fixpoint sendLoop (answer : nat -> AxiosResult) (fuel : nat) (messages : list Message)
         (i posts : nat) (allMessagesSent : bool) (done : list NetAction)
  : option (bool * list NetAction) :=
  match fuel with
  | O => None
  | S fuel' =>
      match nth_error messages i with
      | None => Some (allMessagesSent, done)
      | Some message =>
          match sendMessage (answer posts) with
          | inr _ =>
              sendLoop answer fuel' messages (S i) (S posts) allMessagesSent
                       (done ++ [Posted message]
                             ++ (if S i <? length messages then [Delayed 1000] else []))
          | inl error =>
              let rateLimited :=
                match se_response error with
                | Some (status, _) => (status =? 429)%Z
                | None => false
                end in
              if rateLimited then
                let retryAfter :=
                  match se_response error with
                  | Some (_, Some s) => if (s =? 0)%Z then 5%Z else s
                  | _ => 5%Z
                  end in
                sendLoop answer fuel' messages i (S posts) false
                         (done ++ [Posted message; Delayed (retryAfter * 1000)])
              else
                sendLoop answer fuel' messages (S i) (S posts) false
                         (done ++ [Posted message])
          end
      end
  end.

(** [sendMenuUpdates] (lines 13-46). *)
Definition sendMenuUpdates (answer : nat -> AxiosResult) (fuel : nat)
           (messages : list Message) (screenshotPath : jsstring)
  : option (list NetAction) :=
  match messages with
  | [] => Some []
  | _ :: _ =>
      match sendLoop answer fuel messages 0 0 true [] with
      | None => None
      | Some (allMessagesSent, done) =>
          Some (if allMessagesSent then done ++ [CleanedUp screenshotPath] else done)
      end
  end.

(** The messages posted, in order. *)
Definition postsOf (acts : list NetAction) : list Message :=
  filter_some (map (fun a => match a with Posted m => Some m | _ => None end) acts).

Definition isCleanUp (a : NetAction) : bool :=
  match a with
  | CleanedUp _ => true
  | _ => false
  end.

(** The post was answered with status 204. *)
Definition delivered (r : AxiosResult) : bool :=
  match r with
  | Resolved status => (status =? 204)%Z
  | _ => false
  end.

(** What the loop amounts to from message [i] on: one post per message,
    a pause after each one that is delivered and is not the last. *)
Fixpoint plainSend (answer : nat -> AxiosResult) (i : nat) (rest : list Message)
  : list NetAction :=
  match rest with
  | [] => []
  | message :: rest' =>
      Posted message
      :: (if delivered (answer i)
          then match rest' with [] => [] | _ :: _ => [Delayed 1000] end
          else [])
      ++ plainSend answer (S i) rest'
  end.

(** ** Logs with outcomes

    [runs m Psi]: from any state, the outcome of [m] and the calls it adds
    to the log satisfy [Psi]. *)
Definition runs {W A : Type} (m : M W A) (Psi : outcome A -> list event -> Prop)
  : Prop :=
  forall st, exists evs, trace (snd (m st)) = trace st ++ evs /\ Psi (fst (m st)) evs.

Definition isOk {A : Type} (r : outcome A) : bool :=
  match r with
  | Ok _ => true
  | Throw _ => false
  end.

Definition isScroll (e : event) : bool := negb (notScroll e).

Definition noStepScreenshot (e : event) : bool := negb (isStepScreenshot e).

(** A call that is no part of a sampling round: it neither scrolls to an
    offset nor takes a viewport screenshot. *)
Definition besideSampling (e : event) : bool := notScroll e && noStepScreenshot e.

(** What a log shows of the rounds over [steps]: at most one viewport
    screenshot per round, and when the loop completes exactly one, with
    the scrolls of the rounds in order. *)
Definition rounds {A : Type} (steps : list nat) (viewportHeight : Z)
           (r : outcome A) (evs : list event) : Prop :=
  countOf isStepScreenshot evs <= length steps /\
  (isOk r = true ->
   countOf isStepScreenshot evs = length steps /\
   scrollsOf evs = map (scrollYOf viewportHeight) steps).

(** What a log shows of a visit that samples [n] viewports: never more
    than [n] viewport screenshots, and when the visit completes exactly
    [n], the scrolls being [offsets] followed by at most one more (the
    anchor of the fallback pass). *)
Definition sampled {A : Type} (n : nat) (offsets : list Z)
           (r : outcome A) (evs : list event) : Prop :=
  countOf isStepScreenshot evs <= n /\
  (isOk r = true ->
   countOf isStepScreenshot evs = n /\
   exists later, scrollsOf evs = offsets ++ later /\ length later <= 1).

(** ** The labels the parser strips from a name

    Two texts are the same when case is ignored: code unit by code unit,
    as a pattern under the [i] flag compares them. *)
Fixpoint sameIgnoringCase (a b : jsstring) : bool :=
  match a, b with
  | [], [] => true
  | x :: a', y :: b' =>
      (Case.canonicalize x =? Case.canonicalize y)%N && sameIgnoringCase a' b'
  | _, _ => false
  end.

(** [word], one digit and a colon: "Polievka 7:" and the like. *)
Definition numberedLabel (word : string) (label : jsstring) : bool :=
  existsb (fun d => sameIgnoringCase label (js word ++ [d] ++ js ":"))
          (js "0123456789").

Definition boilerplateLabel (label : jsstring) : bool :=
  sameIgnoringCase label (js "Samostatná polievka:")
  || numberedLabel "Polievka " label
  || numberedLabel "Menu " label.

(** What is cut from the end of the name (lines 499-503 and 698-702). *)
Definition cleanTail (name : jsstring) : jsstring :=
  let name := replace re_od [] name in
  let name := replace re_sep_od [] name in
  let name := replace re_dot_od [] name in
  let name := replace re_sep [] name in
  trim name.

(** [cleanText.substring(0, firstPriceIndex).trim()] (lines 484-492 and
    682-692): the text of a list entry before its first price. *)
Definition rawNameOf (item : ListItem) : jsstring :=
  let cleanText := cleanTextOf (trim (li_textContent item)) in
  match exec re_priceMatch cleanText with
  | Some priceMatch =>
      trim (substringZ cleanText 0 (indexOfZ cleanText (m_text priceMatch)))
  | None => []
  end.

(** A list entry whose label is written in capitals, with another digit. *)
Definition shoutedItem : ListItem :=
  Demo.li "MENU 7: Bryndzové halušky 6,90 € so slaninou".

(** * Properties *)

(** ** The matcher is sound *)

Section MatcherSoundness.

Lemma matches_consumes r st w st' :
  matches r st w st' ->
  rest st = w ++ rest st' /\ pos st' = pos st + length w.
Proof.
  induction 1; simpl in *;
    repeat match goal with
           | H : _ /\ _ |- _ => destruct H
           end;
    try rewrite length_app;
    try rewrite <- app_assoc;
    split; try congruence; try lia.
Qed.

Lemma matches_captured r st w st' :
  matches r st w st' -> firstn (pos st' - pos st) (rest st) = w.
Proof.
  intros H. destruct (matches_consumes _ _ _ _ H) as [Hr Hp].
  rewrite Hr, Hp.
  replace (pos st + length w - pos st) with (length w + 0) by lia.
  rewrite firstn_app_2. simpl. apply app_nil_r.
Qed.

Lemma matches_progress r st w st' :
  matches r st w st' -> (pos st' =? pos st) = false -> w <> [].
Proof.
  intros H Hne ->. apply matches_consumes in H. simpl in H.
  destruct H as [_ H]. rewrite H, Nat.add_0_r, Nat.eqb_refl in Hne. discriminate.
Qed.

Lemma star_loop_sound a :
  sound_at a ->
  forall fuel k st res,
    star_loop (rmatch a) k fuel st = Some res ->
    exists w st', matches (Star a) st w st' /\ k st' = Some res.
Proof.
  intros IHa. induction fuel as [|f IHf]; intros k st res H; simpl in H.
  - exists [], st. split; [ constructor | assumption ].
  - destruct (rmatch a _ st) as [r|] eqn:E.
    + inversion H; subst r; clear H.
      apply IHa in E. destruct E as (w1 & st1 & Hm & Hk).
      destruct (pos st1 =? pos st) eqn:Hp; [ discriminate | ].
      apply IHf in Hk. destruct Hk as (w2 & st2 & Hm2 & Hk2).
      exists (w1 ++ w2), st2. split; [ | assumption ].
      eapply M_star_cons; eauto using matches_progress.
    + exists [], st. split; [ constructor | assumption ].
Qed.

Theorem rmatch_sound r : sound_at r.
Proof.
  induction r; intros k st res H;
    try (apply (star_loop_sound r IHr (S (length (rest st))) k st res H));
    simpl in H.
  - exists [], st. split; [ constructor | assumption ].
  - destruct (rest st) as [|c tl] eqn:Hr; [ discriminate | ].
    destruct (p c) eqn:Hp; [ | discriminate ].
    exists [c], (advance st tl). split; [ constructor; assumption | assumption ].
  - apply IHr1 in H. destruct H as (w1 & st1 & Hm1 & H).
    apply IHr2 in H. destruct H as (w2 & st2 & Hm2 & H).
    exists (w1 ++ w2), st2. split; [ econstructor; eauto | assumption ].
  - destruct (rmatch r1 k st) as [x|] eqn:E.
    + inversion H; subst x. apply IHr1 in E. destruct E as (w & st' & Hm & Hk).
      exists w, st'. split; [ apply M_alt_l; assumption | assumption ].
    + apply IHr2 in H. destruct H as (w & st' & Hm & Hk).
      exists w, st'. split; [ apply M_alt_r; assumption | assumption ].
  - destruct (rmatch r _ st) as [x|] eqn:E.
    + inversion H; subst x. apply IHr in E. destruct E as (w & st' & Hm & Hk).
      destruct (pos st' =? pos st) eqn:Hp; [ discriminate | ].
      exists w, st'. split; [ | assumption ].
      apply M_opt_some; eauto using matches_progress.
    + exists [], st. split; [ constructor | assumption ].
  - apply IHr in H. destruct H as (w & st' & Hm & Hk).
    rewrite (matches_captured _ _ _ _ Hm) in Hk.
    exists w, (set_cap n w st'). split; [ constructor; assumption | assumption ].
  - destruct (pos st =? 0) eqn:Hp; [ | discriminate ].
    apply Nat.eqb_eq in Hp.
    exists [], st. split; [ constructor; assumption | assumption ].
  - destruct (rest st) eqn:Hr; [ | discriminate ].
    exists [], st. split; [ constructor; assumption | assumption ].
Qed.

(** A match found by [exec] is a match of the pattern somewhere in the
    text, with the captures of that match. *)
Lemma search_sound re : forall suffix i m,
  search re i suffix = Some m ->
  exists sfx w st',
    matches re (MState (m_index m) sfx []) w st' /\
    m_text m = w /\ m_caps m = caps st' /\ m_end m = pos st'.
Proof.
  induction suffix as [|c tl IH]; intros i m H; simpl in H.
  - destruct (rmatch re Some (MState i [] [])) as [st|] eqn:E; [ | discriminate ].
    inversion H; subst m; clear H. simpl.
    apply rmatch_sound in E. destruct E as (w & st' & Hm & Hk).
    inversion Hk; subst st'.
    exists [], w, st. repeat split; try assumption.
    apply (matches_captured _ _ _ _ Hm).
  - destruct (rmatch re Some (MState i (c :: tl) [])) as [st|] eqn:E.
    + inversion H; subst m; clear H. simpl.
      apply rmatch_sound in E. destruct E as (w & st' & Hm & Hk).
      inversion Hk; subst st'.
      exists (c :: tl), w, st. repeat split; try assumption.
      apply (matches_captured _ _ _ _ Hm).
    + eapply IH; eauto.
Qed.

(** Where a match found from index [i] lies. *)
Lemma search_bounds re : forall suffix i m,
  search re i suffix = Some m ->
  i <= m_index m /\ m_index m <= m_end m /\ m_end m <= i + length suffix.
Proof.
  induction suffix as [|c tl IH]; intros i m H; simpl in H.
  - destruct (rmatch re Some (MState i [] [])) as [st|] eqn:E; [ | discriminate ].
    inversion H; subst m; clear H. simpl.
    apply rmatch_sound in E. destruct E as (w & st' & Hm & Hk).
    inversion Hk; subst st'. apply matches_consumes in Hm. simpl in Hm.
    destruct Hm as [Hr Hp]. apply (f_equal (@length N)) in Hr.
    rewrite length_app in Hr. simpl in Hr. lia.
  - destruct (rmatch re Some (MState i (c :: tl) [])) as [st|] eqn:E.
    + inversion H; subst m; clear H. simpl.
      apply rmatch_sound in E. destruct E as (w & st' & Hm & Hk).
      inversion Hk; subst st'. apply matches_consumes in Hm. simpl in Hm.
      destruct Hm as [Hr Hp]. apply (f_equal (@length N)) in Hr.
      rewrite length_app in Hr. simpl in Hr. lia.
    + apply IH in H. simpl. lia.
Qed.

End MatcherSoundness.

(** ** The quantifier loop never runs out of rounds *)

Section MatcherFuel.

Lemma ahead_refl st : ahead st st.
Proof. split; auto. Qed.

Lemma ahead_trans st1 st2 st3 : ahead st1 st2 -> ahead st2 st3 -> ahead st1 st3.
Proof. unfold ahead. intros [? ?] [? ?]. split; lia. Qed.

Lemma ahead_advance st c tl : rest st = c :: tl -> ahead st (advance st tl).
Proof. unfold ahead, advance. intros ->. simpl. split; lia. Qed.

Lemma ahead_set_cap st st' n w : ahead st st' -> ahead st (set_cap n w st').
Proof. unfold ahead, set_cap. simpl. auto. Qed.

Lemma star_loop_ext a :
  ext_at a ->
  forall fuel k k' st,
    (forall st', ahead st st' -> k st' = k' st') ->
    star_loop (rmatch a) k fuel st = star_loop (rmatch a) k' fuel st.
Proof.
  intros IHa. induction fuel as [|f IHf]; intros k k' st Hk; simpl.
  - apply Hk, ahead_refl.
  - rewrite (IHa _ (fun st' => if pos st' =? pos st then None
                               else star_loop (rmatch a) k' f st') st).
    + rewrite (Hk st (ahead_refl st)). reflexivity.
    + intros st' Hst'. destruct (pos st' =? pos st); [ reflexivity | ].
      apply IHf. intros st'' Hst''. apply Hk. eapply ahead_trans; eauto.
Qed.

Lemma rmatch_ext r : ext_at r.
Proof.
  induction r; intros k k' st Hk;
    try (apply (star_loop_ext r IHr (S (length (rest st))) k k' st Hk));
    simpl.
  - apply Hk, ahead_refl.
  - destruct (rest st) as [|c tl] eqn:Hr; [ reflexivity | ].
    destruct (p c); [ | reflexivity ]. apply Hk, (ahead_advance st c tl Hr).
  - apply IHr1. intros st1 H1. apply IHr2. intros st2 H2.
    apply Hk. eapply ahead_trans; eauto.
  - rewrite (IHr1 k k' st Hk), (IHr2 k k' st Hk). reflexivity.
  - rewrite (IHr _ (fun st' => if pos st' =? pos st then None else k' st') st).
    + rewrite (Hk st (ahead_refl st)). reflexivity.
    + intros st' Hst'. destruct (pos st' =? pos st); [ reflexivity | auto ].
  - apply IHr. intros st' Hst'. apply Hk, ahead_set_cap. assumption.
  - destruct (pos st =? 0); [ apply Hk, ahead_refl | reflexivity ].
  - destruct (rest st); [ apply Hk, ahead_refl | reflexivity ].
Qed.

(** Any number of rounds above the length of the remaining input gives
    the same result: the bound of [rmatch] at [Star] cuts nothing off. *)
Theorem star_loop_fuel a : forall f1 f2 k st,
  length (rest st) < f1 -> length (rest st) < f2 ->
  star_loop (rmatch a) k f1 st = star_loop (rmatch a) k f2 st.
Proof.
  induction f1 as [|f1 IH]; intros f2 k st H1 H2; [ lia | ].
  destruct f2 as [|f2]; [ lia | ]. simpl.
  rewrite (rmatch_ext a _ (fun st' => if pos st' =? pos st then None
                                      else star_loop (rmatch a) k f2 st') st).
  - reflexivity.
  - intros st' [Hle Hsum]. destruct (pos st' =? pos st) eqn:Hp; [ reflexivity | ].
    apply Nat.eqb_neq in Hp. apply IH; lia.
Qed.

(** The same for the loop of a global [replace]. *)
Theorem replace_from_fuel re repl : forall f1 f2 i suffix,
  length suffix < f1 -> length suffix < f2 ->
  replace_from f1 re repl i suffix = replace_from f2 re repl i suffix.
Proof.
  induction f1 as [|f1 IH]; intros f2 i suffix H1 H2; [ lia | ].
  destruct f2 as [|f2]; [ lia | ]. simpl.
  destruct (search re i suffix) as [m|] eqn:E; [ | reflexivity ].
  apply search_bounds in E. destruct E as (Hi & He & Hb).
  destruct (m_end m =? m_index m) eqn:Hempty.
  - destruct (skipn (m_index m - i) suffix) as [|c tl] eqn:Hs; [ reflexivity | ].
    assert (Hlen : length tl < length suffix).
    { apply (f_equal (@length N)) in Hs. rewrite length_skipn in Hs. simpl in Hs. lia. }
    rewrite (IH f2 (S (m_index m)) tl); [ reflexivity | lia | lia ].
  - apply Nat.eqb_neq in Hempty.
    assert (Hlen : length (skipn (m_end m - i) suffix) < length suffix)
      by (rewrite length_skipn; lia).
    rewrite (IH f2 (m_end m) (skipn (m_end m - i) suffix));
      [ reflexivity | lia | lia ].
Qed.

End MatcherFuel.

(** ** Item parser: prices *)

Section PriceShape.

Lemma matches_chr_inv p st w st' :
  matches (Chr p) st w st' ->
  exists c, w = [c] /\ p c = true /\ caps st' = caps st.
Proof.
  inversion 1; subst. exists c. auto.
Qed.

Lemma matches_star_chr p st w st' :
  matches (Star (Chr p)) st w st' ->
  forallb p w = true /\ caps st' = caps st.
Proof.
  remember (Star (Chr p)) as r eqn:Hr.
  induction 1; inversion Hr; subst; clear Hr.
  - auto.
  - destruct (matches_chr_inv _ _ _ _ H) as (c & -> & Hc & Hcaps).
    destruct (IHmatches2 eq_refl) as [Hall Hcaps2].
    simpl. rewrite Hc, Hall. split; [ reflexivity | congruence ].
Qed.

Lemma matches_plus_chr p st w st' :
  matches (Plus (Chr p)) st w st' ->
  w <> [] /\ forallb p w = true /\ caps st' = caps st.
Proof.
  unfold Plus. inversion 1; subst.
  match goal with
  | H1 : matches (Chr p) _ _ _, H2 : matches (Star _) _ _ _ |- _ =>
      destruct (matches_chr_inv _ _ _ _ H1) as (c & -> & Hc & Hcaps);
      destruct (matches_star_chr _ _ _ _ H2) as [Hall Hcaps2]
  end.
  simpl. rewrite Hc, Hall. repeat split; [ discriminate | congruence ].
Qed.

Lemma matches_amount st w st' :
  matches (seqs [Plus digit; lit (cu ","); Plus digit]) st w st' ->
  amountText w /\ caps st' = caps st.
Proof.
  unfold seqs; simpl. intros H.
  inversion H as [ | | a b s1 w1 s2 w2 s3 H1 H2 | | | | | | | | | ]; subst; clear H.
  inversion H2 as [ | | a b s1' w1' s2' w2' s3' H3 H4 | | | | | | | | | ];
    subst; clear H2.
  inversion H4 as [ | | a b s1'' w1'' s2'' w2'' s3'' H5 H6 | | | | | | | | | ];
    subst; clear H4.
  inversion H6; subst; clear H6.
  destruct (matches_plus_chr _ _ _ _ H1) as (Hn1 & Hd1 & Hc1).
  destruct (matches_chr_inv _ _ _ _ H3) as (c & -> & Hc & Hc2).
  destruct (matches_plus_chr _ _ _ _ H5) as (Hn3 & Hd3 & Hc3).
  apply N.eqb_eq in Hc. subst c.
  split; [ | congruence ].
  exists w1, w1''. rewrite app_nil_r. simpl. auto.
Qed.

Lemma matches_od st w st' :
  matches (Group 1 (Seq (str "od") (Plus space))) st w st' ->
  exists c w', caps st' = (1, c :: w') :: caps st.
Proof.
  intros H.
  inversion H as [ | | | | | | | | | n a s0 w0 s0' H0 | | ]; subst; clear H.
  inversion H0 as [ | | a b s1 w1 s2 w2 s3 H1 H2 | | | | | | | | | ]; subst; clear H0.
  destruct (matches_plus_chr _ _ _ _ H2) as (Hn & _ & Hc2).
  change (str "od") with (Seq (lit (cu "o")) (lit (cu "d"))) in H1.
  inversion H1 as [ | | a b s1' w1' s2' w2' s3' H3 H4 | | | | | | | | | ];
    subst; clear H1.
  destruct (matches_chr_inv _ _ _ _ H3) as (c1 & -> & _ & Hc3).
  destruct (matches_chr_inv _ _ _ _ H4) as (c2 & -> & _ & Hc4).
  exists c1, (c2 :: w2). simpl. f_equal. congruence.
Qed.

(** The captures of a match of [pricePattern]. *)
Lemma pricePattern_captures st w st' :
  caps st = [] ->
  matches pricePattern st w st' ->
  exists amount,
    amountText amount /\
    lookup 2 (caps st') = Some amount /\
    (lookup 1 (caps st') = None \/ exists c w1, lookup 1 (caps st') = Some (c :: w1)).
Proof.
  intros Hc0 H. unfold pricePattern, seqs in H; simpl in H.
  inversion H as [ | | a b s1 w1 s2 w2 s3 H1 H2 | | | | | | | | | ]; subst; clear H.
  inversion H2 as [ | | a b s1' w1' s2' w2' s3' H3 H4 | | | | | | | | | ];
    subst; clear H2.
  inversion H4 as [ | | a b s1'' w1'' s2'' w2'' s3'' H5 H6 | | | | | | | | | ];
    subst; clear H4.
  inversion H6 as [ | | a b t1 v1 t2 v2 t3 H7 H8 | | | | | | | | | ]; subst; clear H6.
  inversion H8; subst; clear H8.
  destruct (matches_star_chr _ _ _ _ H5) as [_ Hc5].
  destruct (matches_chr_inv _ _ _ _ H7) as (c & _ & _ & Hc7).
  inversion H3 as [ | | | | | | | | | n a s0 w0 s0' H0 | | ]; subst; clear H3.
  destruct (matches_amount _ _ _ H0) as [Ham Hc3].
  assert (Hfinal : caps st' = (2, w1') :: caps s2).
  { rewrite Hc7, Hc5. simpl. congruence. }
  exists w1'. split; [ assumption | ].
  rewrite Hfinal. simpl. split; [ reflexivity | ].
  inversion H1 as [ | | | | | | | a st0 | a st0 w0 st0' Hg Hne | | | ]; subst; clear H1.
  - left. rewrite Hc0. reflexivity.
  - right. destruct (matches_od _ _ _ Hg) as (c1 & w' & Hcg).
    exists c1, w'. rewrite Hcg. reflexivity.
Qed.

(** What [priceOf] can return. *)
Lemma priceOf_shape cleanText :
  priceOf cleanText = js "N/A" \/
  exists qualifier amount,
    (qualifier = [] \/ qualifier = js "od ") /\
    amountText amount /\
    priceOf cleanText = qualifier ++ amount ++ js " €".
Proof.
  unfold priceOf. destruct (exec pricePattern cleanText) as [m|] eqn:E; [ | auto ].
  right. apply search_sound in E.
  destruct E as (sfx & w & st' & Hm & _ & Hcaps & _).
  destruct (pricePattern_captures (MState (m_index m) sfx []) w st' eq_refl Hm)
    as (amount & Ham & H2 & H1).
  unfold group. rewrite Hcaps, H2.
  destruct H1 as [H1 | (c & w1 & H1)]; rewrite H1.
  - exists [], amount. auto.
  - exists (js "od "), amount. auto.
Qed.

Lemma star_loop_S body k f st :
  star_loop body k (S f) st =
  match body (fun st' => if pos st' =? pos st then None
                         else star_loop body k f st') st with
  | Some r => Some r
  | None => k st
  end.
Proof. reflexivity. Qed.

Lemma rmatch_chr_cons p k i c tl cs :
  rmatch (Chr p) k (MState i (c :: tl) cs) =
  if p c then k (MState (S i) tl cs) else None.
Proof. reflexivity. Qed.

Lemma rmatch_chr_nil p k i cs : rmatch (Chr p) k (MState i [] cs) = None.
Proof. reflexivity. Qed.

(** A greedy loop over a character class runs to the end of the run of
    accepted code units when what follows can be matched from there. *)
Lemma star_loop_chr_greedy p k : forall ds fuel i tl cs res,
  forallb p ds = true ->
  match tl with [] => true | c :: _ => negb (p c) end = true ->
  length ds < fuel ->
  k (MState (i + length ds) tl cs) = Some res ->
  star_loop (rmatch (Chr p)) k fuel (MState i (ds ++ tl) cs) = Some res.
Proof.
  induction ds as [|d ds IH]; intros fuel i tl cs res Hall Htl Hfuel Hk;
    (destruct fuel as [|f]; [ simpl in Hfuel; lia | ]); rewrite star_loop_S.
  - simpl app. simpl length in Hk. rewrite Nat.add_0_r in Hk.
    destruct tl as [|c tl'].
    + rewrite rmatch_chr_nil. assumption.
    + rewrite rmatch_chr_cons. apply negb_true_iff in Htl. rewrite Htl. assumption.
  - simpl in Hall. apply andb_true_iff in Hall. destruct Hall as [Hd Hall].
    simpl app. rewrite rmatch_chr_cons, Hd. cbn [pos].
    replace (S i =? i) with false by (symmetry; apply Nat.eqb_neq; lia).
    rewrite (IH f (S i) tl cs res); auto.
    + simpl in Hfuel. lia.
    + simpl length in Hk.
      replace (S i + length ds) with (i + S (length ds)) by lia. assumption.
Qed.

Lemma plus_chr_greedy p k ds i tl cs res :
  ds <> [] ->
  forallb p ds = true ->
  match tl with [] => true | c :: _ => negb (p c) end = true ->
  k (MState (i + length ds) tl cs) = Some res ->
  rmatch (Plus (Chr p)) k (MState i (ds ++ tl) cs) = Some res.
Proof.
  intros Hne Hall Htl Hk. destruct ds as [|d ds]; [ contradiction | ].
  simpl in Hall. apply andb_true_iff in Hall. destruct Hall as [Hd Hall].
  change (rmatch (Plus (Chr p)) k ?st)
    with (rmatch (Chr p) (rmatch (Star (Chr p)) k) st).
  simpl app. rewrite rmatch_chr_cons, Hd.
  change (rmatch (Star (Chr p)) k ?st)
    with (star_loop (rmatch (Chr p)) k (S (length (rest st))) st).
  cbn [rest].
  apply star_loop_chr_greedy; auto.
  - rewrite length_app. lia.
  - simpl length in Hk. replace (S i + length ds) with (i + S (length ds)) by lia.
    assumption.
Qed.

Lemma rmatch_seq a b k st : rmatch (Seq a b) k st = rmatch a (rmatch b k) st.
Proof. reflexivity. Qed.

Lemma search_head re i s st :
  rmatch re Some (MState i s []) = Some st -> exists m, search re i s = Some m.
Proof.
  intros H. destruct s; simpl; rewrite H; eauto.
Qed.

Lemma moneyTail_matches amount i cs :
  amountText amount ->
  exists res, rmatch re_moneyTail Some (MState i (amount ++ js " €") cs) = Some res.
Proof.
  intros (ds1 & ds2 & Hn1 & Hn2 & Hd1 & Hd2 & ->).
  eexists. unfold re_moneyTail, seqs. cbn [fold_right].
  rewrite rmatch_seq, <- app_assoc. unfold digit.
  apply plus_chr_greedy; auto.
  change ((cu "," :: ds2) ++ js " €") with (cu "," :: ds2 ++ js " €").
  rewrite rmatch_seq. unfold lit at 1. rewrite rmatch_chr_cons, N.eqb_refl.
  rewrite rmatch_seq.
  apply plus_chr_greedy; auto.
  vm_compute. reflexivity.
Qed.

Lemma digit_not_o c : is_digit c = true -> (cu "o" =? c)%N = false.
Proof.
  unfold is_digit. intros H. apply andb_true_iff in H. destruct H as [_ H].
  apply N.leb_le in H. apply N.eqb_neq. intros <-. vm_compute in H. contradiction.
Qed.

Lemma re_money_accepts qualifier amount :
  (qualifier = [] \/ qualifier = js "od ") ->
  amountText amount ->
  test re_money (qualifier ++ amount ++ js " €") = true.
Proof.
  intros Hq Ham. unfold test, exec.
  assert (H : exists res,
             rmatch re_money Some (MState 0 (qualifier ++ amount ++ js " €") []) = Some res).
  { change re_money with (Seq Bol (Seq (Opt (Group 1 (str "od "))) re_moneyTail)).
    rewrite rmatch_seq. cbn [rmatch pos Nat.eqb].
    destruct Hq as [-> | ->].
    - destruct (moneyTail_matches amount 0 [] Ham) as (res & Hres).
      exists res. cbn [app].
      destruct Ham as (ds1 & ds2 & Hn1 & Hn2 & Hd1 & Hd2 & ->).
      destruct ds1 as [|d ds1]; [ contradiction | ].
      simpl in Hd1. apply andb_true_iff in Hd1. destruct Hd1 as [Hd _].
      change (str "od ") with (Seq (lit (cu "o")) (Seq (lit (cu "d")) (lit (cu " ")))).
      rewrite rmatch_seq. unfold lit at 1. simpl app.
      rewrite rmatch_chr_cons, (digit_not_o d Hd). exact Hres.
    - destruct (moneyTail_matches amount 3 [(1, js "od ")] Ham) as (res & Hres).
      exists res.
      change (js "od " ++ amount ++ js " €")
        with (cu "o" :: cu "d" :: cu " " :: amount ++ js " €").
      change (str "od ") with (Seq (lit (cu "o")) (Seq (lit (cu "d")) (lit (cu " ")))).
      unfold lit at 1 2 3.
      rewrite rmatch_seq, rmatch_chr_cons, N.eqb_refl.
      rewrite rmatch_seq, rmatch_chr_cons, N.eqb_refl.
      rewrite rmatch_chr_cons, N.eqb_refl.
      cbn [pos Nat.eqb rest caps Nat.sub firstn].
      change [cu "o"; cu "d"; cu " "] with (js "od ").
      unfold set_cap. cbn [pos rest caps Nat.eqb]. rewrite Hres. reflexivity. }
  destruct H as (res & H).
  destruct (search_head _ _ _ _ H) as (m & ->). reflexivity.
Qed.

End PriceShape.

(** ** Item parser: what is emitted *)

Section ItemParser.

Lemma In_filter_some {A : Type} (x : A) (l : list (option A)) :
  In x (filter_some l) -> In (Some x) l.
Proof.
  induction l as [|[a|] l IH]; simpl; intros H.
  - contradiction.
  - destruct H as [-> | H]; auto.
  - auto.
Qed.

Lemma extractFromSection_In minLength dflt vp d sec it :
  In it (extractFromSection minLength dflt vp d sec) ->
  exists sectionText item,
    parseListItem minLength dflt sectionText vp item = Some it.
Proof.
  destruct sec as [s|]; simpl; [ | contradiction ].
  intros H. apply In_filter_some in H. apply in_map_iff in H.
  destruct H as (item & H & _). eauto.
Qed.

Lemma parseListItem_inv minLength dflt sectionText vp item it :
  parseListItem minLength dflt sectionText vp item = Some it ->
  exists c,
    candidateOf minLength dflt item = Some c /\
    nameAccepted (c_name c) = true /\
    name it = c_name c /\ price it = c_price c /\ description it = c_description c.
Proof.
  unfold parseListItem.
  destruct (candidateOf minLength dflt item) as [c|]; [ | discriminate ].
  destruct (nameAccepted (c_name c)) eqn:Hacc; [ | discriminate ].
  intros H. inversion H; subst it; clear H. simpl. eauto 6.
Qed.

Lemma candidateOf_price minLength dflt item c :
  candidateOf minLength dflt item = Some c ->
  exists cleanText, c_price c = priceOf cleanText.
Proof.
  unfold candidateOf.
  destruct (_ || _ || _ || _ || _); [ discriminate | ].
  destruct (includes _ _); [ | discriminate ].
  destruct (exec re_priceMatch _); [ | discriminate ].
  intros H. inversion H; subst c; clear H. simpl. eauto.
Qed.

Lemma nameAccepted_spec n :
  nameAccepted n = true <-> 3 < length n /\ includes n (js "€") = false.
Proof.
  unfold nameAccepted. split.
  - intros H. apply andb_true_iff in H. destruct H as [H Heur].
    apply andb_true_iff in H. destruct H as [_ Hlen].
    apply Nat.ltb_lt in Hlen. apply negb_true_iff in Heur. auto.
  - intros [Hlen Heur]. rewrite Heur.
    destruct n as [|c n]; [ simpl in Hlen; lia | ].
    apply Nat.ltb_lt in Hlen. rewrite Hlen. reflexivity.
Qed.

Lemma emitted_from_parser d viewportNumber bestViewport it :
  In it (extractItemsFromCurrentViewport_page d viewportNumber) \/
  In it (extractMenuFromScreenshot_page d bestViewport) ->
  exists minLength dflt sectionText vp item,
    parseListItem minLength dflt sectionText vp item = Some it.
Proof.
  intros [H | H]; apply extractFromSection_In in H;
    destruct H as (t & item & H); eauto 6.
Qed.

End ItemParser.

(** C1 (as amended).  Every price recorded by either extraction pass that
    is not "N/A" consists of an optional "od " qualifier, digits, a comma,
    one or more digits, a space and the euro sign: the number of decimals
    is whatever the page shows. *)
Theorem price_matches_money_pattern :
  forall (d : Dom) (viewportNumber : nat) (bestViewport : option BestViewport)
         (it : MenuItem),
    In it (extractItemsFromCurrentViewport_page d viewportNumber) \/
    In it (extractMenuFromScreenshot_page d bestViewport) ->
    price it <> js "N/A" ->
    test re_money (price it) = true.
Proof.
  intros d n bv it Hin Hna.
  destruct (emitted_from_parser _ _ _ _ Hin) as (m & dflt & t & vp & item & Hp).
  apply parseListItem_inv in Hp. destruct Hp as (c & Hc & _ & _ & Hprice & _).
  apply candidateOf_price in Hc. destruct Hc as (cleanText & Hc).
  rewrite Hprice, Hc in *.
  destruct (priceOf_shape cleanText) as [Hs | (q & a & Hq & Ha & Hs)].
  - contradiction.
  - rewrite Hs. apply re_money_accepts; assumption.
Qed.

Lemma price_matches_money_pattern_witness :
  In Demo.oneDecimalItem (extractItemsFromCurrentViewport_page Demo.oneDecimal 1) /\
  price Demo.oneDecimalItem <> js "N/A" /\
  test re_money (price Demo.oneDecimalItem) = true.
Proof.
  assert (Hin : In Demo.oneDecimalItem
                   (extractItemsFromCurrentViewport_page Demo.oneDecimal 1))
    by (vm_compute; left; reflexivity).
  assert (Hna : price Demo.oneDecimalItem <> js "N/A")
    by (vm_compute; discriminate).
  split; [ exact Hin | split; [ exact Hna | ] ].
  exact (price_matches_money_pattern Demo.oneDecimal 1 None Demo.oneDecimalItem
           (or_introl Hin) Hna).
Defined.

(** C1 as stated fails: a dish priced "3,5 €" on the page is recorded with
    that price, which has one decimal only. *)
Lemma price_two_decimals_counterexample :
  ~ (forall (d : Dom) (viewportNumber : nat) (it : MenuItem),
        In it (extractItemsFromCurrentViewport_page d viewportNumber) ->
        price it <> js "N/A" ->
        test re_money_twoDecimals (price it) = true).
Proof.
  intros H.
  specialize (H Demo.oneDecimal 1 Demo.oneDecimalItem).
  assert (Hin : In Demo.oneDecimalItem
                   (extractItemsFromCurrentViewport_page Demo.oneDecimal 1))
    by (vm_compute; left; reflexivity).
  assert (Hna : price Demo.oneDecimalItem <> js "N/A")
    by (vm_compute; discriminate).
  specialize (H Hin Hna). clear Hin Hna. vm_compute in H. discriminate H.
Qed.

(** C2.  Every item emitted by either extraction pass has a name longer
    than three code units that does not contain the euro sign, and a
    candidate whose cleaned name is too short or contains the euro sign is
    not emitted. *)
Theorem name_invariant :
  (forall (d : Dom) (viewportNumber : nat) (bestViewport : option BestViewport)
          (it : MenuItem),
      In it (extractItemsFromCurrentViewport_page d viewportNumber) \/
      In it (extractMenuFromScreenshot_page d bestViewport) ->
      3 < length (name it) /\ includes (name it) (js "€") = false)
  /\
  (forall (minLength : nat) (dflt sectionText : jsstring) (vp : viewportTag)
          (item : ListItem) (c : Candidate),
      candidateOf minLength dflt item = Some c ->
      length (c_name c) <= 3 \/ includes (c_name c) (js "€") = true ->
      parseListItem minLength dflt sectionText vp item = None).
Proof.
  split.
  - intros d n bv it Hin.
    destruct (emitted_from_parser _ _ _ _ Hin) as (m & dflt & t & vp & item & Hp).
    apply parseListItem_inv in Hp. destruct Hp as (c & _ & Hacc & Hname & _).
    rewrite Hname. apply nameAccepted_spec. assumption.
  - intros m dflt t vp item c Hc Hbad. unfold parseListItem. rewrite Hc.
    destruct (nameAccepted (c_name c)) eqn:Hacc; [ | reflexivity ].
    apply nameAccepted_spec in Hacc. destruct Hacc as [Hlen Heur].
    destruct Hbad as [Hbad | Hbad]; [ lia | congruence ].
Qed.

Lemma name_invariant_witness :
  (In Demo.oneDecimalItem (extractItemsFromCurrentViewport_page Demo.oneDecimal 1) /\
   3 < length (name Demo.oneDecimalItem) /\
   includes (name Demo.oneDecimalItem) (js "€") = false)
  /\
  (candidateOf 15 (js "Daily menu item") Demo.rumItem
   = Some {| c_name := js "Rum"; c_price := js "2,50 €"; c_description := js "tuzemský" |} /\
   length (js "Rum") <= 3 /\
   parseListItem 15 (js "Daily menu item") (js "Denné menu") (VStep 1) Demo.rumItem = None).
Proof.
  assert (Hin : In Demo.oneDecimalItem
                   (extractItemsFromCurrentViewport_page Demo.oneDecimal 1))
    by (vm_compute; left; reflexivity).
  assert (Hc : candidateOf 15 (js "Daily menu item") Demo.rumItem
               = Some {| c_name := js "Rum"; c_price := js "2,50 €";
                         c_description := js "tuzemský" |})
    by (vm_compute; reflexivity).
  assert (Hlen : length (js "Rum") <= 3) by (vm_compute; lia).
  split.
  - split; [ exact Hin | ].
    exact (proj1 name_invariant Demo.oneDecimal 1 None Demo.oneDecimalItem
             (or_introl Hin)).
  - split; [ exact Hc | split; [ exact Hlen | ] ].
    exact (proj2 name_invariant 15 (js "Daily menu item") (js "Denné menu") (VStep 1)
             Demo.rumItem _ Hc (or_introl Hlen)).
Defined.

(** C3 as stated fails: the name keeps the prefix "Soup 1:". *)
Lemma scenarioA_counterexample :
  ~ (exists it,
        parseListItem 15 (js "Daily menu item") (js "Denné menu Pondelok") (VStep 1)
                      Demo.soupItem = Some it /\
        scenarioA_expected it).
Proof.
  intros (it & Hp & Hname & _).
  vm_compute in Hp. inversion Hp; subst it; clear Hp.
  vm_compute in Hname. discriminate Hname.
Qed.

(** ** Section classifier *)

Section Classifier.

Lemma sectionTest_excluded patterns el :
  excluded el = true -> sectionTest patterns el = false.
Proof.
  unfold excluded, sectionTest. intros H.
  destruct (el_textContent el); [ reflexivity | ].
  rewrite H. reflexivity.
Qed.

Lemma find_accepts {A : Type} (f : A -> bool) l x :
  find f l = Some x -> f x = true.
Proof. intros H. apply find_some in H. tauto. Qed.

Lemma findSection_extract_accepts patterns d el :
  findSection_extract patterns d = Some el -> sectionTest patterns el = true.
Proof.
  unfold findSection_extract.
  destruct (filter_some _) as [|x l] eqn:E; simpl; [ discriminate | ].
  intros H. inversion H; subst x; clear H.
  assert (Hin : In el (filter_some
                         (map (fun s => find (sectionTest patterns)
                                             (querySelectorAll [s] d)) allSelectors)))
    by (rewrite E; left; reflexivity).
  apply In_filter_some in Hin. apply in_map_iff in Hin.
  destruct Hin as (s & Hf & _). eapply find_accepts; eauto.
Qed.

End Classifier.

(** C5.  A candidate section whose lower-cased text contains an exclusion
    phrase fails the test of every copy of the classifier, whatever else
    its text matches, and is therefore never the section found. *)
Theorem exclusion_wins :
  forall (d : Dom) (el : Element),
    excluded el = true ->
    (forall patterns, sectionTest patterns el = false) /\
    findSection_step d <> Some el /\
    findSection_extract dailyMenuPatterns_viewport d <> Some el /\
    findSection_extract dailyMenuPatterns d <> Some el.
Proof.
  intros d el Hex.
  assert (Hrej : forall patterns, sectionTest patterns el = false)
    by (intros; apply sectionTest_excluded; assumption).
  split; [ exact Hrej | ].
  repeat split; intros H.
  - apply find_accepts in H. rewrite Hrej in H. discriminate.
  - apply findSection_extract_accepts in H. rewrite Hrej in H. discriminate.
  - apply findSection_extract_accepts in H. rewrite Hrej in H. discriminate.
Qed.

Lemma exclusion_wins_witness :
  excluded Demo.favourites = true /\
  included dailyMenuPatterns Demo.favourites = true /\
  sectionTest dailyMenuPatterns Demo.favourites = false /\
  findSection_step (Demo.dom 900 [Demo.favourites]) <> Some Demo.favourites.
Proof.
  assert (Hex : excluded Demo.favourites = true) by (vm_compute; reflexivity).
  split; [ exact Hex | ].
  split; [ vm_compute; reflexivity | ].
  destruct (exclusion_wins (Demo.dom 900 [Demo.favourites]) Demo.favourites Hex)
    as (Hrej & Hstep & _).
  split; [ apply Hrej | exact Hstep ].
Defined.

(** C9 fails on the code: a section announcing "Denné menu Utorok" is
    found by the classifier of the sampling loop and of the fallback pass,
    but not by the classifier of [extractItemsFromCurrentViewport], whose
    first pattern spells the weekday "utorak"; so the step is remembered as
    the best viewport while no item is extracted from it. *)
Theorem classifiers_disagree_on_tuesday :
  sectionTest dailyMenuPatterns Demo.tuesday = true /\
  sectionTest dailyMenuPatterns_viewport Demo.tuesday = false /\
  findSection_step Demo.tuesdayPage = Some Demo.tuesday /\
  findSection_extract dailyMenuPatterns Demo.tuesdayPage = Some Demo.tuesday /\
  findSection_extract dailyMenuPatterns_viewport Demo.tuesdayPage = None /\
  visible (dailyMenuInfo Demo.tuesdayPage 1) = true /\
  extractItemsFromCurrentViewport_page Demo.tuesdayPage 1 = [].
Proof.
  repeat split; vm_compute; reflexivity.
Qed.

(** The two classifiers also search in different orders: the sampling
    loop takes the first candidate in document order, the extraction passes
    the first candidate of the first selector that has one. *)
Example classifiers_search_order :
  option_map el_tag (findSection_step Demo.divThenSection) = Some TDiv /\
  option_map el_tag (findSection_extract dailyMenuPatterns Demo.divThenSection)
  = Some TSection.
Proof.
  split; vm_compute; reflexivity.
Qed.

(** Scenario B of the specification: the qualifier "od" goes to the
    price. *)
Example scenarioB_parsed :
  candidateOf 15 (js "Daily menu item") (Demo.li "Schnitzel od 5,20 €")
  = Some {| c_name := js "Schnitzel";
            c_price := js "od 5,20 €";
            c_description := js "Daily menu item" |}.
Proof.
  vm_compute. reflexivity.
Qed.

(** ** Progressive viewport sampler *)

Section Sampler.

Lemma ceilDiv_spec totalHeight viewportHeight c :
  (0 < viewportHeight)%Z ->
  ((c - 1) * viewportHeight < totalHeight <= c * viewportHeight)%Z ->
  ceilDiv totalHeight viewportHeight = Num c.
Proof.
  intros Hv [Hlo Hhi]. unfold ceilDiv.
  replace (viewportHeight =? 0)%Z with false by (symmetry; apply Z.eqb_neq; lia).
  f_equal.
  assert (H : ((- totalHeight) / viewportHeight = - c)%Z).
  { symmetry. apply (Z.div_unique_pos _ _ _ (c * viewportHeight - totalHeight)%Z); lia. }
  lia.
Qed.

Lemma stepCount_spec totalHeight viewportHeight c :
  (0 < viewportHeight)%Z ->
  ((c - 1) * viewportHeight < totalHeight <= c * viewportHeight)%Z ->
  stepCount totalHeight viewportHeight = Z.to_nat (Z.min c 3).
Proof.
  intros Hv Hc. unfold stepCount, scrollSteps.
  rewrite (ceilDiv_spec _ _ c Hv Hc). reflexivity.
Qed.

Lemma scrollsOf_app tr1 tr2 : scrollsOf (tr1 ++ tr2) = scrollsOf tr1 ++ scrollsOf tr2.
Proof.
  unfold scrollsOf. rewrite map_app.
  induction (map isScrollTo tr1) as [|[y|] l IH]; simpl; congruence.
Qed.

Context {W : Type}.
Variable handle : forall R : Type, op R -> W -> outcome R * W.
Variable clock : W -> jsstring * W.

Lemma bind_ok {A B : Type} (m : M W A) (k : A -> M W B) st b st'' :
  bind m k st = (Ok b, st'') ->
  exists a st', m st = (Ok a, st') /\ k a st' = (Ok b, st'').
Proof.
  unfold bind. destruct (m st) as [[a|e] st']; [ eauto | discriminate ].
Qed.

Lemma onPage_ok {R : Type} (o : pageOp R) st r st' :
  onPage W handle o st = (Ok r, st') ->
  exists p,
    page (self st) = Some p /\
    self st' = self st /\
    trace st' = trace st ++ [ev (OnPage p o)].
Proof.
  unfold onPage, bind, getSelf, call.
  destruct (page (self st)) as [p|]; [ | discriminate ].
  destruct (handle R (OnPage p o) (world st)) as [r' w'].
  intros H. inversion H; subst; clear H. exists p. auto.
Qed.

Lemma updateBest_ok info scrollY step (st : State W) r st' :
  updateBest W info scrollY step st = (r, st') ->
  r = Ok tt /\
  page (self st') = page (self st) /\
  screenshotDir (self st') = screenshotDir (self st) /\
  trace st' = trace st.
Proof.
  unfold updateBest, setBest, bind, getSelf, setSelf, ret.
  destruct (visible info);
    [ destruct (match bestDailyMenuViewport (self st) with
                | Some best => visibleItems (bv_info best) <? visibleItems info
                | None => true
                end) | ];
    intros H; inversion H; subst; clear H; auto.
Qed.

Lemma sampleStep_completed site timestamp viewportHeight step st r st' :
  sampleStep W handle site timestamp viewportHeight step st = (Ok r, st') ->
  exists p,
    page (self st) = Some p /\
    page (self st') = Some p /\
    screenshotDir (self st') = screenshotDir (self st) /\
    trace st' = trace st
                ++ stepEvents p (stepScreenshotPath (screenshotDir (self st)) site
                                                    timestamp step)
                              (scrollYOf viewportHeight step).
Proof.
  unfold sampleStep, extractItemsFromCurrentViewport. intros H.
  apply bind_ok in H. destruct H as ([] & st1 & H1 & H).
  apply bind_ok in H. destruct H as ([] & st2 & H2 & H).
  apply bind_ok in H. destruct H as (s & st3 & H3 & H).
  unfold getSelf in H3. inversion H3; subst s st3; clear H3.
  apply bind_ok in H. destruct H as ([] & st4 & H4 & H).
  apply bind_ok in H. destruct H as (d & st5 & H5 & H).
  apply bind_ok in H. destruct H as (u & st6 & H6 & H).
  apply bind_ok in H. destruct H as (items & st7 & H7 & H).
  apply bind_ok in H7. destruct H7 as (d' & st8 & H8 & H7).
  unfold ret in H, H7. inversion H; subst; clear H. inversion H7; subst; clear H7.
  apply onPage_ok in H1, H2, H4, H5, H8.
  destruct H1 as (p & Hp & Hs1 & Ht1).
  destruct H2 as (p2 & Hp2 & Hs2 & Ht2).
  destruct H4 as (p4 & Hp4 & Hs4 & Ht4).
  destruct H5 as (p5 & Hp5 & Hs5 & Ht5).
  destruct H8 as (p8 & Hp8 & Hs8 & Ht8).
  apply updateBest_ok in H6. destruct H6 as (_ & Hp6 & Hd6 & Ht6).
  assert (p2 = p) by congruence.
  assert (p4 = p) by congruence.
  assert (p5 = p) by congruence.
  assert (p8 = p) by congruence.
  subst p2 p4 p5 p8.
  exists p. repeat split.
  - assumption.
  - congruence.
  - congruence.
  - rewrite Ht8, Ht6, Ht5, Ht4, Ht2, Ht1. unfold stepEvents.
    repeat rewrite <- app_assoc. simpl. do 4 f_equal. congruence.
Qed.

Lemma sampleSteps_completed site timestamp viewportHeight :
  forall steps screenshots items st r st',
    sampleSteps W handle site timestamp viewportHeight steps screenshots items st
    = (Ok r, st') ->
    exists evs,
      trace st' = trace st ++ evs /\
      scrollsOf evs = map (scrollYOf viewportHeight) steps /\
      length (filter isStepScreenshot evs) = length steps.
Proof.
  induction steps as [|step steps IH]; intros screenshots items st r st' H.
  - simpl in H. unfold ret in H. inversion H; subst.
    exists []. rewrite app_nil_r. auto.
  - simpl in H. unfold bind in H at 1.
    destruct (sampleStep W handle site timestamp viewportHeight step st)
      as [[r1|e] st1] eqn:E; [ | discriminate ].
    apply sampleStep_completed in E. destruct E as (p & _ & _ & _ & Htr).
    apply IH in H. destruct H as (evs & Htr' & Hsc & Hshots).
    eexists. split; [ rewrite Htr', Htr, <- app_assoc; reflexivity | ].
    split.
    + rewrite scrollsOf_app, Hsc. reflexivity.
    + rewrite filter_app, length_app, Hshots. reflexivity.
Qed.

End Sampler.

(** Scenario C in a whole run: the scroll to the top before the loop, the
    three rounds, and the scroll back to the top after it. *)
Example scenarioC_full_run :
  scrollsOf (trace (snd (Demo.run (scrapeRestaurant Demo.browserState Demo.handle
                                                    Demo.clock Demo.tuesdaySite)
                                  [Demo.tuesdaySite])))
  = [0; 0; 1024; 2048; 0]%Z
  /\
  length (filter isStepScreenshot
                 (trace (snd (Demo.run (scrapeRestaurant Demo.browserState Demo.handle
                                                         Demo.clock Demo.tuesdaySite)
                                       [Demo.tuesdaySite])))) = 3.
Proof.
  split; vm_compute; reflexivity.
Qed.

(** A viewport of height zero: the quotient is an infinity, capped at
    three rounds, or NaN, which runs none. *)
Example zero_viewport :
  stepCount 3500 0 = 3 /\ stepOffsets 3500 0 = [0; 0; 0]%Z /\ stepCount 0 0 = 0.
Proof.
  repeat split.
Qed.

(** ** Reasoning about the methods *)

Section Triples.

Context {W : Type}.
Variable I : State W -> Prop.

Lemma triple_ret {A : Type} (a : A) (Q : outcome A -> Prop) :
  Q (Ok a) -> triple I (ret a) Q.
Proof. intros HQ st HI. simpl. auto. Qed.

Lemma triple_throw {A : Type} (e : JsError) (Q : outcome A -> Prop) :
  Q (Throw e) -> triple I (throw e) Q.
Proof. intros HQ st HI. simpl. auto. Qed.

Lemma triple_bind {A B : Type} (m : M W A) (k : A -> M W B)
      (Q1 : outcome A -> Prop) (Q : outcome B -> Prop) :
  triple I m Q1 ->
  (forall a, Q1 (Ok a) -> triple I (k a) Q) ->
  (forall e, Q1 (Throw e) -> Q (Throw e)) ->
  triple I (bind m k) Q.
Proof.
  intros Hm Hk He st HI. unfold bind.
  destruct (Hm st HI) as [HI' HQ1].
  destruct (m st) as [[a|e] st']; simpl in *.
  - apply Hk; assumption.
  - auto.
Qed.

Lemma triple_try_catch {A : Type} (m : M W A) (h : JsError -> M W A)
      (Q1 Q : outcome A -> Prop) :
  triple I m Q1 ->
  (forall a, Q1 (Ok a) -> Q (Ok a)) ->
  (forall e, Q1 (Throw e) -> triple I (h e) Q) ->
  triple I (try_catch m h) Q.
Proof.
  intros Hm Hok Hh st HI. unfold try_catch.
  destruct (Hm st HI) as [HI' HQ1].
  destruct (m st) as [[a|e] st']; simpl in *.
  - auto.
  - apply Hh; assumption.
Qed.

Lemma triple_conseq {A : Type} (m : M W A) (Q1 Q : outcome A -> Prop) :
  triple I m Q1 -> (forall r, Q1 r -> Q r) -> triple I m Q.
Proof.
  intros Hm HQ st HI. destruct (Hm st HI). auto.
Qed.

(** The two rules for computations whose outcome does not matter. *)
Lemma triple_bind_any {A B : Type} (m : M W A) (k : A -> M W B) :
  triple I m anyOutcome ->
  (forall a, triple I (k a) anyOutcome) ->
  triple I (bind m k) anyOutcome.
Proof.
  intros Hm Hk.
  apply (triple_bind m k anyOutcome anyOutcome Hm);
    [ intros a _; apply Hk | intros; exact Logic.I ].
Qed.

Lemma triple_try_catch_any {A : Type} (m : M W A) (h : JsError -> M W A) :
  triple I m anyOutcome ->
  (forall e, triple I (h e) anyOutcome) ->
  triple I (try_catch m h) anyOutcome.
Proof.
  intros Hm Hh.
  apply (triple_try_catch m h anyOutcome anyOutcome Hm);
    [ intros; exact Logic.I | intros e _; apply Hh ].
Qed.

(** The two rules for computations that return a value. *)
Lemma triple_bind_returns {A B : Type} (m : M W A) (k : A -> M W B)
      (Q1 : A -> Prop) (Q : B -> Prop) :
  triple I m (returns Q1) ->
  (forall a, Q1 a -> triple I (k a) (returns Q)) ->
  triple I (bind m k) (returns Q).
Proof.
  intros Hm Hk.
  apply (triple_bind m k (returns Q1) (returns Q) Hm).
  - intros a (a' & Ha & HQ). inversion Ha; subst. auto.
  - intros e (a & Ha & _). discriminate Ha.
Qed.

(** A handler that returns a value makes the whole [try] return one. *)
Lemma triple_try_catch_returns {A : Type} (m : M W A) (h : JsError -> M W A) :
  triple I m anyOutcome ->
  (forall e, triple I (h e) (returns anything)) ->
  triple I (try_catch m h) (returns anything).
Proof.
  intros Hm Hh.
  apply (triple_try_catch m h anyOutcome (returns anything) Hm).
  - intros a _. exists a. split; [ reflexivity | exact Logic.I ].
  - intros e _. apply Hh.
Qed.

(** A [try] around a computation that returns. *)
Lemma triple_try_returns {A : Type} (m : M W A) (h : JsError -> M W A)
      (Q : A -> Prop) :
  triple I m (returns Q) ->
  triple I (try_catch m h) (returns Q).
Proof.
  intros Hm.
  apply (triple_try_catch m h (returns Q) (returns Q) Hm).
  - auto.
  - intros e (a & Ha & _). discriminate Ha.
Qed.

End Triples.

Section Primitives.

Context {W : Type}.
Variable handle : forall R : Type, op R -> W -> outcome R * W.
Variable clock : W -> jsstring * W.
Variable pg : option pageId.
Variable E : event -> bool.
Variable tr0 : list event.

Local Abbreviation Inv := (@since W pg E tr0).

Lemma since_extend (st : State W) s w e :
  Inv st -> page s = pg -> E e = true ->
  Inv {| self := s; world := w; trace := trace st ++ [e] |}.
Proof.
  intros (Hp & evs & Htr & HE) Hs He. split; [ exact Hs | ].
  exists (evs ++ [e]). simpl. split.
  - rewrite Htr, app_assoc. reflexivity.
  - rewrite forallb_app, HE. simpl. rewrite He. reflexivity.
Qed.

Lemma since_same (st : State W) s w :
  Inv st -> page s = pg ->
  Inv {| self := s; world := w; trace := trace st |}.
Proof.
  intros (Hp & evs & Htr & HE) Hs. split; [ exact Hs | ].
  exists evs. auto.
Qed.

Lemma triple_call {R : Type} (o : op R) (Q : outcome R -> Prop) :
  E (ev o) = true ->
  (forall w, Q (fst (handle R o w))) ->
  triple Inv (call W handle o) Q.
Proof.
  intros He HQ st HI. unfold call. specialize (HQ (world st)).
  destruct (handle R o (world st)) as [r w']. simpl in *. split; [ | exact HQ ].
  apply since_extend; auto. destruct HI; assumption.
Qed.

Lemma triple_getSelf (Q : outcome Scraper -> Prop) :
  (forall s, page s = pg -> Q (Ok s)) ->
  triple Inv (getSelf W) Q.
Proof.
  intros HQ st HI. unfold getSelf. simpl. split; [ exact HI | ].
  apply HQ. destruct HI; assumption.
Qed.

Lemma triple_setSelf s (Q : outcome unit -> Prop) :
  page s = pg -> Q (Ok tt) -> triple Inv (setSelf W s) Q.
Proof.
  intros Hs HQ st HI. unfold setSelf. simpl. split; [ | exact HQ ].
  apply since_same; assumption.
Qed.

Lemma triple_setBest b (Q : outcome unit -> Prop) :
  Q (Ok tt) -> triple Inv (setBest W b) Q.
Proof.
  intros HQ. unfold setBest.
  eapply triple_bind with (Q1 := fun r => exists s, r = Ok s /\ page s = pg).
  - apply triple_getSelf. eauto.
  - intros s (s' & Hs & Hp). inversion Hs; subst s'. apply triple_setSelf; auto.
  - intros e (s & Hs & _). discriminate Hs.
Qed.

Lemma triple_now (Q : outcome jsstring -> Prop) :
  (forall iso, Q (Ok iso)) -> triple Inv (now W clock) Q.
Proof.
  intros HQ st HI. unfold now.
  destruct (clock (world st)) as [iso w']. simpl. split; [ | apply HQ ].
  apply since_same; auto. destruct HI; assumption.
Qed.

Lemma triple_onPage {R : Type} (o : pageOp R) (Q : outcome R -> Prop) :
  (forall p, pg = Some p ->
             E (ev (OnPage p o)) = true /\ forall w, Q (fst (handle R (OnPage p o) w))) ->
  (pg = None -> Q (Throw nullError)) ->
  triple Inv (onPage W handle o) Q.
Proof.
  intros Hsome Hnone. unfold onPage.
  eapply triple_bind with (Q1 := fun r => exists s, r = Ok s /\ page s = pg).
  - apply triple_getSelf. eauto.
  - intros s (s' & Hs & Hp). inversion Hs; subst s'.
    destruct (page s) as [p|] eqn:Hps.
    + destruct (Hsome p (eq_sym Hp)) as [He HQ]. apply triple_call; assumption.
    + apply triple_throw. auto.
  - intros e (s & Hs & _). discriminate Hs.
Qed.

Lemma triple_onPage_any {R : Type} (o : pageOp R) :
  (forall p, pg = Some p -> E (ev (OnPage p o)) = true) ->
  triple Inv (onPage W handle o) anyOutcome.
Proof.
  intros He. apply triple_onPage.
  - intros p Hp. split; [ auto | intros; exact Logic.I ].
  - intros; exact Logic.I.
Qed.

End Primitives.

(** ** What every run of the site runner preserves *)

Section Preservation.

Context {W : Type}.
Variable handle : forall R : Type, op R -> W -> outcome R * W.
Variable clock : W -> jsstring * W.
Variable pg : option pageId.
Variable E : event -> bool.
Variable tr0 : list event.

(** [E] accepts every call on the scraper's page except closing it, and
    the custom scripts. *)
Hypothesis E_page :
  forall p (R : Type) (o : pageOp R),
    pg = Some p -> isClosePage o = false -> E (ev (OnPage p o)) = true.
Hypothesis E_script : forall code, E (ev (RunScript code)) = true.

Local Abbreviation Inv := (@since W pg E tr0).

Ltac on_page :=
  apply triple_onPage_any; intros ? ?; apply E_page; [ assumption | reflexivity ].

Ltac any_step :=
  lazymatch goal with
  | |- triple _ (bind _ _) anyOutcome => apply triple_bind_any; [ | intros ? ]
  | |- triple _ (try_catch _ _) anyOutcome => apply triple_try_catch_any; [ | intros ? ]
  | |- triple _ (ret _) anyOutcome => apply triple_ret; exact Logic.I
  | |- triple _ (throw _) anyOutcome => apply triple_throw; exact Logic.I
  | |- triple _ (getSelf _) anyOutcome => apply triple_getSelf; intros; exact Logic.I
  | |- triple _ (setBest _ _) anyOutcome => apply triple_setBest; exact Logic.I
  | |- triple _ (now _ _) anyOutcome => apply triple_now; intros; exact Logic.I
  | |- triple _ (onPage _ _ _) anyOutcome => on_page
  | |- triple _ (call _ _ (RunScript _)) anyOutcome =>
      apply triple_call; [ apply E_script | intros; exact Logic.I ]
  | |- triple _ (if ?b then _ else _) _ => destruct b
  | |- triple _ (match ?x with _ => _ end) _ => destruct x
  end.

Ltac any_steps := repeat any_step.

Lemma handleCloudflareProtection_any :
  triple Inv (handleCloudflareProtection W handle) anyOutcome.
Proof. unfold handleCloudflareProtection. any_steps. Qed.

Lemma tryCookieSelectors_any sels :
  triple Inv (tryCookieSelectors W handle sels) anyOutcome.
Proof.
  induction sels as [|sel sels IH]; simpl.
  - any_steps.
  - apply triple_bind_any; [ any_steps | ].
    intros [|]; [ any_steps | exact IH ].
Qed.

Lemma handleCookies_any : triple Inv (handleCookies W handle) anyOutcome.
Proof.
  unfold handleCookies.
  apply triple_try_catch_any; [ | intros; any_steps ].
  apply triple_bind_any; [ any_steps | intros _ ].
  apply triple_bind_any; [ apply tryCookieSelectors_any | intros ? ].
  any_steps.
Qed.

Lemma extractItemsFromCurrentViewport_any siteName n :
  triple Inv (extractItemsFromCurrentViewport W handle siteName n) anyOutcome.
Proof. unfold extractItemsFromCurrentViewport. any_steps. Qed.

Lemma extractMenuFromScreenshot_any path site bv :
  triple Inv (extractMenuFromScreenshot W handle path site bv) anyOutcome.
Proof. unfold extractMenuFromScreenshot. any_steps. Qed.

Lemma updateBest_any info y step :
  triple Inv (updateBest W info y step) anyOutcome.
Proof. unfold updateBest. any_steps. Qed.

Lemma sampleStep_any site ts vh step :
  triple Inv (sampleStep W handle site ts vh step) anyOutcome.
Proof.
  unfold sampleStep.
  repeat first [ apply updateBest_any
               | apply extractItemsFromCurrentViewport_any
               | any_step ].
Qed.

Lemma sampleSteps_any site ts vh : forall steps shots items,
  triple Inv (sampleSteps W handle site ts vh steps shots items) anyOutcome.
Proof.
  induction steps as [|step steps IH]; intros shots items; simpl.
  - any_steps.
  - apply triple_bind_any; [ apply sampleStep_any | intros r; apply IH ].
Qed.

Lemma scrapeRestaurant_try_any site :
  triple Inv (scrapeRestaurant_try W handle clock site) anyOutcome.
Proof.
  unfold scrapeRestaurant_try.
  repeat first [ apply handleCloudflareProtection_any
               | apply handleCookies_any
               | apply sampleSteps_any
               | apply extractMenuFromScreenshot_any
               | any_step ].
Qed.

Lemma scrapeRestaurant_returns site :
  triple Inv (scrapeRestaurant W handle clock site) (returns anything).
Proof.
  unfold scrapeRestaurant. apply triple_try_catch_returns.
  - apply scrapeRestaurant_try_any.
  - intros e. apply triple_ret. eexists; split; [ reflexivity | exact Logic.I ].
Qed.

(** [scrapeSite] reports on its site and does not throw. *)
Lemma scrapeSite_returns site :
  triple Inv (scrapeSite W handle clock site)
         (returns (fun r => r_name r = site_name site /\ r_url r = site_url site)).
Proof.
  unfold scrapeSite. apply triple_try_returns.
  eapply triple_bind_returns; [ apply scrapeRestaurant_returns | ].
  intros data _. apply triple_ret. eexists; split; [ reflexivity | ]. simpl. auto.
Qed.

Lemma scrapeSites_returns : forall sites results,
  triple Inv (scrapeSites W handle clock sites results)
         (returns (fun rs => exists new,
                       rs = results ++ new /\
                       map r_name new = map site_name sites /\
                       map r_url new = map site_url sites)).
Proof.
  induction sites as [|site sites IH]; intros results; simpl.
  - apply triple_ret. eexists; split; [ reflexivity | ].
    exists []. rewrite app_nil_r. auto.
  - eapply triple_bind_returns; [ apply scrapeSite_returns | ].
    intros r [Hn Hu]. eapply triple_conseq; [ apply IH | ].
    intros o (rs & -> & new & -> & Hnames & Hurls).
    eexists; split; [ reflexivity | ].
    exists (r :: new). rewrite <- app_assoc. simpl.
    repeat split; congruence.
Qed.

Lemma scrapeAllSites_returns :
  triple Inv (scrapeAllSites W handle clock)
         (returns (fun rs => exists s,
                       map r_name rs = map site_name (getEnabledSites s) /\
                       map r_url rs = map site_url (getEnabledSites s))).
Proof.
  unfold scrapeAllSites.
  eapply triple_bind with (Q1 := returns anything).
  - apply triple_getSelf. intros s _. exists s. split; [ reflexivity | exact Logic.I ].
  - intros s _. destruct (getEnabledSites s) as [|site sites] eqn:Hs.
    + apply triple_ret. eexists; split; [ reflexivity | ].
      exists s. rewrite Hs. auto.
    + eapply triple_conseq; [ apply scrapeSites_returns | ].
      intros o (rs & -> & new & -> & Hn & Hu).
      eexists; split; [ reflexivity | ]. exists s. rewrite Hs. auto.
  - intros e (a & Ha & _). discriminate Ha.
Qed.

End Preservation.

(** ** Site runner: errors and the batch *)

Section Batch.

Context {W : Type}.
Variable handle : forall R : Type, op R -> W -> outcome R * W.
Variable clock : W -> jsstring * W.

Lemma anyEvent_page (pg : option pageId) :
  forall p (R : Type) (o : pageOp R),
    pg = Some p -> isClosePage o = false -> anyEvent (ev (OnPage p o)) = true.
Proof. reflexivity. Qed.

Lemma since_start (E : event -> bool) (st : State W) :
  since (page (self st)) E (trace st) st.
Proof.
  split; [ reflexivity | ]. exists []. rewrite app_nil_r. auto.
Qed.

(** [scrapeRestaurant] turns whatever its [try] block throws into a
    failure record, which has no item list. *)
Lemma scrapeRestaurant_catches site (st : State W) :
  match scrapeRestaurant_try W handle clock site st with
  | (Ok data, st') => scrapeSite W handle clock site st
                      = (Ok {| r_name := site_name site;
                               r_url := site_url site;
                               r_success := sd_success data;
                               r_scrapedAt := sd_scrapedAt data;
                               r_itemCount := sd_itemCount data;
                               r_items := sd_menuData data;
                               r_totalCount := sd_itemCount data;
                               r_screenshotPath := sd_screenshotPath data;
                               r_error := if sd_success data then None
                                          else sd_error data |}, st')
  | (Throw error, st') => scrapeSite W handle clock site st
                          = (Ok (failureResult site error), st')
  end.
Proof.
  unfold scrapeSite, scrapeRestaurant, try_catch, bind.
  destruct (scrapeRestaurant_try W handle clock site st) as [[data|e] st'];
    reflexivity.
Qed.

(** The batch reports on every enabled site, in order, and does not
    throw. *)
Lemma scrapeAllSites_reports (st : State W) :
  exists results st',
    scrapeAllSites W handle clock st = (Ok results, st') /\
    map r_name results = map site_name (getEnabledSites (self st)) /\
    map r_url results = map site_url (getEnabledSites (self st)).
Proof.
  unfold scrapeAllSites, bind, getSelf.
  destruct (getEnabledSites (self st)) as [|site sites] eqn:Hs.
  - exists [], st. auto.
  - destruct (scrapeSites_returns handle clock (page (self st)) anyEvent (trace st)
                                  (anyEvent_page _) (fun _ => eq_refl)
                                  (site :: sites) [] st (since_start _ st))
      as (_ & rs & Hrs & new & -> & Hn & Hu).
    destruct (scrapeSites W handle clock (site :: sites) [] st) as [o st'].
    simpl in Hrs. subst o. exists new, st'. auto.
Qed.

Lemma sharedPageEvent_page p :
  forall q (R : Type) (o : pageOp R),
    Some p = Some q -> isClosePage o = false ->
    sharedPageEvent p (ev (OnPage q o)) = true.
Proof.
  intros q R o Hq Ho. inversion Hq; subst q.
  destruct o; simpl in *; try apply Nat.eqb_refl. discriminate Ho.
Qed.

Lemma close_run (st : State W) p :
  page (self st) = Some p ->
  exists evs,
    trace (snd (close W handle st)) = trace st ++ ev (OnPage p ClosePage) :: evs.
Proof.
  intros Hp. unfold close, try_catch, bind, getSelf, call. rewrite Hp.
  destruct (handle unit (OnPage p ClosePage) (world st)) as [[[]|e] w1]; simpl.
  - destruct (browser (self st)) as [b|]; simpl.
    + destruct (handle unit (CloseBrowser b) w1) as [[[]|e] w2]; simpl;
        rewrite <- app_assoc; eexists; reflexivity.
    + eexists; reflexivity.
  - eexists; reflexivity.
Qed.

End Batch.

(** C6 fails on the code in one detail: an error that escapes
    [scrapeRestaurant]'s [try] block is reported with [success = false]
    and its message, and the batch goes on to the next site, but the record
    has no item list ([undefined], not an empty list) and no item count.
    Here the first site cannot be reached and the second shows no menu. *)
Theorem failed_site_has_no_item_list :
  exists okResult st',
    Demo.run (scrapeAllSites Demo.browserState Demo.handle Demo.clock)
             [Demo.downSite; Demo.emptySite]
    = (Ok [failureResult Demo.downSite Demo.timeoutError; okResult], st') /\
    r_items (failureResult Demo.downSite Demo.timeoutError) = None /\
    r_itemCount (failureResult Demo.downSite Demo.timeoutError) = None /\
    r_name okResult = site_name Demo.emptySite /\
    r_success okResult = true /\
    r_items okResult = Some [].
Proof.
  eexists. eexists. split; [ vm_compute; reflexivity | ].
  repeat split.
Qed.

(** C10 (as amended).  Every call a batch makes on a page is made on the
    one page held in [this.page], whichever site is being visited; the
    batch neither opens nor closes a page and leaves [this.page] as it
    was; the page is closed by [close]. *)
Theorem one_page_for_the_batch :
  forall (W : Type) (handle : forall R : Type, op R -> W -> outcome R * W)
         (clock : W -> jsstring * W) (st : State W) (p : pageId),
    page (self st) = Some p ->
    (page (self (snd (scrapeAllSites W handle clock st))) = Some p /\
     exists evs,
       trace (snd (scrapeAllSites W handle clock st)) = trace st ++ evs /\
       forallb (sharedPageEvent p) evs = true) /\
    (exists evs,
        trace (snd (close W handle st)) = trace st ++ ev (OnPage p ClosePage) :: evs).
Proof.
  intros W handle clock st p Hp. split; [ | apply close_run; assumption ].
  pose proof (since_start (sharedPageEvent p) st) as Hst. rewrite Hp in Hst.
  destruct (scrapeAllSites_returns handle clock (Some p) (sharedPageEvent p) (trace st)
                                   (sharedPageEvent_page p) (fun _ => eq_refl) st Hst)
    as ((Hpage & evs & Htr & HE) & _).
  split; [ exact Hpage | ]. exists evs. auto.
Qed.

Lemma one_page_for_the_batch_witness :
  page (self (Demo.start [Demo.tuesdaySite; Demo.emptySite])) = Some 7 /\
  exists evs,
    trace (snd (scrapeAllSites Demo.browserState Demo.handle Demo.clock
                               (Demo.start [Demo.tuesdaySite; Demo.emptySite])))
    = trace (Demo.start [Demo.tuesdaySite; Demo.emptySite]) ++ evs /\
    forallb (sharedPageEvent 7) evs = true.
Proof.
  split; [ reflexivity | ].
  exact (proj2 (proj1 (one_page_for_the_batch
                         Demo.browserState Demo.handle Demo.clock
                         (Demo.start [Demo.tuesdaySite; Demo.emptySite]) 7 eq_refl))).
Defined.

(** C10 as stated fails: two sites of one batch are visited on the same
    page. *)
Lemma session_per_site_counterexample :
  ~ sessionPerSite
      (trace (snd (Demo.run (scrapeAllSites Demo.browserState Demo.handle Demo.clock)
                            [Demo.tuesdaySite; Demo.emptySite]))).
Proof.
  intros [Hdistinct _].
  assert (Hg : gotosOf
                 (trace (snd (Demo.run
                                (scrapeAllSites Demo.browserState Demo.handle Demo.clock)
                                [Demo.tuesdaySite; Demo.emptySite])))
               = [(7, Demo.tuesdayUrl); (7, Demo.emptyUrl)])
    by (vm_compute; reflexivity).
  rewrite Hg in Hdistinct.
  apply (Hdistinct 7 Demo.tuesdayUrl 7 Demo.emptyUrl).
  - left; reflexivity.
  - right; left; reflexivity.
  - intros Heq. vm_compute in Heq. discriminate Heq.
  - reflexivity.
Qed.

(** ** The fallback pass *)

Section Fallback.

Context {W : Type}.
Variable handle : forall R : Type, op R -> W -> outcome R * W.

Lemma onPage_run {R : Type} (o : pageOp R) (st : State W) p :
  page (self st) = Some p ->
  onPage W handle o st
  = (fst (handle R (OnPage p o) (world st)),
     {| self := self st;
        world := snd (handle R (OnPage p o) (world st));
        trace := trace st ++ [ev (OnPage p o)] |}).
Proof.
  intros Hp. unfold onPage, bind, getSelf, call. rewrite Hp.
  destruct (handle R (OnPage p o) (world st)); reflexivity.
Qed.

Ltac quiet_step :=
  lazymatch goal with
  | |- triple _ (bind _ _) anyOutcome => apply triple_bind_any; [ | intros ? ]
  | |- triple _ (try_catch _ _) anyOutcome => apply triple_try_catch_any; [ | intros ? ]
  | |- triple _ (ret _) anyOutcome => apply triple_ret; exact Logic.I
  | |- triple _ (onPage _ _ _) anyOutcome =>
      apply triple_onPage_any; intros ? ?; reflexivity
  end.

Lemma try_bind_first {A B : Type} (m : M W A) (k : A -> M W B)
      (h : JsError -> M W B) st :
  try_catch (bind m k) h st
  = match m st with
    | (Ok a, st1) => try_catch (k a) h st1
    | (Throw e, st1) => h e st1
    end.
Proof.
  unfold try_catch, bind. destruct (m st) as [[a|e] st1]; reflexivity.
Qed.

Lemma bind_assoc {A B C : Type} (m : M W A) (k1 : A -> M W B) (k2 : B -> M W C) st :
  bind (bind m k1) k2 st = bind m (fun a => bind (k1 a) k2) st.
Proof.
  unfold bind. destruct (m st) as [[a|e] st1]; reflexivity.
Qed.

Lemma try_catch_ext {A : Type} (m m' : M W A) (h : JsError -> M W A) st :
  m st = m' st -> try_catch m h st = try_catch m' h st.
Proof. unfold try_catch. intros ->. reflexivity. Qed.

(** What follows the scroll in [extractMenuFromScreenshot] does not
    scroll. *)
Lemma after_scroll_quiet pg tr0 bestViewport path :
  triple (since pg notScroll tr0)
         (try_catch
            (bind (onPage W handle (WaitForTimeout 2000))
                  (fun _ =>
                     bind (onPage W handle Evaluate)
                          (fun d =>
                             bind (onPage W handle ReadConsoleMessages)
                                  (fun _ => ret (extractMenuFromScreenshot_page
                                                   d bestViewport)))))
            (fun _ => ret [placeholderItem path]))
         anyOutcome.
Proof. repeat quiet_step. Qed.

Lemma extractMenuFromScreenshot_unanchored path site bestViewport (st : State W) :
  match bestViewport with
  | Some _ => jseqb (site_name site) (js "Central Pub") = false
  | None => True
  end ->
  unanchoredFallback
    (trace st)
    (trace (snd (extractMenuFromScreenshot W handle path site bestViewport st))).
Proof.
  intros Hsite.
  assert (H : triple (since (page (self st)) notScroll (trace st))
                     (extractMenuFromScreenshot W handle path site bestViewport)
                     anyOutcome).
  { unfold extractMenuFromScreenshot.
    destruct bestViewport as [bv|]; [ rewrite Hsite | ]; repeat quiet_step. }
  destruct (H st (since_start notScroll st)) as ((_ & evs & Htr & HE) & _).
  exists evs. auto.
Qed.

Lemma extractMenuFromScreenshot_anchored path site bv (st : State W) p :
  page (self st) = Some p ->
  jseqb (site_name site) (js "Central Pub") = true ->
  anchoredFallback
    p bv (trace st)
    (trace (snd (extractMenuFromScreenshot W handle path site (Some bv) st))).
Proof.
  intros Hp Hsite. unfold extractMenuFromScreenshot. rewrite Hsite.
  rewrite (try_catch_ext _ _ _ st (bind_assoc _ _ _ st)).
  rewrite try_bind_first, (onPage_run _ st p Hp).
  destruct (handle unit (OnPage p (ScrollTo (bv_scrollY bv))) (world st))
    as [[[]|e] w1]; cbn [fst snd].
  - match goal with
    | |- anchoredFallback _ _ _ (trace (snd (_ ?st1))) =>
        destruct (after_scroll_quiet (page (self st1)) (trace st1) (Some bv) path st1
                                     (since_start notScroll st1))
          as ((_ & evs & Htr & HE) & _)
    end.
    exists evs. rewrite Htr. cbn [trace]. rewrite <- app_assoc. auto.
  - exists []. cbn [ret snd trace]. auto.
Qed.

End Fallback.


(** C7 fails on the code for every site but one.  The fallback pass
    scrolls to the best viewport's offset only when the site is named
    "Central Pub" (line 550); for any other site it does not scroll at
    all, although the sampling loop records the best viewport for every
    site and [scrapeRestaurant] passes it on.  On the page of
    [Demo.tuesdayUrl], where the loop finds the section in its second
    round, the visit of a site named "Utorok Bistro" ends without a scroll
    to that round's offset and without items, while the same page visited
    under the name "Central Pub" is scrolled to 1024 and yields the
    dish. *)
Theorem fallback_anchor_site_gate :
  (forall (W : Type) (handle : forall R : Type, op R -> W -> outcome R * W)
          (path : jsstring) (site : Site) (bv : BestViewport)
          (st : State W) (p : pageId),
      page (self st) = Some p ->
      if jseqb (site_name site) (js "Central Pub")
      then anchoredFallback
             p bv (trace st)
             (trace (snd (extractMenuFromScreenshot W handle path site (Some bv) st)))
      else unanchoredFallback
             (trace st)
             (trace (snd (extractMenuFromScreenshot W handle path site (Some bv) st))))
  /\
  (exists data st',
      scrapeRestaurant Demo.browserState Demo.handle Demo.clock Demo.tuesdaySite
                       (Demo.start [Demo.tuesdaySite]) = (Ok data, st') /\
      bestDailyMenuViewport (self st') = Some Demo.tuesdayBest /\
      scrollsOf (trace st') = [0; 0; 1024; 2048; 0]%Z /\
      sd_success data = true /\
      sd_menuData data = Some [])
  /\
  (exists data st',
      scrapeRestaurant Demo.browserState Demo.handle Demo.clock Demo.centralPub
                       (Demo.start [Demo.centralPub]) = (Ok data, st') /\
      bestDailyMenuViewport (self st') = Some Demo.tuesdayBest /\
      scrollsOf (trace st') = [0; 0; 1024; 2048; 0; 1024]%Z /\
      option_map (map price) (sd_menuData data) = Some [js "6,90 €"]).
Proof.
  split; [ | split ].
  - intros W handle path site bv st p Hp.
    destruct (jseqb (site_name site) (js "Central Pub")) eqn:Hsite.
    + apply extractMenuFromScreenshot_anchored; assumption.
    + apply (extractMenuFromScreenshot_unanchored handle path site (Some bv)).
      exact Hsite.
  - destruct (scrapeRestaurant Demo.browserState Demo.handle Demo.clock
                               Demo.tuesdaySite (Demo.start [Demo.tuesdaySite]))
      as [[data|e] st'] eqn:Hrun; [ | vm_compute in Hrun; discriminate Hrun ].
    exists data, st'. split; [ reflexivity | ].
    vm_compute in Hrun. inversion Hrun; subst data st'; clear Hrun.
    repeat split; vm_compute; reflexivity.
  - destruct (scrapeRestaurant Demo.browserState Demo.handle Demo.clock
                               Demo.centralPub (Demo.start [Demo.centralPub]))
      as [[data|e] st'] eqn:Hrun; [ | vm_compute in Hrun; discriminate Hrun ].
    exists data, st'. split; [ reflexivity | ].
    vm_compute in Hrun. inversion Hrun; subst data st'; clear Hrun.
    repeat split; vm_compute; reflexivity.
Qed.

(** ** Runs without a menu *)

Section NoMenu.

Context {W : Type}.
Variable handle : forall R : Type, op R -> W -> outcome R * W.
Variable clock : W -> jsstring * W.
Variable p : pageId.
Variable tr0 : list event.

(** Nothing throws, and no document shows a section to either
    extraction pass. *)
Hypothesis H_ok : forall (R : Type) (o : op R) w, exists r, fst (handle R o w) = Ok r.
Hypothesis H_nomatch :
  forall q w d, fst (handle Dom (OnPage q Evaluate) w) = Ok d -> noSection d.

Local Abbreviation Inv := (@since W (Some p) anyEvent tr0).

Lemma ret_anything {A : Type} (a : A) : triple Inv (ret a) (returns anything).
Proof. apply triple_ret. exists a. split; [ reflexivity | exact Logic.I ]. Qed.

Lemma bind_anything {A B : Type} (m : M W A) (k : A -> M W B) (Q : B -> Prop) :
  triple Inv m (returns anything) ->
  (forall a, triple Inv (k a) (returns Q)) ->
  triple Inv (bind m k) (returns Q).
Proof.
  intros Hm Hk. apply (triple_bind_returns Inv m k anything Q Hm). intros a _. apply Hk.
Qed.

Lemma onPage_returns {R : Type} (o : pageOp R) :
  triple Inv (onPage W handle o) (returns anything).
Proof.
  apply triple_onPage.
  - intros q _. split; [ reflexivity | ]. intros w.
    destruct (H_ok R (OnPage q o) w) as (r & ->). exists r.
    split; [ reflexivity | exact Logic.I ].
  - discriminate.
Qed.

Lemma evaluate_returns : triple Inv (onPage W handle Evaluate) (returns noSection).
Proof.
  apply triple_onPage.
  - intros q _. split; [ reflexivity | ]. intros w.
    destruct (H_ok Dom (OnPage q Evaluate) w) as (d & Hd). rewrite Hd. exists d.
    split; [ reflexivity | ]. eapply H_nomatch; eassumption.
  - discriminate.
Qed.

Lemma getSelf_returns : triple Inv (getSelf W) (returns anything).
Proof.
  apply triple_getSelf. intros s _. exists s. split; [ reflexivity | exact Logic.I ].
Qed.

Lemma now_returns : triple Inv (now W clock) (returns anything).
Proof.
  apply triple_now. intros iso. exists iso. split; [ reflexivity | exact Logic.I ].
Qed.

Lemma setBest_returns b : triple Inv (setBest W b) (returns anything).
Proof.
  apply triple_setBest. exists tt. split; [ reflexivity | exact Logic.I ].
Qed.

Lemma caught_returns {A : Type} (m : M W A) (a : A) :
  triple Inv m anyOutcome ->
  triple Inv (try_catch m (fun _ => ret a)) (returns anything).
Proof.
  intros Hm. apply triple_try_catch_returns; [ exact Hm | ].
  intros e. apply ret_anything.
Qed.

Ltac quiet_step :=
  lazymatch goal with
  | |- triple _ (bind _ _) anyOutcome => apply triple_bind_any; [ | intros ? ]
  | |- triple _ (try_catch _ _) anyOutcome => apply triple_try_catch_any; [ | intros ? ]
  | |- triple _ (ret _) anyOutcome => apply triple_ret; exact Logic.I
  | |- triple _ (onPage _ _ _) anyOutcome =>
      apply triple_onPage_any; intros ? ?; reflexivity
  | |- triple _ (call _ _ _) anyOutcome =>
      apply triple_call; [ reflexivity | intros; exact Logic.I ]
  | |- triple _ (if ?b then _ else _) anyOutcome => destruct b
  | |- triple _ (match ?x with _ => _ end) anyOutcome => destruct x
  end.

Ltac returns_step :=
  lazymatch goal with
  | |- triple _ (bind _ _) (returns _) => apply bind_anything; [ | intros ? ]
  | |- triple _ (ret _) (returns anything) => apply ret_anything
  | |- triple _ (onPage _ _ _) (returns anything) => apply onPage_returns
  | |- triple _ (getSelf _) (returns anything) => apply getSelf_returns
  | |- triple _ (now _ _) (returns anything) => apply now_returns
  | |- triple _ (setBest _ _) (returns anything) => apply setBest_returns
  | |- triple _ (try_catch _ (fun _ => ret _)) (returns anything) =>
      apply caught_returns
  | |- triple _ (if ?b then _ else _) _ => destruct b
  | |- triple _ (match ?x with _ => _ end) _ => destruct x
  end.

Lemma handleCloudflareProtection_returns :
  triple Inv (handleCloudflareProtection W handle) (returns anything).
Proof.
  unfold handleCloudflareProtection. apply caught_returns. repeat quiet_step.
Qed.

Lemma handleCookies_returns :
  triple Inv (handleCookies W handle) (returns anything).
Proof.
  unfold handleCookies. apply caught_returns.
  apply triple_bind_any; [ quiet_step | intros _ ].
  apply triple_bind_any.
  - apply tryCookieSelectors_any; first [ apply anyEvent_page | reflexivity ].
  - intros accepted. repeat quiet_step.
Qed.

Lemma updateBest_returns info y step :
  triple Inv (updateBest W info y step) (returns anything).
Proof. unfold updateBest. repeat returns_step. Qed.

Lemma extractItemsFromCurrentViewport_returns siteName n :
  triple Inv (extractItemsFromCurrentViewport W handle siteName n)
         (returns (fun items => items = [])).
Proof.
  unfold extractItemsFromCurrentViewport.
  eapply triple_bind_returns; [ apply evaluate_returns | ].
  intros d [Hd _]. apply triple_ret. eexists; split; [ reflexivity | ].
  unfold extractItemsFromCurrentViewport_page. rewrite Hd. reflexivity.
Qed.

Lemma sampleStep_returns site ts vh step :
  triple Inv (sampleStep W handle site ts vh step)
         (returns (fun r => snd r = [])).
Proof.
  unfold sampleStep.
  do 5 (apply bind_anything; [ returns_step | intros ? ]).
  apply bind_anything; [ apply updateBest_returns | intros _ ].
  eapply triple_bind_returns;
    [ apply extractItemsFromCurrentViewport_returns | ].
  intros items ->. apply triple_ret. eexists; split; reflexivity.
Qed.

Lemma sampleSteps_returns site ts vh : forall steps shots items,
  triple Inv (sampleSteps W handle site ts vh steps shots items)
         (returns (fun r => snd r = items)).
Proof.
  induction steps as [|step steps IH]; intros shots items; simpl.
  - apply triple_ret. eexists; split; reflexivity.
  - eapply triple_bind_returns; [ apply sampleStep_returns | ].
    intros r Hr. rewrite Hr, app_nil_r. apply IH.
Qed.

Lemma extractMenuFromScreenshot_returns path site bestViewport :
  triple Inv (extractMenuFromScreenshot W handle path site bestViewport)
         (returns (fun items => items = [])).
Proof.
  unfold extractMenuFromScreenshot. apply triple_try_returns.
  apply bind_anything; [ repeat returns_step | intros _ ].
  eapply triple_bind_returns; [ apply evaluate_returns | ].
  intros d [_ Hd].
  apply bind_anything; [ returns_step | intros _ ].
  apply triple_ret. eexists; split; [ reflexivity | ].
  unfold extractMenuFromScreenshot_page. rewrite Hd. reflexivity.
Qed.

Lemma scrapeRestaurant_try_returns site :
  triple Inv (scrapeRestaurant_try W handle clock site) (returns noMenuData).
Proof.
  unfold scrapeRestaurant_try.
  apply bind_anything; [ returns_step | intros _ ].
  apply bind_anything; [ returns_step | intros s ].
  apply bind_anything; [ returns_step | intros _ ].
  apply bind_anything; [ apply handleCloudflareProtection_returns | intros protected ].
  apply bind_anything.
  { destruct protected; [ | apply ret_anything ].
    apply bind_anything; [ returns_step | intros _ ].
    apply caught_returns. quiet_step. }
  intros _.
  apply bind_anything; [ apply handleCookies_returns | intros _ ].
  apply bind_anything.
  { destruct (truthy (customScript site)); [ | apply ret_anything ].
    apply caught_returns. quiet_step. }
  intros _.
  apply bind_anything.
  { destruct (waitForSelector site) as [[|c sel]|]; returns_step. }
  intros _.
  apply bind_anything.
  { apply caught_returns. repeat quiet_step. }
  intros _.
  do 5 (apply bind_anything; [ returns_step | intros ? ]).
  eapply triple_bind_returns; [ apply sampleSteps_returns | ].
  intros sampled Hsampled. cbv beta. rewrite Hsampled.
  do 3 (apply bind_anything; [ returns_step | intros ? ]).
  eapply triple_bind_returns.
  { apply bind_anything; [ returns_step | intros s' ].
    apply extractMenuFromScreenshot_returns. }
  intros menuData ->.
  apply bind_anything; [ returns_step | intros scrapedAt ].
  apply triple_ret. eexists; split; [ reflexivity | ].
  repeat split.
Qed.

Lemma scrapeRestaurant_no_menu site :
  triple Inv (scrapeRestaurant W handle clock site) (returns noMenuData).
Proof.
  unfold scrapeRestaurant. apply triple_try_returns. apply scrapeRestaurant_try_returns.
Qed.

End NoMenu.

(** C8.  In a run of [scrapeRestaurant] in which nothing throws and no
    document shows a section to either extraction pass, the result has
    [success = true] and an empty item list. *)
Theorem no_menu_is_success :
  forall (W : Type) (handle : forall R : Type, op R -> W -> outcome R * W)
         (clock : W -> jsstring * W) (site : Site) (st : State W) (p : pageId),
    (forall (R : Type) (o : op R) w, exists r, fst (handle R o w) = Ok r) ->
    (forall q w d, fst (handle Dom (OnPage q Evaluate) w) = Ok d -> noSection d) ->
    page (self st) = Some p ->
    exists data st',
      scrapeRestaurant W handle clock site st = (Ok data, st') /\
      sd_success data = true /\
      sd_menuData data = Some [] /\
      sd_itemCount data = Some 0.
Proof.
  intros W handle clock site st p Hok Hnomatch Hp.
  pose proof (since_start anyEvent st) as Hst. rewrite Hp in Hst.
  destruct (scrapeRestaurant_no_menu handle clock p (trace st) Hok Hnomatch site st Hst)
    as (_ & data & Hdata & Hs & Hm & Hc & _).
  destruct (scrapeRestaurant W handle clock site st) as [o st'].
  simpl in Hdata. subst o. exists data, st'. auto.
Qed.

Section QuietBrowser.

Lemma quiet_never_throws :
  forall (R : Type) (o : op R) w, exists r, fst (Demo.quietHandle R o w) = Ok r.
Proof.
  intros R o w. destruct o as [ | | | | | q R o ]; try (eexists; reflexivity).
  destruct o; eexists; reflexivity.
Qed.

Lemma quiet_shows_no_section :
  forall q w d,
    fst (Demo.quietHandle Dom (OnPage q Evaluate) w) = Ok d -> noSection d.
Proof.
  intros q w d H. simpl in H. inversion H; subst d; clear H.
  split; reflexivity.
Qed.

End QuietBrowser.

Lemma no_menu_is_success_witness :
  page (self (Demo.start [Demo.emptySite])) = Some 7 /\
  exists data st',
    scrapeRestaurant Demo.browserState Demo.quietHandle Demo.clock Demo.emptySite
                     (Demo.start [Demo.emptySite]) = (Ok data, st') /\
    sd_success data = true /\
    sd_menuData data = Some [] /\
    sd_itemCount data = Some 0.
Proof.
  split; [ reflexivity | ].
  exact (no_menu_is_success Demo.browserState Demo.quietHandle Demo.clock Demo.emptySite
                            (Demo.start [Demo.emptySite]) 7
                            quiet_never_throws quiet_shows_no_section eq_refl).
Defined.

(** ** The items of a site record *)

Section ItemsInvariant.

Context {W : Type}.
Variable handle : forall R : Type, op R -> W -> outcome R * W.
Variable clock : W -> jsstring * W.
Variable pg : option pageId.
Variable tr0 : list event.
Variable P : MenuItem -> Prop.

Hypothesis P_viewport :
  forall d n it, In it (extractItemsFromCurrentViewport_page d n) -> P it.
Hypothesis P_fallback :
  forall d bv it, In it (extractMenuFromScreenshot_page d bv) -> P it.
Hypothesis P_placeholder : forall path, P (placeholderItem path).

Local Abbreviation Inv := (@since W pg anyEvent tr0).

Lemma bind_any_then {A B : Type} (m : M W A) (k : A -> M W B)
      (Q : outcome B -> Prop) :
  triple Inv m anyOutcome ->
  (forall a, triple Inv (k a) Q) ->
  (forall e, Q (Throw e)) ->
  triple Inv (bind m k) Q.
Proof.
  intros Hm Hk He.
  apply (triple_bind Inv m k anyOutcome Q Hm); [ intros a _; apply Hk | intros e _; apply He ].
Qed.

Lemma onPage_any {R : Type} (o : pageOp R) :
  triple Inv (onPage W handle o) anyOutcome.
Proof. apply triple_onPage_any. reflexivity. Qed.

Lemma extractItems_satisfy siteName n :
  triple Inv (extractItemsFromCurrentViewport W handle siteName n) (itemsSatisfy P).
Proof.
  unfold extractItemsFromCurrentViewport.
  apply bind_any_then; [ apply onPage_any | | intros; exact Logic.I ].
  intros d. apply triple_ret. simpl. apply Forall_forall. intros it. apply P_viewport.
Qed.

Lemma extractMenu_satisfy path site bestViewport :
  triple Inv (extractMenuFromScreenshot W handle path site bestViewport)
         (itemsSatisfy P).
Proof.
  unfold extractMenuFromScreenshot.
  apply (triple_try_catch Inv _ _ (itemsSatisfy P) (itemsSatisfy P)).
  - apply bind_any_then; [ | | intros; exact Logic.I ].
    + destruct bestViewport as [bv|]; [ | apply triple_ret; exact Logic.I ].
      destruct (jseqb (site_name site) (js "Central Pub"));
        [ | apply triple_ret; exact Logic.I ].
      apply triple_bind_any; [ apply onPage_any | intros; apply onPage_any ].
    + intros _. apply bind_any_then; [ apply onPage_any | | intros; exact Logic.I ].
      intros d. apply bind_any_then; [ apply onPage_any | | intros; exact Logic.I ].
      intros _. apply triple_ret. simpl. apply Forall_forall. intros it.
      apply P_fallback.
  - auto.
  - intros e _. apply triple_ret. simpl. constructor; [ apply P_placeholder | constructor ].
Qed.

Lemma sampleStep_satisfies site ts vh step :
  triple Inv (sampleStep W handle site ts vh step) (stepSatisfies P).
Proof.
  unfold sampleStep.
  apply bind_any_then; [ apply onPage_any | intros _ | intros; exact Logic.I ].
  apply bind_any_then; [ apply onPage_any | intros _ | intros; exact Logic.I ].
  apply bind_any_then;
    [ apply triple_getSelf; intros; exact Logic.I | intros s | intros; exact Logic.I ].
  apply bind_any_then; [ apply onPage_any | intros _ | intros; exact Logic.I ].
  apply bind_any_then; [ apply onPage_any | intros d | intros; exact Logic.I ].
  apply bind_any_then;
    [ apply updateBest_any | intros _ | intros; exact Logic.I ].
  apply (triple_bind Inv _ _ (itemsSatisfy P) (stepSatisfies P)
                     (extractItems_satisfy _ _)).
  - intros items Hitems. apply triple_ret. exact Hitems.
  - intros; exact Logic.I.
Qed.

Lemma sampleSteps_satisfy site ts vh : forall steps shots items,
  Forall P items ->
  triple Inv (sampleSteps W handle site ts vh steps shots items) (sampledSatisfy P).
Proof.
  induction steps as [|step steps IH]; intros shots items Hitems; simpl.
  - apply triple_ret. exact Hitems.
  - apply (triple_bind Inv _ _ (stepSatisfies P) (sampledSatisfy P)
                       (sampleStep_satisfies _ _ _ _)).
    + intros r Hr. apply IH. apply Forall_app. split; assumption.
    + intros; exact Logic.I.
Qed.

Lemma scrapeRestaurant_try_satisfies site :
  triple Inv (scrapeRestaurant_try W handle clock site) (menuDataSatisfies P).
Proof.
  unfold scrapeRestaurant_try.
  apply bind_any_then;
    [ apply triple_setBest; exact Logic.I | intros _ | intros; exact Logic.I ].
  apply bind_any_then;
    [ apply triple_getSelf; intros; exact Logic.I | intros s | intros; exact Logic.I ].
  apply bind_any_then; [ apply onPage_any | intros _ | intros; exact Logic.I ].
  apply bind_any_then;
    [ apply handleCloudflareProtection_any; reflexivity
    | intros protected | intros; exact Logic.I ].
  apply bind_any_then; [ | intros _ | intros; exact Logic.I ].
  { destruct protected; [ | apply triple_ret; exact Logic.I ].
    apply triple_bind_any; [ apply onPage_any | intros _ ].
    apply triple_try_catch_any;
      [ apply onPage_any | intros; apply triple_ret; exact Logic.I ]. }
  apply bind_any_then;
    [ apply handleCookies_any; reflexivity | intros _ | intros; exact Logic.I ].
  apply bind_any_then; [ | intros _ | intros; exact Logic.I ].
  { destruct (truthy (customScript site)); [ | apply triple_ret; exact Logic.I ].
    apply triple_try_catch_any;
      [ apply triple_call; [ reflexivity | intros; exact Logic.I ]
      | intros; apply triple_ret; exact Logic.I ]. }
  apply bind_any_then; [ | intros _ | intros; exact Logic.I ].
  { destruct (waitForSelector site) as [[|c sel]|];
      first [ apply onPage_any | apply triple_ret; exact Logic.I ]. }
  apply bind_any_then; [ | intros _ | intros; exact Logic.I ].
  { apply triple_try_catch_any; [ | intros; apply triple_ret; exact Logic.I ].
    apply triple_bind_any; [ apply onPage_any | intros; apply onPage_any ]. }
  apply bind_any_then;
    [ apply triple_now; intros; exact Logic.I | intros iso | intros; exact Logic.I ].
  apply bind_any_then; [ apply onPage_any | intros d1 | intros; exact Logic.I ].
  apply bind_any_then; [ apply onPage_any | intros d2 | intros; exact Logic.I ].
  apply bind_any_then; [ apply onPage_any | intros _ | intros; exact Logic.I ].
  apply bind_any_then; [ apply onPage_any | intros _ | intros; exact Logic.I ].
  apply (triple_bind Inv _ _ (sampledSatisfy P) (menuDataSatisfies P)
                     (sampleSteps_satisfy _ _ _ _ _ _ (Forall_nil P)));
    [ | intros; exact Logic.I ].
  intros sampled Hsampled. cbv beta.
  apply bind_any_then; [ apply onPage_any | intros _ | intros; exact Logic.I ].
  apply bind_any_then; [ apply onPage_any | intros _ | intros; exact Logic.I ].
  apply bind_any_then; [ apply onPage_any | intros _ | intros; exact Logic.I ].
  apply (triple_bind Inv _ _ (itemsSatisfy P) (menuDataSatisfies P)).
  - simpl in Hsampled. destruct (snd sampled) as [|it items].
    + apply bind_any_then;
        [ apply triple_getSelf; intros; exact Logic.I
        | intros s'; apply extractMenu_satisfy | intros; exact Logic.I ].
    + apply triple_ret. exact Hsampled.
  - intros menuData HmenuData.
    apply bind_any_then;
      [ apply triple_now; intros; exact Logic.I | | intros; exact Logic.I ].
    intros scrapedAt. apply triple_ret. exact HmenuData.
  - intros; exact Logic.I.
Qed.

Lemma scrapeRestaurant_satisfies site :
  triple Inv (scrapeRestaurant W handle clock site) (menuDataSatisfies P).
Proof.
  unfold scrapeRestaurant.
  apply (triple_try_catch Inv _ _ (menuDataSatisfies P) (menuDataSatisfies P)
                          (scrapeRestaurant_try_satisfies site)).
  - auto.
  - intros e _. apply triple_ret. exact Logic.I.
Qed.

End ItemsInvariant.

(** The invariants of the item parser (C1 as amended, C2) hold for every
    item of every record [scrapeRestaurant] returns, whatever the browser
    does: the items of the sampling rounds, those of the fallback pass, and
    the placeholder item left when the fallback pass throws. *)
Theorem menuData_wellformed :
  forall (W : Type) (handle : forall R : Type, op R -> W -> outcome R * W)
         (clock : W -> jsstring * W) (site : Site) (st st' : State W)
         (data : SiteData) (items : list MenuItem),
    scrapeRestaurant W handle clock site st = (Ok data, st') ->
    sd_menuData data = Some items ->
    Forall wellFormedItem items.
Proof.
  intros W handle clock site st st' data items Hrun Hitems.
  assert (Hparsed : forall minLength dflt t vp item it,
             parseListItem minLength dflt t vp item = Some it -> wellFormedItem it).
  { intros m dflt t vp item it Hp.
    apply parseListItem_inv in Hp. destruct Hp as (c & Hc & Hacc & Hname & Hprice & _).
    apply nameAccepted_spec in Hacc. destruct Hacc as [Hlen Heur].
    apply candidateOf_price in Hc. destruct Hc as (cleanText & Hc).
    unfold wellFormedItem. rewrite Hname, Hprice, Hc.
    repeat split; try assumption.
    destruct (priceOf_shape cleanText) as [Hs | (q & a & Hq & Ha & Hs)];
      [ left; assumption | right; rewrite Hs; apply re_money_accepts; assumption ]. }
  assert (H : menuDataSatisfies wellFormedItem
                                (fst (scrapeRestaurant W handle clock site st))).
  { apply (scrapeRestaurant_satisfies handle clock (page (self st)) (trace st)
                                      wellFormedItem).
    - intros d n it Hin. apply extractFromSection_In in Hin.
      destruct Hin as (t & item & Hp). eapply Hparsed; eauto.
    - intros d bv it Hin. apply extractFromSection_In in Hin.
      destruct Hin as (t & item & Hp). eapply Hparsed; eauto.
    - intros path. unfold wellFormedItem, placeholderItem. simpl.
      repeat split; [ lia | left; reflexivity ].
    - apply since_start. }
  rewrite Hrun in H. simpl in H. rewrite Hitems in H. exact H.
Qed.

(** * Further properties of the code *)

(** ** Item parser: whether a match exists does not depend on captures *)

Section CapturesIrrelevant.

Lemma same_input_refl s : same_input s s.
Proof. split; reflexivity. Qed.

Lemma same_input_set_cap s s' n w n' w' :
  same_input s s' -> same_input (set_cap n w s) (set_cap n' w' s').
Proof. unfold same_input, set_cap. simpl. auto. Qed.

Lemma star_loop_caps_irrelevant a :
  caps_irrelevant_at a ->
  forall fuel k k' st st',
    same_input st st' -> succeeds_like k k' ->
    star_loop (rmatch a) k fuel st <> None ->
    star_loop (rmatch a) k' fuel st' <> None.
Proof.
  intros IHa. induction fuel as [|f IHf]; intros k k' st st' Hst Hk H; simpl in *.
  - eapply Hk; eauto.
  - destruct (rmatch a (fun s1 => if pos s1 =? pos st then None
                                  else star_loop (rmatch a) k f s1) st) eqn:E.
    + assert (Hne : rmatch a (fun s1 => if pos s1 =? pos st' then None
                                        else star_loop (rmatch a) k' f s1) st' <> None).
      { apply (IHa (fun s1 => if pos s1 =? pos st then None
                              else star_loop (rmatch a) k f s1)
                   (fun s1 => if pos s1 =? pos st' then None
                              else star_loop (rmatch a) k' f s1) st st' Hst);
          [ | rewrite E; discriminate ].
        intros s1 s1' Hs1. destruct Hst as [Hp _]. destruct Hs1 as [Hp1 Hr1].
        rewrite <- Hp, <- Hp1.
        destruct (pos s1 =? pos st); [ congruence | ].
        apply IHf; [ split; assumption | assumption ]. }
      destruct (rmatch a _ st'); [ discriminate | contradiction ].
    + destruct (rmatch a _ st'); [ discriminate | ]. eapply Hk; eauto.
Qed.

Lemma rmatch_caps_irrelevant r : caps_irrelevant_at r.
Proof.
  induction r; intros k k' st st' Hst Hk H.
  - simpl in *. eapply Hk; eauto.
  - simpl in *. destruct Hst as [Hp Hr]. rewrite <- Hr.
    destruct (rest st) as [|c tl]; [ contradiction | ].
    destruct (p c); [ | contradiction ].
    apply (Hk (advance st tl)); [ | assumption ].
    unfold advance; split; simpl; congruence.
  - simpl in *. apply (IHr1 _ _ st st' Hst (fun s s' Hs => IHr2 k k' s s' Hs Hk) H).
  - simpl in *. destruct (rmatch r1 k st) eqn:E1.
    + assert (Hne : rmatch r1 k' st' <> None)
        by (apply (IHr1 k k' st st' Hst Hk); rewrite E1; discriminate).
      destruct (rmatch r1 k' st'); [ discriminate | contradiction ].
    + destruct (rmatch r1 k' st'); [ discriminate | ].
      apply (IHr2 k k' st st' Hst Hk H).
  - destruct Hst as [Hp Hr].
    change (star_loop (rmatch r) k' (S (length (rest st'))) st' <> None).
    rewrite <- Hr.
    apply (star_loop_caps_irrelevant r IHr (S (length (rest st))) k k' st st');
      [ split; assumption | assumption | exact H ].
  - simpl in *.
    destruct (rmatch r (fun s1 => if pos s1 =? pos st then None else k s1) st) eqn:E.
    + assert (Hne : rmatch r (fun s1 => if pos s1 =? pos st' then None else k' s1) st'
                    <> None).
      { apply (IHr (fun s1 => if pos s1 =? pos st then None else k s1)
                   (fun s1 => if pos s1 =? pos st' then None else k' s1) st st' Hst);
          [ | rewrite E; discriminate ].
        intros s1 s1' Hs1. destruct Hst as [Hp _]. destruct Hs1 as [Hp1 Hr1].
        rewrite <- Hp, <- Hp1.
        destruct (pos s1 =? pos st); [ congruence | ].
        apply Hk. split; assumption. }
      destruct (rmatch r _ st'); [ discriminate | contradiction ].
    + destruct (rmatch r _ st'); [ discriminate | ]. eapply Hk; eauto.
  - simpl in *. revert H. apply (IHr _ _ st st' Hst).
    intros s1 s1' Hs1. apply Hk. apply same_input_set_cap. assumption.
  - simpl in *. pose proof Hst as [Hp Hr]. rewrite <- Hp.
    destruct (pos st =? 0); [ | contradiction ].
    apply (Hk st st' Hst H).
  - simpl in *. pose proof Hst as [Hp Hr]. rewrite <- Hr.
    destruct (rest st); [ | contradiction ].
    apply (Hk st st' Hst H).
Qed.

(** If one pattern matches wherever another does, [exec] finds a match
    of it whenever it finds one of the other. *)
Lemma search_transfer re1 re2 :
  (forall i sfx, rmatch re1 Some (MState i sfx []) <> None ->
                 rmatch re2 Some (MState i sfx []) <> None) ->
  forall sfx i, search re1 i sfx <> None -> search re2 i sfx <> None.
Proof.
  intros Himp. induction sfx as [|c tl IH]; intros i H; simpl in *.
  - destruct (rmatch re1 Some (MState i [] [])) eqn:E1; [ | contradiction ].
    assert (Hne : rmatch re2 Some (MState i [] []) <> None)
      by (apply Himp; rewrite E1; discriminate).
    destruct (rmatch re2 Some (MState i [] [])); [ discriminate | contradiction ].
  - destruct (rmatch re1 Some (MState i (c :: tl) [])) eqn:E1.
    + assert (Hne : rmatch re2 Some (MState i (c :: tl) []) <> None)
        by (apply Himp; rewrite E1; discriminate).
      destruct (rmatch re2 Some (MState i (c :: tl) [])); [ discriminate | contradiction ].
    + destruct (rmatch re2 Some (MState i (c :: tl) [])); [ discriminate | ].
      apply IH. assumption.
Qed.

Lemma some_succeeds_like : succeeds_like Some Some.
Proof. intros s s' _ _. discriminate. Qed.

Lemma rmatch_transfer r k k' st st' :
  same_input st st' -> succeeds_like k k' ->
  rmatch r k st <> None -> rmatch r k' st' <> None.
Proof. apply rmatch_caps_irrelevant. Qed.

Lemma rmatch_group n a k st :
  rmatch (Group n a) k st
  = rmatch a (fun st' => k (set_cap n (firstn (pos st' - pos st) (rest st)) st')) st.
Proof. reflexivity. Qed.

Lemma rmatch_eps k st : rmatch Eps k st = k st.
Proof. reflexivity. Qed.

(** Where the first price pattern matches, so does the second. *)
Lemma pricePattern_where_priceMatch i sfx :
  rmatch re_priceMatch Some (MState i sfx []) <> None ->
  rmatch pricePattern Some (MState i sfx []) <> None.
Proof.
  intros H. unfold pricePattern, seqs. cbn [fold_right].
  rewrite rmatch_seq.
  change (rmatch (Opt ?g) ?k ?st)
    with (match rmatch g (fun st' => if pos st' =? pos st then None else k st') st with
          | Some r => Some r
          | None => k st
          end).
  match goal with
  | |- match ?x with _ => _ end <> None => destruct x; [ discriminate | ]
  end.
  unfold re_priceMatch, seqs in H. cbn [fold_right] in H.
  rewrite rmatch_group, rmatch_seq in H.
  rewrite rmatch_seq, rmatch_group, rmatch_seq.
  revert H.
  apply rmatch_transfer; [ apply same_input_refl | ].
  intros s1 s1' Hs1 H1. rewrite rmatch_seq in H1. rewrite rmatch_seq.
  revert H1. apply rmatch_transfer; [ assumption | ].
  intros s2 s2' Hs2 H2. rewrite rmatch_seq in H2. rewrite rmatch_seq.
  revert H2. apply rmatch_transfer; [ assumption | ].
  intros s3 s3' Hs3 H3. rewrite rmatch_seq in H3. rewrite rmatch_eps, rmatch_seq.
  revert H3.
  apply rmatch_transfer.
  - destruct Hs3. split; simpl; assumption.
  - intros s4 s4' Hs4 H4. rewrite rmatch_seq in H4. rewrite rmatch_seq.
    revert H4. apply rmatch_transfer; [ assumption | ].
    intros s5 s5' Hs5 _. rewrite rmatch_eps. discriminate.
Qed.

End CapturesIrrelevant.

(** ** Item parser: the price of an emitted item *)

Section ParserPrices.

Lemma exec_pricePattern cleanText :
  exec re_priceMatch cleanText <> None -> exec pricePattern cleanText <> None.
Proof. unfold exec. apply search_transfer. exact pricePattern_where_priceMatch. Qed.

Lemma priceOf_matched cleanText :
  exec pricePattern cleanText <> None ->
  exists qualifier amount,
    (qualifier = [] \/ qualifier = js "od ") /\
    amountText amount /\
    priceOf cleanText = qualifier ++ amount ++ js " €".
Proof.
  intros Hne. unfold priceOf.
  destruct (exec pricePattern cleanText) as [m|] eqn:E; [ | contradiction ].
  apply search_sound in E.
  destruct E as (sfx & w & st' & Hm & _ & Hcaps & _).
  destruct (pricePattern_captures (MState (m_index m) sfx []) w st' eq_refl Hm)
    as (amount & Ham & H2 & H1).
  unfold group. rewrite Hcaps, H2.
  destruct H1 as [H1 | (c & w1 & H1)]; rewrite H1.
  - exists [], amount. auto.
  - exists (js "od "), amount. auto.
Qed.

Lemma money_not_NA qualifier amount :
  (qualifier = [] \/ qualifier = js "od ") -> amountText amount ->
  qualifier ++ amount ++ js " €" <> js "N/A".
Proof.
  intros [-> | ->] (ds1 & ds2 & Hne & _ & Hd & _ & ->) E.
  - destruct ds1 as [|c ds1]; [ congruence | ].
    simpl in Hd. apply andb_true_iff in Hd. destruct Hd as [Hc _].
    simpl in E. injection E as Ec _. subst c. vm_compute in Hc. discriminate Hc.
  - vm_compute in E. discriminate E.
Qed.

Lemma candidateOf_priced minLength dflt item c :
  candidateOf minLength dflt item = Some c ->
  exists qualifier amount,
    (qualifier = [] \/ qualifier = js "od ") /\
    amountText amount /\
    c_price c = qualifier ++ amount ++ js " €".
Proof.
  unfold candidateOf.
  destruct (_ || _ || _ || _ || _); [ discriminate | ].
  destruct (includes _ _); [ | discriminate ].
  destruct (exec re_priceMatch _) eqn:E; [ | discriminate ].
  intros H. inversion H; subst c; clear H. simpl.
  apply priceOf_matched. apply exec_pricePattern. rewrite E. discriminate.
Qed.

End ParserPrices.

(** X1.  An item emitted by either extraction pass always carries a money
    price: the entry was only parsed because [/(\d+,\d+\s*€)/] matched its
    text, and wherever that pattern matches so does the price pattern
    [/(od\s+)?(\d+,\d+)\s*€/], so the "N/A" branch of lines 506-510 and
    706-710 is never taken for an item that is emitted. *)
Theorem emitted_price_never_missing :
  forall (d : Dom) (viewportNumber : nat) (bestViewport : option BestViewport)
         (it : MenuItem),
    In it (extractItemsFromCurrentViewport_page d viewportNumber) \/
    In it (extractMenuFromScreenshot_page d bestViewport) ->
    price it <> js "N/A" /\ test re_money (price it) = true.
Proof.
  intros d n bv it Hin.
  destruct (emitted_from_parser _ _ _ _ Hin) as (m & dflt & t & vp & item & Hp).
  apply parseListItem_inv in Hp. destruct Hp as (c & Hc & _ & _ & Hprice & _).
  apply candidateOf_priced in Hc. destruct Hc as (q & a & Hq & Ha & Hc).
  rewrite Hprice, Hc. split.
  - apply money_not_NA; assumption.
  - apply re_money_accepts; assumption.
Qed.

Lemma emitted_price_never_missing_witness :
  In Demo.oneDecimalItem (extractMenuFromScreenshot_page Demo.oneDecimal None
                          ++ extractItemsFromCurrentViewport_page Demo.oneDecimal 1) /\
  price Demo.oneDecimalItem <> js "N/A" /\
  test re_money (price Demo.oneDecimalItem) = true.
Proof.
  assert (Hin : In Demo.oneDecimalItem
                   (extractItemsFromCurrentViewport_page Demo.oneDecimal 1))
    by (vm_compute; left; reflexivity).
  split; [ apply in_or_app; right; exact Hin | ].
  exact (emitted_price_never_missing Demo.oneDecimal 1 None Demo.oneDecimalItem
           (or_introl Hin)).
Defined.

(** ** Item parser: the texts of an emitted item *)

Section ParserTexts.

Lemma trimStart_begins s : begins_with_space (trimStart s) = false.
Proof.
  induction s as [|c s IH]; simpl; [ reflexivity | ].
  destruct (is_space c) eqn:E; [ exact IH | simpl; exact E ].
Qed.

Lemma trimStart_snoc l c :
  is_space c = false -> trimStart (l ++ [c]) = trimStart l ++ [c].
Proof.
  intros Hc. induction l as [|a l IH]; simpl.
  - rewrite Hc. reflexivity.
  - destruct (is_space a); [ exact IH | reflexivity ].
Qed.

Lemma trimEnd_cons c tl :
  is_space c = false -> trimEnd (c :: tl) = c :: trimEnd tl.
Proof.
  intros Hc. unfold trimEnd. simpl rev.
  rewrite (trimStart_snoc _ _ Hc), rev_app_distr. reflexivity.
Qed.

Lemma trimEnd_ends s : ends_with_space (trimEnd s) = false.
Proof.
  unfold ends_with_space, trimEnd. rewrite rev_involutive. apply trimStart_begins.
Qed.

Lemma trimEnd_begins s :
  begins_with_space s = false -> begins_with_space (trimEnd s) = false.
Proof.
  destruct s as [|c tl]; [ reflexivity | ]. simpl. intros Hc.
  rewrite (trimEnd_cons _ _ Hc). exact Hc.
Qed.

Lemma trim_begins s : begins_with_space (trim s) = false.
Proof. unfold trim. apply trimEnd_begins, trimStart_begins. Qed.

Lemma trim_ends s : ends_with_space (trim s) = false.
Proof. unfold trim. apply trimEnd_ends. Qed.

(** A text that begins and ends with something else than white space is
    left alone by [trim]. *)
Lemma trimStart_id s : begins_with_space s = false -> trimStart s = s.
Proof. destruct s as [|c tl]; simpl; [ reflexivity | intros ->; reflexivity ]. Qed.

Lemma trim_id s :
  begins_with_space s = false -> ends_with_space s = false -> trim s = s.
Proof.
  intros Hb He. unfold trim, trimEnd. rewrite (trimStart_id _ Hb).
  rewrite (trimStart_id _ He). apply rev_involutive.
Qed.

Lemma trim_idempotent s : trim (trim s) = trim s.
Proof. apply trim_id; [ apply trim_begins | apply trim_ends ]. Qed.

Lemma candidateOf_texts minLength dflt item c :
  candidateOf minLength dflt item = Some c ->
  begins_with_space (c_name c) = false /\
  ends_with_space (c_name c) = false /\
  (tidy dflt -> tidy (c_description c)).
Proof.
  unfold candidateOf.
  destruct (_ || _ || _ || _ || _); [ discriminate | ].
  destruct (includes _ _); [ | discriminate ].
  destruct (exec re_priceMatch _) eqn:E; [ | discriminate ].
  intros H. inversion H; subst c; clear H.
  cbn [c_name c_description]. unfold cleanName, descriptionOf.
  split; [ apply trim_begins | split; [ apply trim_ends | ] ].
  intros Hd. unfold orElse.
  match goal with
  | |- tidy (match ?t with _ => _ end) => destruct t as [|x l] eqn:Et
  end; [ exact Hd | ].
  rewrite <- Et.
  split; [ rewrite Et; discriminate | split; [ apply trim_begins | apply trim_ends ] ].
Qed.

(** The fields of an emitted item that do not come from the list entry. *)
Lemma parseListItem_fields minLength dflt sectionText vp item it :
  parseListItem minLength dflt sectionText vp item = Some it ->
  category it = categoryOf sectionText /\
  viewport it = Some vp /\
  source it = Some (js "daily-menu-section") /\
  screenshot it = true.
Proof.
  unfold parseListItem.
  destruct (candidateOf minLength dflt item) as [c|]; [ | discriminate ].
  destruct (nameAccepted (c_name c)); [ | discriminate ].
  intros H. inversion H; subst it; clear H. simpl. auto.
Qed.

Lemma categoryOf_nonempty t : categoryOf t <> [].
Proof.
  unfold categoryOf, orElse.
  destruct (exec re_category t) as [m|]; [ destruct (m_text m) | ];
    first [ discriminate | vm_compute; discriminate ].
Qed.

Lemma parseListItem_tidy minLength dflt sectionText vp item it :
  tidy dflt ->
  parseListItem minLength dflt sectionText vp item = Some it ->
  tidy (name it) /\ tidy (description it) /\ category it <> [].
Proof.
  intros Hd Hp.
  destruct (parseListItem_fields _ _ _ _ _ _ Hp) as (Hcat & _).
  apply parseListItem_inv in Hp.
  destruct Hp as (c & Hc & Hacc & Hname & _ & Hdesc).
  apply candidateOf_texts in Hc. destruct Hc as (Hb & He & Hdescr).
  apply nameAccepted_spec in Hacc. destruct Hacc as [Hlen _].
  rewrite Hname, Hdesc, Hcat.
  split; [ | split; [ auto | apply categoryOf_nonempty ] ].
  split; [ | auto ]. intros Hnil. rewrite Hnil in Hlen. simpl in Hlen. lia.
Qed.

End ParserTexts.

(** X2.  The name and the description of an item emitted by either
    extraction pass are not empty and neither begin nor end with white
    space (both are results of [trim], the description falling back to the
    pass's default text), and its category is not empty. *)
Theorem emitted_texts_tidy :
  forall (d : Dom) (viewportNumber : nat) (bestViewport : option BestViewport)
         (it : MenuItem),
    In it (extractItemsFromCurrentViewport_page d viewportNumber) \/
    In it (extractMenuFromScreenshot_page d bestViewport) ->
    tidy (name it) /\ tidy (description it) /\ category it <> [].
Proof.
  intros d n bv it [Hin | Hin]; apply extractFromSection_In in Hin;
    destruct Hin as (t & item & Hp);
    apply (parseListItem_tidy _ _ _ _ _ _) in Hp; try exact Hp;
    (split; [ vm_compute; discriminate | split; vm_compute; reflexivity ]).
Qed.

Lemma emitted_texts_tidy_witness :
  In Demo.oneDecimalItem (extractItemsFromCurrentViewport_page Demo.oneDecimal 1) /\
  tidy (name Demo.oneDecimalItem) /\ tidy (description Demo.oneDecimalItem).
Proof.
  assert (Hin : In Demo.oneDecimalItem
                   (extractItemsFromCurrentViewport_page Demo.oneDecimal 1)).
  { vm_compute. left. reflexivity. }
  split; [ exact Hin | ].
  destruct (emitted_texts_tidy Demo.oneDecimal 1 None Demo.oneDecimalItem
              (or_introl Hin)) as (Hn & Hd & _).
  split; assumption.
Defined.

(** ** Item parser: category and step *)

Section ParserCategory.

(** Where [exec] finds its match. *)
Lemma search_locates re : forall suffix i m,
  search re i suffix = Some m ->
  exists pre post, suffix = pre ++ m_text m ++ post /\ m_index m = i + length pre.
Proof.
  induction suffix as [|c tl IH]; intros i m H; simpl in H.
  - destruct (rmatch re Some (MState i [] [])) as [st|] eqn:E; [ | discriminate ].
    inversion H; subst m; clear H. simpl.
    exists [], []. rewrite firstn_nil. simpl. split; [ reflexivity | lia ].
  - destruct (rmatch re Some (MState i (c :: tl) [])) as [st|] eqn:E.
    + inversion H; subst m; clear H. simpl m_text. simpl m_index.
      apply rmatch_sound in E. destruct E as (w & st' & Hm & Hk).
      inversion Hk; subst st'; clear Hk.
      pose proof (matches_captured _ _ _ _ Hm) as Hw. simpl in Hw.
      apply matches_consumes in Hm. simpl in Hm. destruct Hm as [Hr _].
      exists [], (rest st). rewrite Hw. simpl. split; [ exact Hr | lia ].
    + apply IH in H. destruct H as (pre & post & Htl & Hi).
      exists (c :: pre), post. simpl. split; [ congruence | lia ].
Qed.

Lemma exec_occurs re s m : exec re s = Some m -> occursIn (m_text m) s.
Proof.
  intros H. apply search_locates in H. destruct H as (pre & post & Hs & _).
  exists pre, post. exact Hs.
Qed.

Lemma categoryOf_occurs t :
  categoryOf t = js "Daily Menu" \/ occursIn (categoryOf t) t.
Proof.
  unfold categoryOf, orElse.
  destruct (exec re_category t) as [m|] eqn:E; [ | left; reflexivity ].
  destruct (m_text m) as [|c w] eqn:Hw; [ left; reflexivity | right ].
  rewrite <- Hw. eapply exec_occurs; eauto.
Qed.

Lemma findSection_extract_In patterns d el :
  findSection_extract patterns d = Some el -> In el (dom_elements d).
Proof.
  unfold findSection_extract.
  destruct (filter_some _) as [|x l] eqn:E; simpl; [ discriminate | ].
  intros H. inversion H; subst x; clear H.
  assert (Hin : In el (filter_some
                         (map (fun s => find (sectionTest patterns)
                                             (querySelectorAll [s] d)) allSelectors)))
    by (rewrite E; left; reflexivity).
  apply In_filter_some in Hin. apply in_map_iff in Hin.
  destruct Hin as (s & Hf & _). apply find_some in Hf. destruct Hf as [Hf _].
  unfold querySelectorAll in Hf. apply filter_In in Hf. tauto.
Qed.

Lemma extractFromSection_inv minLength dflt vp d sec it :
  In it (extractFromSection minLength dflt vp d (Some sec)) ->
  exists item,
    In item (el_items sec) /\ itemVisible d item = true /\
    parseListItem minLength dflt (el_textContent sec) vp item = Some it.
Proof.
  simpl. intros H. apply In_filter_some in H. apply in_map_iff in H.
  destruct H as (item & Hp & Hin). apply filter_In in Hin.
  exists item. tauto.
Qed.

Lemma extractFromSection_uniform minLength dflt vp d sec :
  uniformItems (extractFromSection minLength dflt vp d sec).
Proof.
  destruct sec as [sec|]; [ | intros it it' [] ].
  intros it it' H H'.
  apply extractFromSection_inv in H, H'.
  destruct H as (item & _ & _ & H). destruct H' as (item' & _ & _ & H').
  apply parseListItem_fields in H, H'.
  destruct H as (-> & -> & -> & _). destruct H' as (-> & -> & -> & _). auto.
Qed.

Lemma extractFromSection_categories minLength dflt vp patterns d :
  categoriesFrom d (extractFromSection minLength dflt vp d
                                       (findSection_extract patterns d)).
Proof.
  destruct (findSection_extract patterns d) as [sec|] eqn:Hsec; [ | intros it [] ].
  intros it H. apply extractFromSection_inv in H.
  destruct H as (item & _ & _ & H). apply parseListItem_fields in H.
  destruct H as (-> & _).
  destruct (categoryOf_occurs (el_textContent sec)) as [Hd | Ho]; [ left; exact Hd | ].
  right. exists sec. split; [ | exact Ho ].
  eapply findSection_extract_In; eauto.
Qed.

End ParserCategory.

(** X3.  The category is a property of the section, not of the list
    entry: all items of one pass carry the same category, step tag and
    source, and a category is either the default "Daily Menu" or a piece
    of the text of an element of the document (what the category pattern
    matched there, in the page's own spelling). *)
Theorem category_read_off_section :
  forall (d : Dom) (viewportNumber : nat) (bestViewport : option BestViewport),
    uniformItems (extractItemsFromCurrentViewport_page d viewportNumber) /\
    categoriesFrom d (extractItemsFromCurrentViewport_page d viewportNumber) /\
    uniformItems (extractMenuFromScreenshot_page d bestViewport) /\
    categoriesFrom d (extractMenuFromScreenshot_page d bestViewport).
Proof.
  intros d n bv.
  unfold extractItemsFromCurrentViewport_page, extractMenuFromScreenshot_page.
  split; [ apply extractFromSection_uniform | ].
  split; [ apply extractFromSection_categories | ].
  split; [ apply extractFromSection_uniform | apply extractFromSection_categories ].
Qed.

(** ** Item parser: the two passes *)

Section ParserPasses.

Lemma filter_some_In {A : Type} (x : A) (l : list (option A)) :
  In (Some x) l -> In x (filter_some l).
Proof.
  induction l as [|[a|] l IH]; simpl; intros H.
  - contradiction.
  - destruct H as [H | H]; [ inversion H; auto | auto ].
  - destruct H as [H | H]; [ discriminate | auto ].
Qed.

(** A shorter minimum length and another default description change
    nothing but a defaulted description. *)
Lemma candidateOf_shorter m m' dflt dflt' item c :
  m' <= m ->
  candidateOf m dflt item = Some c ->
  exists c',
    candidateOf m' dflt' item = Some c' /\
    c_name c' = c_name c /\ c_price c' = c_price c /\
    (c_description c' = c_description c \/
     c_description c = dflt /\ c_description c' = dflt').
Proof.
  intros Hle. unfold candidateOf.
  destruct (length (trim (li_textContent item)) <? m) eqn:Hm; [ discriminate | ].
  apply Nat.ltb_ge in Hm.
  assert (Hm' : (length (trim (li_textContent item)) <? m') = false)
    by (apply Nat.ltb_ge; lia).
  rewrite Hm'. cbn [orb].
  destruct (_ || _ || _ || _); [ discriminate | ].
  destruct (includes _ _); [ | discriminate ].
  destruct (exec re_priceMatch _) eqn:E; [ | discriminate ].
  intros H. inversion H; subst c; clear H.
  eexists. split; [ reflexivity | ]. cbn [c_name c_price c_description].
  split; [ reflexivity | split; [ reflexivity | ] ].
  unfold descriptionOf, orElse.
  match goal with
  | |- match ?t with _ => _ end = _ \/ _ => destruct t
  end; auto.
Qed.

Lemma parseListItem_shorter m m' dflt dflt' t vp vp' item it :
  m' <= m ->
  parseListItem m dflt t vp item = Some it ->
  exists it',
    parseListItem m' dflt' t vp' item = Some it' /\
    name it' = name it /\ price it' = price it /\ category it' = category it /\
    (description it' = description it \/
     description it = dflt /\ description it' = dflt').
Proof.
  intros Hle. unfold parseListItem.
  destruct (candidateOf m dflt item) as [c|] eqn:Hc; [ | discriminate ].
  destruct (candidateOf_shorter m m' dflt dflt' item c Hle Hc)
    as (c' & -> & Hn & Hp & Hd).
  rewrite Hn. destruct (nameAccepted (c_name c)); [ | discriminate ].
  intros H. inversion H; subst it; clear H.
  eexists. split; [ reflexivity | ]. simpl. auto.
Qed.

End ParserPasses.

(** X4.  The fallback pass is the viewport pass with a shorter minimum
    length (5 instead of 15 code units) and another default description:
    on a document where both classifiers pick the same section, every item
    of the viewport pass has a counterpart in the fallback pass with the
    same name, price and category, and with the same description unless
    both are the defaults. *)
Theorem fallback_pass_finds_viewport_items :
  forall (d : Dom) (viewportNumber : nat) (bestViewport : option BestViewport)
         (it : MenuItem),
    findSection_extract dailyMenuPatterns_viewport d
    = findSection_extract dailyMenuPatterns d ->
    In it (extractItemsFromCurrentViewport_page d viewportNumber) ->
    exists it',
      In it' (extractMenuFromScreenshot_page d bestViewport) /\
      name it' = name it /\ price it' = price it /\ category it' = category it /\
      (description it' = description it \/
       description it = js "Daily menu item" /\ description it' = js "Denne menu item").
Proof.
  intros d n bv it Hsame.
  unfold extractItemsFromCurrentViewport_page, extractMenuFromScreenshot_page.
  rewrite Hsame.
  destruct (findSection_extract dailyMenuPatterns d) as [sec|]; [ | intros [] ].
  intros Hin. apply extractFromSection_inv in Hin.
  destruct Hin as (item & Hitem & Hvis & Hp).
  destruct (parseListItem_shorter 15 5 (js "Daily menu item") (js "Denne menu item")
              (el_textContent sec) (VStep n)
              (match bv with
               | Some b => VStep (stepNumber (bv_info b))
               | None => VUnknown
               end) item it ltac:(lia) Hp)
    as (it' & Hp' & Hrest).
  exists it'. split; [ | exact Hrest ].
  simpl. apply filter_some_In. apply in_map_iff. exists item.
  split; [ exact Hp' | ]. apply filter_In. auto.
Qed.

Lemma fallback_pass_finds_viewport_items_witness :
  exists it',
    In it' (extractMenuFromScreenshot_page Demo.oneDecimal None) /\
    name it' = name Demo.oneDecimalItem /\ price it' = price Demo.oneDecimalItem.
Proof.
  assert (Hsame : findSection_extract dailyMenuPatterns_viewport Demo.oneDecimal
                  = findSection_extract dailyMenuPatterns Demo.oneDecimal)
    by (vm_compute; reflexivity).
  assert (Hin : In Demo.oneDecimalItem
                   (extractItemsFromCurrentViewport_page Demo.oneDecimal 1))
    by (vm_compute; left; reflexivity).
  destruct (fallback_pass_finds_viewport_items Demo.oneDecimal 1 None
              Demo.oneDecimalItem Hsame Hin) as (it' & Hin' & Hn & Hp & _).
  exists it'. split; [ exact Hin' | split; [ exact Hn | exact Hp ] ].
Defined.

(** ** Section classifier: the sampling loop and the fallback pass *)

Section ClassifierAgreement.

Lemma find_none_iff {A : Type} (f : A -> bool) l :
  find f l = None <-> forall x, In x l -> f x = false.
Proof.
  split; [ apply find_none | ].
  induction l as [|a l IH]; simpl; intros H; [ reflexivity | ].
  rewrite (H a (or_introl eq_refl)). apply IH. intros x Hx. apply H. right. exact Hx.
Qed.

Lemma hd_error_filter_some_none {A : Type} (l : list (option A)) :
  hd_error (filter_some l) = None <-> forall x, In x l -> x = None.
Proof.
  induction l as [|[a|] l IH]; simpl.
  - split; [ intros _ x [] | reflexivity ].
  - split; [ discriminate | ].
    intros H. specialize (H (Some a) (or_introl eq_refl)). discriminate H.
  - rewrite IH. split; intros H x.
    + intros [<- | Hx]; auto.
    + intros Hx. apply H. right. exact Hx.
Qed.

Lemma querySelectorAll_In sels d el :
  In el (querySelectorAll sels d) <->
  In el (dom_elements d) /\ existsb (fun s => sel_matches s el) sels = true.
Proof. unfold querySelectorAll. apply filter_In. Qed.

(** With the same patterns, the search in document order and the search
    selector by selector find nothing on the same documents. *)
Lemma findSection_none patterns d :
  find (sectionTest patterns) (querySelectorAll allSelectors d) = None <->
  findSection_extract patterns d = None.
Proof.
  unfold findSection_extract. rewrite hd_error_filter_some_none, find_none_iff.
  split.
  - intros H x Hx. apply in_map_iff in Hx. destruct Hx as (s & <- & Hs).
    apply find_none_iff. intros el Hel. apply H.
    apply querySelectorAll_In in Hel. apply querySelectorAll_In.
    destruct Hel as [Hin Hm]. split; [ assumption | ].
    apply existsb_exists. exists s. split; [ assumption | ].
    simpl in Hm. rewrite orb_false_r in Hm. exact Hm.
  - intros H el Hel. apply querySelectorAll_In in Hel. destruct Hel as [Hin Hm].
    apply existsb_exists in Hm. destruct Hm as (s & Hs & Hm).
    specialize (H (find (sectionTest patterns) (querySelectorAll [s] d))
                  (in_map _ _ _ Hs)).
    rewrite find_none_iff in H. apply H. apply querySelectorAll_In.
    split; [ assumption | ]. simpl. rewrite Hm. reflexivity.
Qed.

Lemma find_filter_finer {A : Type} (f g h : A -> bool) l x :
  (forall y, g y = true -> h y = true) ->
  find f (filter h l) = Some x -> g x = true ->
  find f (filter g l) = Some x.
Proof.
  intros Hgh. induction l as [|a l IH]; simpl; intros Hf Hg; [ discriminate | ].
  destruct (h a) eqn:Hh.
  - simpl in Hf. destruct (f a) eqn:Hfa.
    + inversion Hf; subst a. rewrite Hg. simpl. rewrite Hfa. reflexivity.
    + destruct (g a); simpl; [ rewrite Hfa | ]; apply IH; assumption.
  - destruct (g a) eqn:Hga; [ rewrite (Hgh a Hga) in Hh; discriminate | ].
    apply IH; assumption.
Qed.

Lemma findSection_section patterns d el :
  find (sectionTest patterns) (querySelectorAll allSelectors d) = Some el ->
  el_tag el = TSection ->
  findSection_extract patterns d = Some el.
Proof.
  intros Hf Htag. unfold findSection_extract, allSelectors. cbn [map].
  assert (H1 : find (sectionTest patterns) (querySelectorAll [SelTag TSection] d)
               = Some el).
  { unfold querySelectorAll in *.
    apply (find_filter_finer _ _ (fun el0 => existsb (fun s => sel_matches s el0)
                                                     allSelectors)).
    - intros y Hy. simpl in *. rewrite orb_false_r in Hy. rewrite Hy. reflexivity.
    - exact Hf.
    - simpl. rewrite Htag. reflexivity. }
  rewrite H1. reflexivity.
Qed.

End ClassifierAgreement.

(** X5.  The classifier of the sampling loop (lines 244-280) and the one
    of the fallback pass (lines 577-630) use the same test but search in
    different orders; they find a section on exactly the same documents,
    and they find the same element whenever the loop's pick is a [section]
    element. *)
Theorem step_and_fallback_classifiers_agree :
  forall d : Dom,
    (findSection_step d = None <-> findSection_extract dailyMenuPatterns d = None) /\
    (forall el, findSection_step d = Some el -> el_tag el = TSection ->
                findSection_extract dailyMenuPatterns d = Some el).
Proof.
  intros d. split.
  - apply findSection_none.
  - intros el. apply findSection_section.
Qed.

(** ** What the sampling loop learns about a viewport *)

(** X6.  The report on a viewport (lines 243-315) never counts more
    visible entries than the section has, repeats the step number it was
    given, quotes at most 200 code units of the section, and is all zero
    unless a section is found whose top edge lies in the viewport. *)
Theorem dailyMenuInfo_bounds :
  forall (d : Dom) (currentStep : nat),
    visibleItems (dailyMenuInfo d currentStep) <= totalItems (dailyMenuInfo d currentStep) /\
    stepNumber (dailyMenuInfo d currentStep) = currentStep /\
    match sampleText (dailyMenuInfo d currentStep) with
    | Some t => length t <= 200
    | None => True
    end /\
    (if visible (dailyMenuInfo d currentStep) then
       exists sec,
         findSection_step d = Some sec /\ inViewport d (el_top sec) = true /\
         totalItems (dailyMenuInfo d currentStep) = length (el_items sec)
     else
       totalItems (dailyMenuInfo d currentStep) = 0 /\
       visibleItems (dailyMenuInfo d currentStep) = 0 /\
       sampleText (dailyMenuInfo d currentStep) = None).
Proof.
  intros d n. unfold dailyMenuInfo.
  destruct (findSection_step d) as [sec|];
    [ | simpl; repeat split; first [ lia | reflexivity ] ].
  destruct (inViewport d (el_top sec)) eqn:Hv;
    [ | simpl; repeat split; first [ lia | reflexivity ] ].
  cbn [visible totalItems visibleItems stepNumber sampleText].
  split; [ apply filter_length_le | ].
  split; [ reflexivity | ].
  split.
  - unfold substringZ, substring, clampIndex.
    rewrite length_firstn. simpl Z.to_nat. lia.
  - exists sec. repeat split. exact Hv.
Qed.

(** ** Site runner: the calls a visit makes *)
Section Emits.

Context {W : Type}.
Variable handle : forall R : Type, op R -> W -> outcome R * W.
Variable clock : W -> jsstring * W.

Lemma emits_ret {A : Type} (a : A) (Phi : list event -> Prop) :
  Phi [] -> emits (@ret W A a) Phi.
Proof. intros H st. exists []. simpl. rewrite app_nil_r. auto. Qed.

Lemma emits_throw {A : Type} (e : JsError) (Phi : list event -> Prop) :
  Phi [] -> emits (@throw W A e) Phi.
Proof. intros H st. exists []. simpl. rewrite app_nil_r. auto. Qed.

Lemma emits_bind {A B : Type} (m : M W A) (k : A -> M W B)
      (Phi1 Phi2 Phi : list event -> Prop) :
  emits m Phi1 ->
  (forall a, emits (k a) Phi2) ->
  (forall e1, Phi1 e1 -> Phi e1) ->
  (forall e1 e2, Phi1 e1 -> Phi2 e2 -> Phi (e1 ++ e2)) ->
  emits (bind m k) Phi.
Proof.
  intros Hm Hk H1 H12 st. unfold bind.
  destruct (Hm st) as (e1 & Ht1 & HP1).
  destruct (m st) as [[a|e] st1]; simpl in *.
  - destruct (Hk a st1) as (e2 & Ht2 & HP2).
    exists (e1 ++ e2). rewrite Ht2, Ht1, app_assoc. auto.
  - exists e1. auto.
Qed.

Lemma emits_try_catch {A : Type} (m : M W A) (h : JsError -> M W A)
      (Phi1 Phi2 Phi : list event -> Prop) :
  emits m Phi1 ->
  (forall e, emits (h e) Phi2) ->
  (forall e1, Phi1 e1 -> Phi e1) ->
  (forall e1 e2, Phi1 e1 -> Phi2 e2 -> Phi (e1 ++ e2)) ->
  emits (try_catch m h) Phi.
Proof.
  intros Hm Hh H1 H12 st. unfold try_catch.
  destruct (Hm st) as (e1 & Ht1 & HP1).
  destruct (m st) as [[a|e] st1]; simpl in *.
  - exists e1. auto.
  - destruct (Hh e st1) as (e2 & Ht2 & HP2).
    exists (e1 ++ e2). rewrite Ht2, Ht1, app_assoc. auto.
Qed.

Lemma emits_call {R : Type} (o : op R) (Phi : list event -> Prop) :
  Phi [ev o] -> emits (call W handle o) Phi.
Proof.
  intros H st. unfold call. destruct (handle R o (world st)) as [r w'].
  exists [ev o]. simpl. auto.
Qed.

Lemma emits_getSelf (Phi : list event -> Prop) : Phi [] -> emits (getSelf W) Phi.
Proof. intros H st. exists []. simpl. rewrite app_nil_r. auto. Qed.

Lemma emits_setSelf s (Phi : list event -> Prop) : Phi [] -> emits (setSelf W s) Phi.
Proof. intros H st. exists []. simpl. rewrite app_nil_r. auto. Qed.

Lemma emits_now (Phi : list event -> Prop) : Phi [] -> emits (now W clock) Phi.
Proof.
  intros H st. unfold now. destruct (clock (world st)) as [iso w'].
  exists []. simpl. rewrite app_nil_r. auto.
Qed.

Lemma emits_setBest b (Phi : list event -> Prop) : Phi [] -> emits (setBest W b) Phi.
Proof. intros H st. exists []. simpl. rewrite app_nil_r. auto. Qed.

Lemma emits_setBrowser b (Phi : list event -> Prop) :
  Phi [] -> emits (setBrowser W b) Phi.
Proof. intros H st. exists []. simpl. rewrite app_nil_r. auto. Qed.

Lemma emits_setPage p (Phi : list event -> Prop) : Phi [] -> emits (setPage W p) Phi.
Proof. intros H st. exists []. simpl. rewrite app_nil_r. auto. Qed.

Lemma emits_onPage {R : Type} (o : pageOp R) (Phi : list event -> Prop) :
  Phi [] -> (forall p, Phi [ev (OnPage p o)]) -> emits (onPage W handle o) Phi.
Proof.
  intros H0 H1 st. unfold onPage, bind, getSelf.
  destruct (page (self st)) as [p|].
  - apply emits_call. apply H1.
  - exists []. simpl. rewrite app_nil_r. auto.
Qed.

Lemma emits_conseq {A : Type} (m : M W A) (Phi Phi' : list event -> Prop) :
  emits m Phi -> (forall evs, Phi evs -> Phi' evs) -> emits m Phi'.
Proof.
  intros Hm H st. destruct (Hm st) as (evs & Ht & HP). exists evs. auto.
Qed.

Lemma emits_and {A : Type} (m : M W A) (Phi1 Phi2 : list event -> Prop) :
  emits m Phi1 -> emits m Phi2 -> emits m (fun evs => Phi1 evs /\ Phi2 evs).
Proof.
  intros H1 H2 st. destruct (H1 st) as (e1 & Ht1 & HP1).
  destruct (H2 st) as (e2 & Ht2 & HP2).
  rewrite Ht1 in Ht2. apply app_inv_head in Ht2. subst e2.
  exists e1. auto.
Qed.

(** *** Calls of one kind only *)

Lemma only_nil E : only E [].
Proof. reflexivity. Qed.

Lemma only_app E e1 e2 : only E e1 -> only E e2 -> only E (e1 ++ e2).
Proof. unfold only. intros H1 H2. rewrite forallb_app, H1, H2. reflexivity. Qed.

Lemma only_one E e : E e = true -> only E [e].
Proof. unfold only. simpl. intros ->. reflexivity. Qed.

Lemma only_bind {A B : Type} E (m : M W A) (k : A -> M W B) :
  emits m (only E) -> (forall a, emits (k a) (only E)) -> emits (bind m k) (only E).
Proof.
  intros Hm Hk. apply (emits_bind m k (only E) (only E) (only E) Hm Hk); auto using only_app.
Qed.

Lemma only_try_catch {A : Type} E (m : M W A) (h : JsError -> M W A) :
  emits m (only E) -> (forall e, emits (h e) (only E)) ->
  emits (try_catch m h) (only E).
Proof.
  intros Hm Hh.
  apply (emits_try_catch m h (only E) (only E) (only E) Hm Hh); auto using only_app.
Qed.

Lemma only_onPage {R : Type} E (o : pageOp R) :
  (forall p, E (ev (OnPage p o)) = true) -> emits (onPage W handle o) (only E).
Proof.
  intros H. apply emits_onPage; [ apply only_nil | intros p; apply only_one, H ].
Qed.

Lemma only_call {R : Type} E (o : op R) :
  E (ev o) = true -> emits (call W handle o) (only E).
Proof. intros H. apply emits_call. apply only_one, H. Qed.

(** *** Calls counted *)

Lemma countOf_app c e1 e2 : countOf c (e1 ++ e2) = countOf c e1 + countOf c e2.
Proof. unfold countOf. rewrite filter_app, length_app. reflexivity. Qed.

Lemma only_not_counted c evs :
  only (fun e => negb (c e)) evs <-> countOf c evs = 0.
Proof.
  unfold only, countOf. induction evs as [|e evs IH]; simpl; [ tauto | ].
  destruct (c e); simpl.
  - split; discriminate.
  - exact IH.
Qed.

Lemma atMost_bind {A B : Type} c n1 n2 n (m : M W A) (k : A -> M W B) :
  n1 + n2 <= n ->
  emits m (atMost c n1) -> (forall a, emits (k a) (atMost c n2)) ->
  emits (bind m k) (atMost c n).
Proof.
  intros Hn Hm Hk.
  apply (emits_bind m k (atMost c n1) (atMost c n2) (atMost c n) Hm Hk);
    unfold atMost; intros; try rewrite countOf_app; lia.
Qed.

Lemma atMost_try_catch {A : Type} c n1 n2 n (m : M W A) (h : JsError -> M W A) :
  n1 + n2 <= n ->
  emits m (atMost c n1) -> (forall e, emits (h e) (atMost c n2)) ->
  emits (try_catch m h) (atMost c n).
Proof.
  intros Hn Hm Hh.
  apply (emits_try_catch m h (atMost c n1) (atMost c n2) (atMost c n) Hm Hh);
    unfold atMost; intros; try rewrite countOf_app; lia.
Qed.

Lemma atMost_free {A : Type} c n (m : M W A) :
  emits m (only (fun e => negb (c e))) -> emits m (atMost c n).
Proof.
  intros H. apply (emits_conseq m _ _ H). intros evs Hevs.
  apply only_not_counted in Hevs. unfold atMost. lia.
Qed.

Lemma atMost_onPage {R : Type} c n (o : pageOp R) :
  1 <= n -> emits (onPage W handle o) (atMost c n).
Proof.
  intros Hn. apply emits_onPage; unfold atMost, countOf; [ simpl; lia | ].
  intros p. simpl. destruct (c _); simpl; lia.
Qed.

Lemma atMost_weaken {A : Type} c n n' (m : M W A) :
  n <= n' -> emits m (atMost c n) -> emits m (atMost c n').
Proof.
  intros Hn H. apply (emits_conseq m _ _ H). unfold atMost. intros. lia.
Qed.

End Emits.

(** *** What each method calls *)

Ltac only_step ev_tac :=
  lazymatch goal with
  | |- emits (bind _ _) (only _) => apply only_bind; [ | intros ? ]
  | |- emits (try_catch _ _) (only _) => apply only_try_catch; [ | intros ? ]
  | |- emits (ret _) (only _) => apply emits_ret; apply only_nil
  | |- emits (throw _) (only _) => apply emits_throw; apply only_nil
  | |- emits (getSelf _) (only _) => apply emits_getSelf; apply only_nil
  | |- emits (setBest _ _) (only _) => apply emits_setBest; apply only_nil
  | |- emits (setBrowser _ _) (only _) => apply emits_setBrowser; apply only_nil
  | |- emits (setPage _ _) (only _) => apply emits_setPage; apply only_nil
  | |- emits (now _ _) (only _) => apply emits_now; apply only_nil
  | |- emits (onPage _ _ _) (only _) => apply only_onPage; intros ?; ev_tac
  | |- emits (call _ _ _) (only _) => apply only_call; ev_tac
  | |- emits (if ?b then _ else _) _ => destruct b
  | |- emits (match ?x with _ => _ end) _ => destruct x
  end.

Section Calls.

Context {W : Type}.
Variable handle : forall R : Type, op R -> W -> outcome R * W.
Variable clock : W -> jsstring * W.
Variable E : event -> bool.
Variable site : Site.

Hypothesis E_quiet :
  forall p (R : Type) (o : pageOp R), isQuietOp o = true -> E (ev (OnPage p o)) = true.
Hypothesis E_click : forall p sel, E (ev (OnPage p (Click sel))) = true.
Hypothesis E_clickNth : forall p sel i, E (ev (OnPage p (ClickNth sel i))) = true.
Hypothesis E_step_shot : forall p path, E (ev (OnPage p (Screenshot path false))) = true.
Hypothesis E_page_shot : forall p path, E (ev (OnPage p (Screenshot path true))) = true.
Hypothesis E_goto : forall p t, E (ev (OnPage p (Goto (site_url site) t))) = true.
Hypothesis E_script : forall code, E (ev (RunScript code)) = true.

Ltac ev_tac :=
  first [ apply E_quiet; reflexivity
        | apply E_click
        | apply E_clickNth
        | apply E_step_shot
        | apply E_page_shot
        | apply E_goto
        | apply E_script ].

Ltac steps := repeat only_step ev_tac.

Lemma handleCloudflareProtection_only :
  emits (handleCloudflareProtection W handle) (only E).
Proof. unfold handleCloudflareProtection. steps. Qed.

Lemma tryCookieSelectors_only sels :
  emits (tryCookieSelectors W handle sels) (only E).
Proof.
  induction sels as [|sel sels IH]; simpl.
  - steps.
  - apply only_bind; [ steps | ].
    intros [|]; [ steps | exact IH ].
Qed.

Lemma handleCookies_only : emits (handleCookies W handle) (only E).
Proof.
  unfold handleCookies.
  apply only_try_catch; [ | intros; steps ].
  apply only_bind; [ steps | intros _ ].
  apply only_bind; [ apply tryCookieSelectors_only | intros ? ].
  steps.
Qed.

Lemma extractItemsFromCurrentViewport_only siteName n :
  emits (extractItemsFromCurrentViewport W handle siteName n) (only E).
Proof. unfold extractItemsFromCurrentViewport. steps. Qed.

Lemma extractMenuFromScreenshot_only path s bv :
  emits (extractMenuFromScreenshot W handle path s bv) (only E).
Proof. unfold extractMenuFromScreenshot. steps. Qed.

Lemma updateBest_only info y step : emits (updateBest W info y step) (only E).
Proof. unfold updateBest. steps. Qed.

Lemma sampleStep_only s ts vh step :
  emits (sampleStep W handle s ts vh step) (only E).
Proof.
  unfold sampleStep.
  repeat first [ apply updateBest_only
               | apply extractItemsFromCurrentViewport_only
               | only_step ev_tac ].
Qed.

Lemma sampleSteps_only s ts vh : forall steps shots items,
  emits (sampleSteps W handle s ts vh steps shots items) (only E).
Proof.
  induction steps as [|step steps IH]; intros shots items; simpl.
  - steps.
  - apply only_bind; [ apply sampleStep_only | intros r; apply IH ].
Qed.

Lemma scrapeRestaurant_try_only :
  emits (scrapeRestaurant_try W handle clock site) (only E).
Proof.
  unfold scrapeRestaurant_try.
  repeat first [ apply handleCloudflareProtection_only
               | apply handleCookies_only
               | apply sampleSteps_only
               | apply extractMenuFromScreenshot_only
               | only_step ev_tac ].
Qed.

Lemma scrapeRestaurant_only :
  emits (scrapeRestaurant W handle clock site) (only E).
Proof.
  unfold scrapeRestaurant. apply only_try_catch; [ apply scrapeRestaurant_try_only | ].
  intros e. steps.
Qed.

Lemma scrapeSite_only : emits (scrapeSite W handle clock site) (only E).
Proof.
  unfold scrapeSite. apply only_try_catch.
  - apply only_bind; [ apply scrapeRestaurant_only | intros; steps ].
  - intros e. steps.
Qed.

End Calls.
(** *** Budgets of a site visit *)

Ltac side_conditions :=
  first [ intros ? ? o Ho; destruct o; first [ reflexivity | discriminate Ho ]
        | intros; reflexivity ].

Ltac free :=
  apply atMost_free;
  repeat first [ apply handleCloudflareProtection_only
               | apply handleCookies_only
               | apply sampleSteps_only
               | apply extractMenuFromScreenshot_only
               | only_step ltac:(reflexivity) ];
  side_conditions.

Ltac skip_free :=
  lazymatch goal with
  | |- emits (bind _ _) (atMost ?c ?n) =>
      apply (atMost_bind c 0 n n); [ apply Nat.le_refl | solve [ free ] | intros ? ]
  end.

Section Budgets.

Context {W : Type}.
Variable handle : forall R : Type, op R -> W -> outcome R * W.
Variable clock : W -> jsstring * W.

Lemma jseqb_refl s : jseqb s s = true.
Proof. unfold jseqb. destruct (list_eq_dec N.eq_dec s s); congruence. Qed.

Lemma jseqb_eq a b : jseqb a b = true -> a = b.
Proof. unfold jseqb. destruct (list_eq_dec N.eq_dec a b); [ auto | discriminate ]. Qed.

Lemma scrapeRestaurant_try_navigations site :
  emits (scrapeRestaurant_try W handle clock site) (atMost isNavigation 2).
Proof.
  unfold scrapeRestaurant_try.
  do 2 skip_free.
  apply (atMost_bind isNavigation 1 1 2); [ lia | apply atMost_onPage; lia | intros _ ].
  skip_free.
  apply (atMost_bind isNavigation 1 0 1); [ lia | | intros _; free ].
  match goal with
  | |- emits (if ?b then _ else _) _ => destruct b; [ | free ]
  end.
  skip_free.
  apply (atMost_try_catch isNavigation 1 0 1);
    [ lia | apply atMost_onPage; lia | intros; free ].
Qed.

Lemma sampleStep_shots site ts vh step :
  emits (sampleStep W handle site ts vh step) (atMost isStepScreenshot 1).
Proof.
  unfold sampleStep.
  do 3 skip_free.
  apply (atMost_bind isStepScreenshot 1 0 1); [ lia | apply atMost_onPage; lia | ].
  intros _.
  apply atMost_free.
  repeat first [ apply updateBest_only
               | apply extractItemsFromCurrentViewport_only
               | only_step ltac:(reflexivity) ];
    side_conditions.
Qed.

Lemma sampleSteps_shots site ts vh : forall steps shots items,
  emits (sampleSteps W handle site ts vh steps shots items)
        (atMost isStepScreenshot (length steps)).
Proof.
  induction steps as [|step steps IH]; intros shots items; simpl.
  - free.
  - apply (atMost_bind isStepScreenshot 1 (length steps) (S (length steps)));
      [ lia | apply sampleStep_shots | intros r; apply IH ].
Qed.

Lemma stepCount_le_3 totalHeight viewportHeight :
  stepCount totalHeight viewportHeight <= 3.
Proof.
  unfold stepCount, scrollSteps, ceilDiv.
  destruct (viewportHeight =? 0)%Z.
  - destruct (totalHeight =? 0)%Z; [ simpl; lia | ].
    destruct (0 <? totalHeight)%Z; simpl; lia.
  - simpl. lia.
Qed.

Lemma scrapeRestaurant_try_step_shots site :
  emits (scrapeRestaurant_try W handle clock site) (atMost isStepScreenshot 3).
Proof.
  unfold scrapeRestaurant_try.
  repeat skip_free.
  match goal with
  | |- emits (bind (sampleSteps _ _ _ _ _ (seq 0 (stepCount ?t ?v)) _ _) _) _ =>
      apply (atMost_bind isStepScreenshot (stepCount t v) 0 3);
        [ pose proof (stepCount_le_3 t v); lia
        | eapply emits_conseq; [ apply sampleSteps_shots | ]
        | intros ?; free ]
  end.
  intros evs. rewrite length_seq. auto.
Qed.

Lemma scrapeRestaurant_try_page_shots site :
  emits (scrapeRestaurant_try W handle clock site) (atMost isFullPageScreenshot 1).
Proof.
  unfold scrapeRestaurant_try.
  repeat skip_free.
  apply (atMost_bind isFullPageScreenshot 1 0 1);
    [ lia | apply atMost_onPage; lia | intros ?; free ].
Qed.

Lemma scrapeRestaurant_calls site :
  emits (scrapeRestaurant W handle clock site) (siteCalls site).
Proof.
  unfold scrapeRestaurant, siteCalls.
  repeat apply emits_and.
  - apply scrapeRestaurant_only; try side_conditions.
    intros p t. unfold navigatesTo. simpl. rewrite jseqb_refl. reflexivity.
  - apply (atMost_try_catch isNavigation 2 0 2);
      [ lia | apply scrapeRestaurant_try_navigations | intros; free ].
  - apply (atMost_try_catch isStepScreenshot 3 0 3);
      [ lia | apply scrapeRestaurant_try_step_shots | intros; free ].
  - apply (atMost_try_catch isFullPageScreenshot 1 0 1);
      [ lia | apply scrapeRestaurant_try_page_shots | intros; free ].
Qed.

Lemma emits_bind_silent {A B : Type} (m : M W A) (k : A -> M W B) Phi :
  emits m Phi -> (forall a, emits (k a) silent) -> emits (bind m k) Phi.
Proof.
  intros Hm Hk. apply (emits_bind m k Phi silent Phi Hm Hk); [ auto | ].
  intros e1 e2 H1 ->. rewrite app_nil_r. exact H1.
Qed.

Lemma emits_try_silent {A : Type} (m : M W A) (h : JsError -> M W A) Phi :
  emits m Phi -> (forall e, emits (h e) silent) -> emits (try_catch m h) Phi.
Proof.
  intros Hm Hh. apply (emits_try_catch m h Phi silent Phi Hm Hh); [ auto | ].
  intros e1 e2 H1 ->. rewrite app_nil_r. exact H1.
Qed.

Lemma scrapeSite_calls site :
  emits (scrapeSite W handle clock site) (siteCalls site).
Proof.
  unfold scrapeSite. apply emits_try_silent.
  - apply emits_bind_silent; [ apply scrapeRestaurant_calls | ].
    intros data. apply emits_ret. reflexivity.
  - intros e. apply (emits_bind _ _ silent silent silent).
    + apply emits_now. reflexivity.
    + intros iso. apply emits_ret. reflexivity.
    + auto.
    + intros e1 e2 -> ->. reflexivity.
Qed.

Lemma only_mono (E E' : event -> bool) evs :
  (forall e, E e = true -> E' e = true) -> only E evs -> only E' evs.
Proof.
  unfold only. intros H. induction evs as [|e evs IH]; simpl; [ auto | ].
  intros Hall. apply andb_true_iff in Hall. destruct Hall as [He Hevs].
  rewrite (H e He), (IH Hevs). reflexivity.
Qed.

Lemma navigatesTo_mono urls urls' e :
  incl urls urls' -> navigatesTo urls e = true -> navigatesTo urls' e = true.
Proof.
  unfold navigatesTo. intros Hincl. destruct (isGoto e) as [url|]; [ | auto ].
  intros H. apply existsb_exists in H. destruct H as (u & Hu & Heq).
  apply existsb_exists. exists u. auto.
Qed.

Lemma scrapeSites_calls : forall sites results,
  emits (scrapeSites W handle clock sites results) (batchCalls sites).
Proof.
  induction sites as [|site sites IH]; intros results; simpl.
  - apply emits_ret. unfold batchCalls, atMost, countOf. simpl.
    repeat split; lia.
  - apply (emits_bind _ _ (siteCalls site) (batchCalls sites)
                      (batchCalls (site :: sites)) (scrapeSite_calls site)
                      (fun r => IH (results ++ [r]))).
    + intros e1 (Ho & Hn & Hs & Hp). unfold batchCalls, atMost in *. simpl length.
      repeat split; try lia.
      apply (only_mono _ _ _ (fun e => navigatesTo_mono _ _ e
                                        (incl_cons (in_eq _ _) (incl_nil_l _)))).
      exact Ho.
    + intros e1 e2 (Ho & Hn & Hs & Hp) (Ho2 & Hn2 & Hs2 & Hp2).
      unfold batchCalls, atMost in *. simpl length. rewrite !countOf_app.
      repeat split; try lia.
      apply only_app.
      * apply (only_mono _ _ _ (fun e => navigatesTo_mono _ _ e
                                          (incl_cons (in_eq _ _) (incl_nil_l _)))).
        exact Ho.
      * apply (only_mono _ _ _ (fun e => navigatesTo_mono _ _ e
                                          (incl_tl _ (incl_refl _)))).
        exact Ho2.
Qed.

Lemma gotos_of_only urls evs p url :
  only (navigatesTo urls) evs -> In (p, url) (gotosOf evs) -> In url urls.
Proof.
  unfold only, gotosOf. intros Hall Hin.
  apply In_filter_some in Hin. apply in_map_iff in Hin.
  destruct Hin as (e & He & Hin).
  rewrite forallb_forall in Hall. specialize (Hall e Hin).
  unfold navigatesTo in Hall.
  destruct (pageOf e); [ | discriminate ].
  destruct (isGoto e) as [u|]; [ | discriminate ].
  inversion He; subst. apply existsb_exists in Hall.
  destruct Hall as (u' & Hu' & Heq). apply jseqb_eq in Heq. subst. exact Hu'.
Qed.

End Budgets.

(** X7.  Whatever the browser answers, one site visit navigates at most
    twice (the first load and the reload after a challenge page), both
    times to the site's own address, and takes at most three viewport
    screenshots and at most one full-page screenshot. *)
Theorem site_visit_budget :
  forall (W : Type) (handle : forall R : Type, op R -> W -> outcome R * W)
         (clock : W -> jsstring * W) (site : Site) (st : State W),
  exists evs,
    trace (snd (scrapeRestaurant W handle clock site st)) = trace st ++ evs /\
    (forall p url, In (p, url) (gotosOf evs) -> url = site_url site) /\
    countOf isNavigation evs <= 2 /\
    countOf isStepScreenshot evs <= 3 /\
    countOf isFullPageScreenshot evs <= 1.
Proof.
  intros W handle clock site st.
  destruct (scrapeRestaurant_calls handle clock site st)
    as (evs & Htr & Ho & Hn & Hs & Hp).
  exists evs. split; [ exact Htr | ].
  split; [ | auto ].
  intros p url Hin. apply (gotos_of_only _ _ _ _ Ho) in Hin.
  destruct Hin as [<- | []]. reflexivity.
Qed.

(** X8.  A batch only ever navigates to the addresses of the sites that
    are enabled in the configuration, at most twice per enabled site; a
    disabled site is never visited. *)
Theorem batch_visits_enabled_sites_only :
  forall (W : Type) (handle : forall R : Type, op R -> W -> outcome R * W)
         (clock : W -> jsstring * W) (st : State W),
  exists evs,
    trace (snd (scrapeAllSites W handle clock st)) = trace st ++ evs /\
    (forall p url, In (p, url) (gotosOf evs) ->
       exists site, In site (siteConfig (self st)) /\ site_enabled site = true /\
                    url = site_url site) /\
    countOf isNavigation evs <= 2 * length (getEnabledSites (self st)).
Proof.
  intros W handle clock st.
  unfold scrapeAllSites, bind, getSelf.
  assert (H : exists evs,
             trace (snd (scrapeSites W handle clock (getEnabledSites (self st)) [] st))
             = trace st ++ evs /\ batchCalls (getEnabledSites (self st)) evs)
    by apply scrapeSites_calls.
  destruct H as (evs & Htr & Ho & Hn & _).
  exists evs. split.
  - destruct (getEnabledSites (self st)) eqn:Hs; [ | exact Htr ].
    simpl in *. exact Htr.
  - split; [ | exact Hn ].
    intros p url Hin. apply (gotos_of_only _ _ _ _ Ho) in Hin.
    apply in_map_iff in Hin. destruct Hin as (site & Hu & Hsite).
    unfold getEnabledSites in Hsite. apply filter_In in Hsite.
    exists site. intuition.
Qed.

(** ** Site runner: what is reported *)

Section Outcomes.

Context {W : Type}.
Variable handle : forall R : Type, op R -> W -> outcome R * W.
Variable clock : W -> jsstring * W.

Lemma post_ret {A : Type} (a : A) (Q : outcome A -> Prop) :
  Q (Ok a) -> post (@ret W A a) Q.
Proof. intros H st. exact H. Qed.

Lemma post_bind {A B : Type} (m : M W A) (k : A -> M W B) (Q : outcome B -> Prop) :
  (forall a, post (k a) Q) -> (forall e, Q (Throw e)) -> post (bind m k) Q.
Proof.
  intros Hk He st. unfold bind. destruct (m st) as [[a|e] st1]; [ apply Hk | apply He ].
Qed.

Lemma post_try_catch {A : Type} (m : M W A) (h : JsError -> M W A)
      (Q1 Q : outcome A -> Prop) :
  post m Q1 -> (forall a, Q1 (Ok a) -> Q (Ok a)) -> (forall e, post (h e) Q) ->
  post (try_catch m h) Q.
Proof.
  intros Hm Hok Hh st. unfold try_catch. specialize (Hm st).
  destruct (m st) as [[a|e] st1]; simpl in *; [ auto | apply Hh ].
Qed.

Lemma scrapeRestaurant_try_data site :
  post (scrapeRestaurant_try W handle clock site) (okAnd (successData site)).
Proof.
  unfold scrapeRestaurant_try.
  repeat (apply post_bind; [ intros ? | intros; exact Logic.I ]).
  apply post_ret. unfold okAnd, successData. simpl.
  repeat split; try discriminate. eexists. split; reflexivity.
Qed.

(** [scrapeRestaurant] does not throw: it returns the record of a
    completed visit or the failure record. *)
Lemma scrapeRestaurant_data site (st : State W) :
  exists data,
    fst (scrapeRestaurant W handle clock site st) = Ok data /\
    (successData site data \/
     exists e, data = {| sd_success := false;
                         sd_restaurant := site_name site;
                         sd_url := None;
                         sd_scrapedAt := None;
                         sd_screenshotPath := None;
                         sd_menuData := None;
                         sd_itemCount := None;
                         sd_error := Some (message e) |}).
Proof.
  unfold scrapeRestaurant, try_catch.
  pose proof (scrapeRestaurant_try_data site st) as H.
  destruct (scrapeRestaurant_try W handle clock site st) as [[data|e] st1]; simpl in *.
  - exists data. auto.
  - eexists. split; [ reflexivity | ]. right. exists e. reflexivity.
Qed.

Lemma scrapeSite_shape site (st : State W) :
  exists r, fst (scrapeSite W handle clock site st) = Ok r /\ wellShaped site r.
Proof.
  unfold scrapeSite, try_catch, bind.
  destruct (scrapeRestaurant_data site st) as (data & Hrun & Hdata).
  destruct (scrapeRestaurant W handle clock site st) as [o st1]. simpl in Hrun.
  subst o. eexists. split; [ reflexivity | ].
  unfold wellShaped. simpl.
  destruct Hdata as [(Hs & Hn & Hu & He & Hat & Hp & items & Hi & Hc) | (e & ->)].
  - rewrite Hs, Hi, Hc. repeat split; auto. exists items. auto.
  - simpl. repeat split; auto. discriminate.
Qed.

Lemma scrapeSites_shape : forall sites results (st : State W),
  exists rs,
    fst (scrapeSites W handle clock sites results st) = Ok (results ++ rs) /\
    Forall2 wellShaped sites rs.
Proof.
  induction sites as [|site sites IH]; intros results st; simpl.
  - exists []. rewrite app_nil_r. auto.
  - unfold bind. destruct (scrapeSite_shape site st) as (r & Hr & Hshape).
    destruct (scrapeSite W handle clock site st) as [o st1]. simpl in Hr. subst o.
    destruct (IH (results ++ [r]) st1) as (rs & Hrs & Hall).
    exists (r :: rs). rewrite Hrs, <- app_assoc. simpl. auto.
Qed.

Lemma scrapeAllSites_shape (st : State W) :
  exists results st',
    scrapeAllSites W handle clock st = (Ok results, st') /\
    Forall2 wellShaped (getEnabledSites (self st)) results.
Proof.
  unfold scrapeAllSites, bind, getSelf.
  destruct (getEnabledSites (self st)) as [|site sites] eqn:Hs.
  - exists [], st. auto.
  - destruct (scrapeSites_shape (site :: sites) [] st) as (rs & Hrs & Hall).
    destruct (scrapeSites W handle clock (site :: sites) [] st) as [o st'].
    simpl in Hrs. subst o. exists rs, st'. auto.
Qed.

(** With no page ([this.page] is [null], as after a failed [initialize])
    a visit fails before any call is made. *)
Lemma scrapeSite_without_page site (st : State W) :
  page (self st) = None ->
  exists st',
    scrapeSite W handle clock site st = (Ok (failureResult site nullError), st') /\
    page (self st') = None /\ trace st' = trace st /\ world st' = world st.
Proof.
  intros Hp.
  pose proof (scrapeRestaurant_catches handle clock site st) as H.
  assert (Htry : exists st',
             scrapeRestaurant_try W handle clock site st = (Throw nullError, st') /\
             page (self st') = None /\ trace st' = trace st /\ world st' = world st).
  { unfold scrapeRestaurant_try, bind, setBest, getSelf, setSelf, onPage, throw.
    simpl. rewrite Hp. eexists. split; [ reflexivity | ]. simpl. auto. }
  destruct Htry as (st' & Htry & Hrest). rewrite Htry in H.
  exists st'. auto.
Qed.

Lemma scrapeSites_without_page : forall sites results (st : State W),
  page (self st) = None ->
  exists st',
    scrapeSites W handle clock sites results st
    = (Ok (results ++ map (fun site => failureResult site nullError) sites), st') /\
    trace st' = trace st /\ world st' = world st.
Proof.
  induction sites as [|site sites IH]; intros results st Hp; simpl.
  - exists st. rewrite app_nil_r. auto.
  - unfold bind.
    destruct (scrapeSite_without_page site st Hp) as (st1 & -> & Hp1 & Ht1 & Hw1).
    destruct (IH (results ++ [failureResult site nullError]) st1 Hp1)
      as (st' & -> & Ht & Hw).
    exists st'. rewrite <- app_assoc. simpl. split; [ reflexivity | ].
    split; congruence.
Qed.

End Outcomes.

(** X9.  The batch does not throw, and its report has one entry per
    enabled site, in order: either a success with its items, their count
    (twice) and no error, or a failure with a message and neither items,
    count, time nor screenshot.  A failure entry with an empty item list,
    which the handler of lines 946-959 would build, never occurs:
    [scrapeRestaurant] catches everything itself. *)
Theorem batch_report_well_shaped :
  forall (W : Type) (handle : forall R : Type, op R -> W -> outcome R * W)
         (clock : W -> jsstring * W) (st : State W),
  exists results st',
    scrapeAllSites W handle clock st = (Ok results, st') /\
    Forall2 wellShaped (getEnabledSites (self st)) results.
Proof.
  intros W handle clock st. apply scrapeAllSites_shape.
Qed.

(** X10.  A scraper whose page was never opened ([initialize] failed, and
    the scheduler does not look at its result) reports every enabled site
    as failed with the same TypeError, without a single call to the
    browser. *)
Theorem batch_without_page :
  forall (W : Type) (handle : forall R : Type, op R -> W -> outcome R * W)
         (clock : W -> jsstring * W) (st : State W),
    page (self st) = None ->
    exists st',
      scrapeAllSites W handle clock st
      = (Ok (map (fun site => failureResult site nullError) (getEnabledSites (self st))),
         st') /\
      trace st' = trace st /\ world st' = world st.
Proof.
  intros W handle clock st Hp. unfold scrapeAllSites, bind, getSelf.
  destruct (getEnabledSites (self st)) as [|site sites] eqn:Hs.
  - exists st. auto.
  - apply (scrapeSites_without_page handle clock (site :: sites) [] st Hp).
Qed.

Lemma batch_without_page_witness :
  exists st',
    scrapeAllSites Demo.browserState Demo.handle Demo.clock
                   {| self := Demo.scraper [Demo.tuesdaySite; Demo.emptySite] None;
                      world := {| Demo.w_url := js "about:blank"; Demo.w_scrollY := 0 |};
                      trace := [] |}
    = (Ok [failureResult Demo.tuesdaySite nullError;
           failureResult Demo.emptySite nullError], st') /\
    trace st' = [].
Proof.
  destruct (batch_without_page
              Demo.browserState Demo.handle Demo.clock
              {| self := Demo.scraper [Demo.tuesdaySite; Demo.emptySite] None;
                 world := {| Demo.w_url := js "about:blank"; Demo.w_scrollY := 0 |};
                 trace := [] |} eq_refl) as (st' & Hrun & Htr & _).
  exists st'. split; [ exact Hrun | exact Htr ].
Defined.

(** ** Site runner: which errors end a visit *)

Section Errors.

Context {W : Type}.
Variable handle : forall R : Type, op R -> W -> outcome R * W.
Variable clock : W -> jsstring * W.

Lemma bind_run_ok {A B : Type} (m : M W A) (k : A -> M W B) st a st1 :
  m st = (Ok a, st1) -> bind m k st = k a st1.
Proof. unfold bind. intros ->. reflexivity. Qed.

Lemma bind_run_throw {A B : Type} (m : M W A) (k : A -> M W B) st e st1 :
  m st = (Throw e, st1) -> bind m k st = (Throw e, st1).
Proof. unfold bind. intros ->. reflexivity. Qed.

Lemma first_navigation_throws site (st : State W) p e w' :
  page (self st) = Some p ->
  handle unit (OnPage p (Goto (site_url site)
                              (match cfg_timeout (self st) with
                               | Some t => if (t =? 0)%Z then 60000%Z else t
                               | None => 60000%Z
                               end))) (world st) = (Throw e, w') ->
  exists st',
    scrapeSite W handle clock site st = (Ok (failureResult site e), st') /\
    trace st'
    = trace st ++ [ev (OnPage p (Goto (site_url site)
                                      (match cfg_timeout (self st) with
                                       | Some t => if (t =? 0)%Z then 60000%Z else t
                                       | None => 60000%Z
                                       end)))] /\
    world st' = w'.
Proof.
  intros Hp Hgo.
  pose proof (scrapeRestaurant_catches handle clock site st) as H.
  assert (Htry : exists st',
             scrapeRestaurant_try W handle clock site st = (Throw e, st') /\
             trace st'
             = trace st ++ [ev (OnPage p (Goto (site_url site)
                                               (match cfg_timeout (self st) with
                                                | Some t => if (t =? 0)%Z then 60000%Z else t
                                                | None => 60000%Z
                                                end)))] /\
             world st' = w').
  { unfold scrapeRestaurant_try.
    rewrite (bind_run_ok (setBest W None) _ st tt _ eq_refl).
    rewrite (bind_run_ok (getSelf W) _ _ _ _ eq_refl).
    cbn [self cfg_timeout].
    erewrite bind_run_throw;
      [ | rewrite (onPage_run handle _ _ p) by exact Hp; cbn [world]; rewrite Hgo;
          reflexivity ].
    eexists. split; [ reflexivity | ]. split; reflexivity. }
  destruct Htry as (st' & Htry & Hrest). rewrite Htry in H.
  exists st'. auto.
Qed.

(** The fallback pass never throws. *)
Lemma extractMenuFromScreenshot_outcome path site bestViewport (st : State W) :
  exists items,
    fst (extractMenuFromScreenshot W handle path site bestViewport st) = Ok items /\
    (items = [placeholderItem path] \/
     exists d, items = extractMenuFromScreenshot_page d bestViewport).
Proof.
  assert (H : post (extractMenuFromScreenshot W handle path site bestViewport)
                   (fun r => exists items,
                        r = Ok items /\
                        (items = [placeholderItem path] \/
                         exists d, items = extractMenuFromScreenshot_page d bestViewport))).
  { unfold extractMenuFromScreenshot.
    apply (post_try_catch _ _
             (okAnd (fun items =>
                       exists d, items = extractMenuFromScreenshot_page d bestViewport))).
    - apply post_bind; [ intros _ | intros; exact Logic.I ].
      apply post_bind; [ intros d | intros; exact Logic.I ].
      apply post_bind; [ intros _ | intros; exact Logic.I ].
      apply post_ret. simpl. eauto.
    - intros items Hitems. eauto.
    - intros e. apply post_ret. eauto. }
  apply H.
Qed.

End Errors.

(** X11.  When the first navigation of a visit throws, the site is
    reported as failed with the browser's message after that one call:
    nothing else is asked of the browser for this site. *)
Theorem unreachable_site_fails_at_once :
  forall (W : Type) (handle : forall R : Type, op R -> W -> outcome R * W)
         (clock : W -> jsstring * W) (site : Site) (st : State W)
         (p : pageId) (e : JsError) (w' : W),
    page (self st) = Some p ->
    handle unit (OnPage p (Goto (site_url site)
                                (match cfg_timeout (self st) with
                                 | Some t => if (t =? 0)%Z then 60000%Z else t
                                 | None => 60000%Z
                                 end))) (world st) = (Throw e, w') ->
    exists st',
      scrapeSite W handle clock site st = (Ok (failureResult site e), st') /\
      trace st'
      = trace st ++ [ev (OnPage p (Goto (site_url site)
                                        (match cfg_timeout (self st) with
                                         | Some t => if (t =? 0)%Z then 60000%Z else t
                                         | None => 60000%Z
                                         end)))] /\
      world st' = w'.
Proof.
  intros W handle clock site st p e w'. apply first_navigation_throws.
Qed.

Lemma unreachable_site_fails_at_once_witness :
  exists st',
    scrapeSite Demo.browserState Demo.handle Demo.clock Demo.downSite
               (Demo.start [Demo.downSite])
    = (Ok (failureResult Demo.downSite Demo.timeoutError), st') /\
    trace st' = [ev (OnPage 7 (Goto Demo.downUrl 60000))].
Proof.
  destruct (unreachable_site_fails_at_once
              Demo.browserState Demo.handle Demo.clock Demo.downSite
              (Demo.start [Demo.downSite]) 7 Demo.timeoutError
              {| Demo.w_url := js "about:blank"; Demo.w_scrollY := 0 |}
              eq_refl eq_refl) as (st' & Hrun & Htr & _).
  exists st'. split; [ exact Hrun | ].
  rewrite Htr. vm_compute. reflexivity.
Defined.

(** X12.  The fallback pass never throws: it returns what its page
    function extracted from some document, or, when any of its calls
    throws, the single placeholder item that names the screenshot. *)
Theorem fallback_pass_never_throws :
  forall (W : Type) (handle : forall R : Type, op R -> W -> outcome R * W)
         (path : jsstring) (site : Site) (bestViewport : option BestViewport)
         (st : State W),
  exists items,
    fst (extractMenuFromScreenshot W handle path site bestViewport st) = Ok items /\
    (items = [placeholderItem path] \/
     exists d, items = extractMenuFromScreenshot_page d bestViewport).
Proof.
  intros. apply extractMenuFromScreenshot_outcome.
Qed.

(** ** Opening and closing the browser *)

(** X13.  [initialize] never throws.  It returns true exactly after the
    screenshot directory, the browser, the page and the init script were
    set up in this order, leaving the browser and the page in the scraper;
    otherwise it returns false after at most four calls, none of which
    closes what was opened before the failure. *)
Theorem initialize_reports :
  forall (W : Type) (handle : forall R : Type, op R -> W -> outcome R * W)
         (st : State W),
  exists ok st',
    initialize W handle st = (Ok ok, st') /\
    if ok then
      exists b p,
        browser (self st') = Some b /\ page (self st') = Some p /\
        trace st' = trace st ++ launchCalls (screenshotDir (self st)) b p
    else
      exists evs,
        trace st' = trace st ++ evs /\ 1 <= length evs <= 4 /\
        only (fun e => negb (isClose e)) evs.
Proof.
  intros W handle st.
  unfold initialize, try_catch, onPage, setBrowser, setPage, bind, getSelf, setSelf,
    call, ret.
  cbn [self world trace].
  destruct (handle unit (EnsureDir (screenshotDir (self st))) (world st))
    as [[[]|e1] w1]; cbn [self world trace page browser].
  2: { eexists false, _. split; [ reflexivity | ].
       eexists. cbn [trace]. split; [ reflexivity | ]. simpl. split; [ lia | reflexivity ]. }
  destruct (handle browserId Launch w1) as [[b|e2] w2]; cbn [self world trace page browser].
  2: { eexists false, _. split; [ reflexivity | ].
       eexists. cbn [trace]. rewrite <- app_assoc. split; [ reflexivity | ].
       simpl. split; [ lia | reflexivity ]. }
  destruct (handle pageId (NewPage b) w2) as [[p|e3] w3];
    cbn [self world trace page browser].
  2: { eexists false, _. split; [ reflexivity | ].
       eexists. cbn [trace]. rewrite <- !app_assoc. split; [ reflexivity | ].
       simpl. split; [ lia | reflexivity ]. }
  destruct (handle unit (OnPage p AddInitScript) w3) as [[[]|e4] w4];
    cbn [self world trace page browser].
  - eexists true, _. split; [ reflexivity | ].
    exists b, p. cbn [self trace page browser]. rewrite <- !app_assoc.
    repeat split.
  - eexists false, _. split; [ reflexivity | ].
    eexists. cbn [trace]. rewrite <- !app_assoc. split; [ reflexivity | ].
    simpl. split; [ lia | reflexivity ].
Qed.

(** X14.  [close] never throws and leaves the scraper's fields as they
    are (the closed handles are not reset).  It closes the page first and
    then the browser; when closing the page throws, the browser is not
    closed. *)
Theorem close_behaviour :
  forall (W : Type) (handle : forall R : Type, op R -> W -> outcome R * W)
         (st : State W),
  exists st',
    close W handle st = (Ok tt, st') /\
    self st' = self st /\
    trace st'
    = trace st
      ++ closeCalls (self st)
           (match page (self st) with
            | Some p =>
                match fst (handle unit (OnPage p ClosePage) (world st)) with
                | Ok _ => true
                | Throw _ => false
                end
            | None => true
            end).
Proof.
  intros W handle st.
  unfold close, closeCalls, try_catch, bind, getSelf, call, ret.
  destruct (page (self st)) as [p|]; cbn [self world trace fst].
  - destruct (handle unit (OnPage p ClosePage) (world st)) as [[[]|e1] w1];
      cbn [self world trace fst].
    + destruct (browser (self st)) as [b|]; cbn [self world trace].
      * destruct (handle unit (CloseBrowser b) w1) as [[[]|e2] w2];
          eexists; (split; [ reflexivity | ]); cbn [self trace];
          rewrite <- app_assoc; split; reflexivity.
      * eexists. split; [ reflexivity | ]. cbn [self trace].
        rewrite app_nil_r. cbn [app]. split; reflexivity.
    + eexists. split; [ reflexivity | ]. cbn [self trace].
      rewrite app_nil_r. split; reflexivity.
  - destruct (browser (self st)) as [b|]; cbn [self world trace].
    + destruct (handle unit (CloseBrowser b) (world st)) as [[[]|e2] w2];
        eexists; (split; [ reflexivity | ]); cbn [self trace app];
        split; reflexivity.
    + eexists. split; [ reflexivity | ]. cbn [self trace app].
      rewrite app_nil_r. split; reflexivity.
Qed.

(** ** The best viewport and the step tags *)

Ltac keep_step :=
  lazymatch goal with
  | |- triple _ (bind _ _) anyOutcome => apply triple_bind_any; [ | intros ? ]
  | |- triple _ (try_catch _ _) anyOutcome => apply triple_try_catch_any; [ | intros ? ]
  | |- triple _ (ret _) anyOutcome => apply triple_ret; exact Logic.I
  | |- triple _ (throw _) anyOutcome => apply triple_throw; exact Logic.I
  | |- triple _ (if ?b then _ else _) _ => destruct b
  | |- triple _ (match ?x with _ => _ end) _ => destruct x
  end.

Section StepTags.

Context {W : Type}.
Variable handle : forall R : Type, op R -> W -> outcome R * W.
Variable clock : W -> jsstring * W.

Local Abbreviation Inv := (@keepsBest W).

Lemma keeps_call {R : Type} (o : op R) : triple Inv (call W handle o) anyOutcome.
Proof.
  intros st HI. unfold call. destruct (handle R o (world st)) as [r w'].
  split; [ exact HI | exact Logic.I ].
Qed.

Lemma keeps_getSelf (Q : outcome Scraper -> Prop) :
  (forall s, bestOK (bestDailyMenuViewport s) -> Q (Ok s)) ->
  triple Inv (getSelf W) Q.
Proof. intros HQ st HI. split; [ exact HI | apply HQ; exact HI ]. Qed.

Lemma keeps_onPage {R : Type} (o : pageOp R) :
  triple Inv (onPage W handle o) anyOutcome.
Proof.
  unfold onPage. apply triple_bind_any.
  - apply keeps_getSelf. intros; exact Logic.I.
  - intros s. destruct (page s); [ apply keeps_call | apply triple_throw; exact Logic.I ].
Qed.

Lemma keeps_now : triple Inv (now W clock) anyOutcome.
Proof.
  intros st HI. unfold now. destruct (clock (world st)) as [iso w'].
  split; [ exact HI | exact Logic.I ].
Qed.

Lemma keeps_setBest b : bestOK b -> triple Inv (setBest W b) anyOutcome.
Proof. intros Hb st HI. split; [ exact Hb | exact Logic.I ]. Qed.

Ltac keeps :=
  repeat first [ apply keeps_onPage
               | apply keeps_call
               | apply keeps_now
               | apply keeps_getSelf; intros; exact Logic.I
               | keep_step ].

Lemma keeps_handleCloudflareProtection :
  triple Inv (handleCloudflareProtection W handle) anyOutcome.
Proof. unfold handleCloudflareProtection. keeps. Qed.

Lemma keeps_tryCookieSelectors sels :
  triple Inv (tryCookieSelectors W handle sels) anyOutcome.
Proof.
  induction sels as [|sel sels IH]; simpl.
  - keeps.
  - apply triple_bind_any; [ keeps | ].
    intros [|]; [ keeps | exact IH ].
Qed.

Lemma keeps_handleCookies : triple Inv (handleCookies W handle) anyOutcome.
Proof.
  unfold handleCookies.
  apply triple_try_catch_any; [ | intros; keeps ].
  apply triple_bind_any; [ keeps | intros _ ].
  apply triple_bind_any; [ apply keeps_tryCookieSelectors | intros ? ].
  keeps.
Qed.

Lemma triple_bind_then {A B : Type} (I : State W -> Prop) (m : M W A)
      (k : A -> M W B) (Q : outcome B -> Prop) :
  triple I m anyOutcome ->
  (forall a, triple I (k a) Q) ->
  (forall e, Q (Throw e)) ->
  triple I (bind m k) Q.
Proof.
  intros Hm Hk He.
  apply (triple_bind I m k anyOutcome Q Hm); [ intros a _; apply Hk | intros e _; apply He ].
Qed.

(** A round's report replaces the best viewport only by a visible one
    that carries the round's number. *)
Lemma keeps_updateBest d scrollY step :
  step < 3 ->
  triple Inv (updateBest W (dailyMenuInfo d (step + 1)) scrollY step) anyOutcome.
Proof.
  intros Hstep. unfold updateBest.
  destruct (visible (dailyMenuInfo d (step + 1))) eqn:Hvis; [ | keeps ].
  apply triple_bind_any; [ keeps | intros s ].
  match goal with
  | |- triple _ (if ?b then _ else _) _ => destruct b; [ | keeps ]
  end.
  apply keeps_setBest. simpl.
  destruct (dailyMenuInfo_bounds d (step + 1)) as (Hle & _).
  repeat split; first [ lia | exact Hvis ].
Qed.

Lemma parsed_tag minLength dflt vp d sec it :
  In it (extractFromSection minLength dflt vp d sec) -> viewport it = Some vp.
Proof.
  intros H. apply extractFromSection_In in H. destruct H as (t & item & H).
  apply parseListItem_fields in H. tauto.
Qed.

Lemma tags_extractItemsFromCurrentViewport siteName n :
  1 <= n <= 3 ->
  triple Inv (extractItemsFromCurrentViewport W handle siteName n)
         (itemsSatisfy stepTagOK).
Proof.
  intros Hn. unfold extractItemsFromCurrentViewport.
  apply triple_bind_then; [ apply keeps_onPage | | intros; exact Logic.I ].
  intros d. apply triple_ret. simpl. apply Forall_forall. intros it Hin.
  unfold stepTagOK. rewrite (parsed_tag _ _ _ _ _ _ Hin). exact Hn.
Qed.

Lemma tags_extractMenuFromScreenshot path site bestViewport :
  bestOK bestViewport ->
  triple Inv (extractMenuFromScreenshot W handle path site bestViewport)
         (itemsSatisfy stepTagOK).
Proof.
  intros Hbv. unfold extractMenuFromScreenshot.
  apply (triple_try_catch Inv _ _ (itemsSatisfy stepTagOK) (itemsSatisfy stepTagOK)).
  - apply triple_bind_then; [ keeps | | intros; exact Logic.I ].
    intros _. apply triple_bind_then; [ apply keeps_onPage | | intros; exact Logic.I ].
    intros d. apply triple_bind_then; [ apply keeps_onPage | | intros; exact Logic.I ].
    intros _. apply triple_ret. simpl. apply Forall_forall. intros it Hin.
    unfold stepTagOK. rewrite (parsed_tag _ _ _ _ _ _ Hin).
    destruct bestViewport as [bv|]; [ | exact Logic.I ].
    destruct Hbv as (_ & Hstep & _). exact Hstep.
  - auto.
  - intros e _. apply triple_ret. simpl.
    constructor; [ exact Logic.I | constructor ].
Qed.

Lemma tags_sampleStep site ts vh step :
  step < 3 ->
  triple Inv (sampleStep W handle site ts vh step) (stepSatisfies stepTagOK).
Proof.
  intros Hstep. unfold sampleStep.
  apply triple_bind_then; [ apply keeps_onPage | intros _ | intros; exact Logic.I ].
  apply triple_bind_then; [ apply keeps_onPage | intros _ | intros; exact Logic.I ].
  apply triple_bind_then; [ keeps | intros s | intros; exact Logic.I ].
  apply triple_bind_then; [ apply keeps_onPage | intros _ | intros; exact Logic.I ].
  apply triple_bind_then; [ apply keeps_onPage | intros d | intros; exact Logic.I ].
  apply triple_bind_then;
    [ apply keeps_updateBest; exact Hstep | intros _ | intros; exact Logic.I ].
  apply (triple_bind Inv _ _ (itemsSatisfy stepTagOK) (stepSatisfies stepTagOK)).
  - apply tags_extractItemsFromCurrentViewport. lia.
  - intros items Hitems. apply triple_ret. exact Hitems.
  - intros; exact Logic.I.
Qed.

Lemma tags_sampleSteps site ts vh : forall steps shots items,
  Forall (fun step => step < 3) steps ->
  Forall stepTagOK items ->
  triple Inv (sampleSteps W handle site ts vh steps shots items)
         (sampledSatisfy stepTagOK).
Proof.
  induction steps as [|step steps IH]; intros shots items Hsteps Hitems; simpl.
  - apply triple_ret. exact Hitems.
  - inversion Hsteps as [|x l Hstep Hrest]; subst.
    apply (triple_bind Inv _ _ (stepSatisfies stepTagOK) (sampledSatisfy stepTagOK)
                       (tags_sampleStep site ts vh step Hstep)).
    + intros r Hr. apply IH; [ assumption | ]. apply Forall_app. split; assumption.
    + intros; exact Logic.I.
Qed.

Lemma steps_below n : Forall (fun step => step < n) (seq 0 n).
Proof. apply Forall_forall. intros x Hx. apply in_seq in Hx. lia. Qed.

Lemma tags_scrapeRestaurant_try site (st : State W) :
  keepsBest (snd (scrapeRestaurant_try W handle clock site st)) /\
  menuDataSatisfies stepTagOK (fst (scrapeRestaurant_try W handle clock site st)).
Proof.
  unfold scrapeRestaurant_try.
  rewrite (bind_run_ok (setBest W None) _ st tt _ eq_refl). cbv beta.
  match goal with
  | |- keepsBest (snd (?m ?s)) /\ _ =>
      cut (triple Inv m (menuDataSatisfies stepTagOK));
        [ intros T; apply (T s); exact Logic.I | ]
  end.
  apply triple_bind_then; [ keeps | intros s | intros; exact Logic.I ].
  apply triple_bind_then; [ apply keeps_onPage | intros _ | intros; exact Logic.I ].
  apply triple_bind_then;
    [ apply keeps_handleCloudflareProtection | intros protected | intros; exact Logic.I ].
  apply triple_bind_then; [ keeps | intros _ | intros; exact Logic.I ].
  apply triple_bind_then; [ apply keeps_handleCookies | intros _ | intros; exact Logic.I ].
  apply triple_bind_then; [ keeps | intros _ | intros; exact Logic.I ].
  apply triple_bind_then; [ keeps | intros _ | intros; exact Logic.I ].
  apply triple_bind_then; [ keeps | intros _ | intros; exact Logic.I ].
  apply triple_bind_then; [ apply keeps_now | intros iso | intros; exact Logic.I ].
  apply triple_bind_then; [ apply keeps_onPage | intros d1 | intros; exact Logic.I ].
  apply triple_bind_then; [ apply keeps_onPage | intros d2 | intros; exact Logic.I ].
  apply triple_bind_then; [ apply keeps_onPage | intros _ | intros; exact Logic.I ].
  apply triple_bind_then; [ apply keeps_onPage | intros _ | intros; exact Logic.I ].
  apply (triple_bind Inv _ _ (sampledSatisfy stepTagOK) (menuDataSatisfies stepTagOK)).
  { apply tags_sampleSteps; [ | constructor ].
    eapply Forall_impl; [ | apply steps_below ].
    intros step Hstep. simpl in Hstep.
    pose proof (stepCount_le_3 (scrollHeight d2) (innerHeight d1)). lia. }
  2: { intros; exact Logic.I. }
  intros sampled Hsampled. cbv beta.
  apply triple_bind_then; [ apply keeps_onPage | intros _ | intros; exact Logic.I ].
  apply triple_bind_then; [ apply keeps_onPage | intros _ | intros; exact Logic.I ].
  apply triple_bind_then; [ apply keeps_onPage | intros _ | intros; exact Logic.I ].
  apply (triple_bind Inv _ _ (itemsSatisfy stepTagOK) (menuDataSatisfies stepTagOK)).
  - simpl in Hsampled. destruct (snd sampled) as [|it items].
    + apply (triple_bind Inv _ _
               (fun r => exists s', r = Ok s' /\ bestOK (bestDailyMenuViewport s'))
               (itemsSatisfy stepTagOK)).
      * apply keeps_getSelf. eauto.
      * intros s' (s'' & Hs & Hb). inversion Hs; subst s''.
        apply tags_extractMenuFromScreenshot. exact Hb.
      * intros; exact Logic.I.
    + apply triple_ret. exact Hsampled.
  - intros menuData HmenuData.
    apply triple_bind_then; [ apply keeps_now | | intros; exact Logic.I ].
    intros scrapedAt. apply triple_ret. exact HmenuData.
  - intros; exact Logic.I.
Qed.

End StepTags.

(** X15.  Within a visit the best viewport is reset first and afterwards
    only ever replaced by the report of a round in which the section was
    visible, under that round's number.  So every item of a returned
    record is tagged with the number of a round that ran (1 to 3), with
    "unknown", or not at all (the placeholder), and the best viewport left
    in the scraper is of this kind, whatever the browser answers. *)
Theorem step_tags_name_a_round :
  forall (W : Type) (handle : forall R : Type, op R -> W -> outcome R * W)
         (clock : W -> jsstring * W) (site : Site) (st st' : State W)
         (data : SiteData) (items : list MenuItem),
    scrapeRestaurant W handle clock site st = (Ok data, st') ->
    sd_menuData data = Some items ->
    Forall stepTagOK items /\ bestOK (bestDailyMenuViewport (self st')).
Proof.
  intros W handle clock site st st' data items Hrun Hitems.
  destruct (tags_scrapeRestaurant_try handle clock site st) as [Hbest Htags].
  unfold scrapeRestaurant, try_catch in Hrun.
  destruct (scrapeRestaurant_try W handle clock site st) as [[data'|e] st1];
    simpl in *.
  - inversion Hrun; subst. rewrite Hitems in Htags. auto.
  - inversion Hrun; subst. discriminate Hitems.
Qed.

Lemma step_tags_name_a_round_witness :
  exists data st' items,
    scrapeRestaurant Demo.browserState Demo.handle Demo.clock Demo.centralPub
                     (Demo.start [Demo.centralPub]) = (Ok data, st') /\
    sd_menuData data = Some items /\
    map viewport items = [Some (VStep 2)] /\
    Forall stepTagOK items.
Proof.
  destruct (scrapeRestaurant Demo.browserState Demo.handle Demo.clock Demo.centralPub
                             (Demo.start [Demo.centralPub]))
    as [[data|e] st'] eqn:Hrun; [ | vm_compute in Hrun; discriminate Hrun ].
  destruct (sd_menuData data) as [items|] eqn:Hitems.
  - exists data, st', items. split; [ reflexivity | ].
    split; [ exact Hitems | ].
    split.
    + assert (Hd : sd_menuData data
                   = sd_menuData
                       (match fst (scrapeRestaurant Demo.browserState Demo.handle
                                     Demo.clock Demo.centralPub
                                     (Demo.start [Demo.centralPub])) with
                        | Ok d => d
                        | Throw _ => data
                        end)) by (rewrite Hrun; reflexivity).
      rewrite Hitems in Hd. vm_compute in Hd. inversion Hd. reflexivity.
    + exact (proj1 (step_tags_name_a_round
                      Demo.browserState Demo.handle Demo.clock Demo.centralPub
                      (Demo.start [Demo.centralPub]) st' data items Hrun Hitems)).
  - exfalso. clear -Hrun Hitems.
    assert (Hd : sd_menuData data
                 = sd_menuData
                     (match fst (scrapeRestaurant Demo.browserState Demo.handle
                                   Demo.clock Demo.centralPub
                                   (Demo.start [Demo.centralPub])) with
                      | Ok d => d
                      | Throw _ => data
                      end)) by (rewrite Hrun; reflexivity).
    rewrite Hitems in Hd. vm_compute in Hd. discriminate Hd.
Defined.

(** ** The Discord messages *)

Section FormatterProperties.

Variable W : Type.
Variable clock : W -> jsstring * W.
Variable localClock : W -> jsstring * W.
Variable getRestaurantEmoji : jsstring -> jsstring.
Variable getRestaurantColor : jsstring -> Z.

Local Abbreviation formatSiteMenu' :=
  (formatSiteMenu W clock localClock getRestaurantEmoji getRestaurantColor).
Local Abbreviation formatSites' :=
  (formatSites W clock localClock getRestaurantEmoji getRestaurantColor).
Local Abbreviation formatForDiscord' :=
  (formatForDiscord W clock localClock getRestaurantEmoji getRestaurantColor).

Lemma formatMenuItem_nonempty it : formatMenuItem it <> [].
Proof. unfold formatMenuItem. destruct (priceShown (price it)); discriminate. Qed.

Lemma menuText_nonempty items : items <> [] -> menuText items <> [].
Proof.
  destruct items as [|it items]; [ congruence | ]. intros _.
  unfold menuText. simpl. intros H. apply app_eq_nil in H.
  destruct H as [H _]. exact (formatMenuItem_nonempty it H).
Qed.

(** What [formatSiteMenu] builds for a list of items that is not empty. *)
Lemma formatSiteMenu_items r items (st : State W) :
  r_items r = Some items -> items <> [] ->
  exists iso localTime st',
    formatSiteMenu' r st
    = (Ok (readMessages
             {| e_title := getRestaurantEmoji (r_name r) ++ js " " ++ r_name r
                                              ++ js " - daily menu";
                e_description := showNat (length items) ++ js " items available";
                e_url := Some (r_url r);
                e_color := getRestaurantColor (r_name r);
                e_timestamp := iso;
                e_fields := Some [ {| f_name := [8203%N];
                                      f_value := menuText items;
                                      f_inline := false |} ];
                e_footer := Some (js "Updated at " ++ localTime) |}
             (if 1500 <? length (menuText items) then 2 else 1)), st') /\
    self st' = self st /\ trace st' = trace st.
Proof.
  intros Hitems Hne. pose proof (menuText_nonempty items Hne) as Htext.
  unfold formatSiteMenu. rewrite Hitems.
  destruct items as [|it items]; [ congruence | ].
  unfold bind, now, nowLocal, ret.
  destruct (clock (world st)) as [iso w1]. cbn [world self trace].
  destruct (localClock w1) as [localTime w2].
  exists iso, localTime,
    {| self := self st; world := w2; trace := trace st |}.
  split; [ | split; reflexivity ].
  unfold groupItemsByCategory. cbn [fold_left]. unfold addField.
  cbn [fst snd b_fields b_length b_pushed f_value].
  rewrite jseqb_refl. fold (menuText (it :: items)).
  destruct (menuText (it :: items)) as [|c text] eqn:Ht; [ congruence | ].
  cbn [orElse Nat.add].
  destruct (1500 <? length (c :: text)); reflexivity.
Qed.

(** What it builds for an empty list. *)
Lemma formatSiteMenu_empty r (st : State W) :
  r_items r = Some [] ->
  exists m st',
    formatSiteMenu' r st = (Ok [m], st') /\ self st' = self st /\ trace st' = trace st.
Proof.
  intros Hitems. unfold formatSiteMenu. rewrite Hitems.
  unfold bind, now, ret. destruct (clock (world st)) as [iso w1].
  eexists. eexists. split; [ reflexivity | split; reflexivity ].
Qed.

Lemma formatSiteMenu_readable r (st : State W) :
  (exists items, r_items r = Some items) ->
  exists m ms st',
    formatSiteMenu' r st = (Ok (m :: ms), st') /\
    self st' = self st /\ trace st' = trace st.
Proof.
  intros ([|it items] & Hitems).
  - destruct (formatSiteMenu_empty r st Hitems) as (m & st' & H & Hs & Ht).
    exists m, [], st'. auto.
  - destruct (formatSiteMenu_items r (it :: items) st Hitems ltac:(discriminate))
      as (iso & loc & st' & H & Hs & Ht).
    rewrite H. unfold readMessages.
    destruct (1500 <? length (menuText (it :: items))); simpl;
      eexists; eexists; eexists; (split; [ reflexivity | auto ]).
Qed.

Lemma formatSites_readable : forall sites messages (st : State W),
  Forall (fun r => exists items, r_items r = Some items) sites ->
  exists new st',
    formatSites' sites messages st = (Ok (messages ++ new), st') /\
    length sites <= length new /\
    self st' = self st /\ trace st' = trace st.
Proof.
  induction sites as [|r sites IH]; intros messages st Hall; simpl.
  - exists [], st. rewrite app_nil_r. auto.
  - inversion Hall as [|x l Hr Hrest]; subst.
    destruct (formatSiteMenu_readable r st Hr) as (m & ms & st1 & H1 & Hs1 & Ht1).
    unfold bind. rewrite H1.
    destruct (IH (messages ++ m :: ms) st1 Hrest) as (new & st' & H2 & Hlen & Hs & Ht).
    exists ((m :: ms) ++ new), st'. rewrite H2, <- app_assoc.
    split; [ reflexivity | ]. rewrite length_app. simpl.
    split; [ lia | ]. split; congruence.
Qed.

Lemma formatForDiscord_readable results (st : State W) :
  Forall readable results ->
  exists messages st',
    formatForDiscord' results st = (Ok messages, st') /\
    (results <> [] -> messages <> []) /\
    self st' = self st /\ trace st' = trace st.
Proof.
  intros Hall. unfold formatForDiscord.
  assert (Hsucc : Forall (fun r => exists items, r_items r = Some items)
                         (filter r_success results)).
  { apply Forall_forall. intros r Hr. apply filter_In in Hr. destruct Hr as [Hin Hs].
    rewrite Forall_forall in Hall. apply (Hall r Hin Hs). }
  destruct (formatSites_readable (filter r_success results) [] st Hsucc)
    as (new & st1 & H1 & Hlen & Hs1 & Ht1).
  unfold bind at 1. rewrite H1. cbn [app].
  assert (Hsplit : results <> [] ->
                   filter r_success results <> [] \/
                   filter (fun r => negb (r_success r)) results <> []).
  { destruct results as [|r rs]; [ congruence | ]. intros _. simpl.
    destruct (r_success r); simpl; [ left | right ]; discriminate. }
  destruct (filter (fun r => negb (r_success r)) results) as [|f fs] eqn:Hfailed.
  - unfold bind, ret. destruct (filter r_success results) as [|s ss] eqn:Hsuccessful.
    + exists new, st1. split; [ reflexivity | ]. split; [ | auto ].
      intros Hne. destruct (Hsplit Hne); congruence.
    + exists new, st1. split; [ reflexivity | ]. split; [ | auto ].
      intros _ Hnil. subst new. simpl in Hlen. lia.
  - unfold formatErrorSummary, bind, now, ret.
    destruct (clock (world st1)) as [iso w2]. cbn [world self trace].
    destruct (filter r_success results) as [|s ss] eqn:Hsuccessful.
    + cbn [world self trace]. destruct (clock w2) as [iso2 w3].
      eexists. eexists. split; [ reflexivity | ]. cbn [self trace].
      split; [ | auto ]. intros _ Hnil. apply app_eq_nil in Hnil.
      destruct Hnil as [_ Hnil]. discriminate Hnil.
    + eexists. eexists. split; [ reflexivity | ]. cbn [self trace].
      split; [ | auto ]. intros _ Hnil. apply app_eq_nil in Hnil.
      destruct Hnil as [_ Hnil]. discriminate Hnil.
Qed.

Lemma wellShaped_readable sites results :
  Forall2 wellShaped sites results -> Forall readable results.
Proof.
  induction 1 as [|site r sites results Hr _ IH]; constructor; [ | exact IH ].
  intros Hs. destruct Hr as (_ & _ & Hr). rewrite Hs in Hr.
  destruct Hr as (_ & _ & _ & items & Hi & _). eauto.
Qed.

End FormatterProperties.

(** X16.  For a site with items, [formatSiteMenu] builds one embed with
    a single field that holds every item.  The check against 1500 code
    units splits nothing: when the text is longer, the embed is pushed
    once before its only field is added and once after the loop, and as
    both messages hold the same object the list returned carries the whole
    menu twice. *)
Theorem long_menu_is_sent_twice :
  forall (W : Type) (clock localClock : W -> jsstring * W)
         (getRestaurantEmoji : jsstring -> jsstring)
         (getRestaurantColor : jsstring -> Z)
         (r : SiteResult) (items : list MenuItem) (st : State W),
    r_items r = Some items -> items <> [] ->
    exists embed st',
      formatSiteMenu W clock localClock getRestaurantEmoji getRestaurantColor r st
      = (Ok (readMessages embed (if 1500 <? length (menuText items) then 2 else 1)),
         st') /\
      e_fields embed = Some [ {| f_name := [8203%N];
                                 f_value := menuText items;
                                 f_inline := false |} ].
Proof.
  intros W clock localClock emoji color r items st Hitems Hne.
  destruct (formatSiteMenu_items W clock localClock emoji color r items st Hitems Hne)
    as (iso & loc & st' & Hrun & _).
  eexists. exists st'. split; [ exact Hrun | reflexivity ].
Qed.

Lemma long_menu_is_sent_twice_witness :
  exists embed st',
    formatSiteMenu Demo.browserState Demo.clock Demo.clock
                   (fun _ => js "🏪") (fun _ => 3447003%Z)
                   {| r_name := js "Bistro"; r_url := Demo.tuesdayUrl;
                      r_success := true; r_scrapedAt := None;
                      r_itemCount := Some 60;
                      r_items := Some (repeat Demo.oneDecimalItem 60);
                      r_totalCount := Some 60; r_screenshotPath := None;
                      r_error := None |}
                   (Demo.start [])
    = (Ok [ {| embeds := [embed] |}; {| embeds := [embed] |} ], st') /\
    option_map (@length Field) (e_fields embed) = Some 1.
Proof.
  assert (Hne : repeat Demo.oneDecimalItem 60 <> []) by (simpl; discriminate).
  assert (Hlong : (1500 <? length (menuText (repeat Demo.oneDecimalItem 60))) = true)
    by (vm_compute; reflexivity).
  destruct (long_menu_is_sent_twice
              Demo.browserState Demo.clock Demo.clock
              (fun _ => js "🏪") (fun _ => 3447003%Z)
              {| r_name := js "Bistro"; r_url := Demo.tuesdayUrl;
                 r_success := true; r_scrapedAt := None;
                 r_itemCount := Some 60;
                 r_items := Some (repeat Demo.oneDecimalItem 60);
                 r_totalCount := Some 60; r_screenshotPath := None;
                 r_error := None |}
              (repeat Demo.oneDecimalItem 60) (Demo.start []) eq_refl Hne)
    as (embed & st' & Hrun & Hfields).
  rewrite Hlong in Hrun.
  exists embed, st'. split; [ exact Hrun | ].
  rewrite Hfields. reflexivity.
Defined.

(** X17.  The formatter can read every report of the scraper: whatever
    the browser did, [formatForDiscord] applied to the result of
    [scrapeAllSites] does not throw (the item list it dereferences is only
    missing on failure entries, which it never passes to
    [formatSiteMenu]), makes no call to the browser, and yields at least
    one message unless no site is enabled. *)
Theorem formatter_reads_every_report :
  forall (W : Type) (handle : forall R : Type, op R -> W -> outcome R * W)
         (clock localClock : W -> jsstring * W)
         (getRestaurantEmoji : jsstring -> jsstring)
         (getRestaurantColor : jsstring -> Z) (st : State W),
  exists results st1 messages st2,
    scrapeAllSites W handle clock st = (Ok results, st1) /\
    formatForDiscord W clock localClock getRestaurantEmoji getRestaurantColor
                     results st1 = (Ok messages, st2) /\
    (getEnabledSites (self st) <> [] -> messages <> []) /\
    trace st2 = trace st1.
Proof.
  intros W handle clock localClock emoji color st.
  destruct (scrapeAllSites_shape handle clock st) as (results & st1 & Hrun & Hshape).
  destruct (formatForDiscord_readable W clock localClock emoji color results st1
              (wellShaped_readable _ _ Hshape))
    as (messages & st2 & Hfmt & Hne & _ & Htr).
  exists results, st1, messages, st2.
  split; [ exact Hrun | ]. split; [ exact Hfmt | ]. split; [ | exact Htr ].
  intros Hsites. apply Hne. intros ->. inversion Hshape as [Hnil|]; subst.
  congruence.
Qed.

Section PriceLine.

Lemma digit_not_space c : is_digit c = true -> is_space c = false.
Proof.
  unfold is_digit, is_space. intros H.
  apply andb_true_iff in H. destruct H as [H1 H2].
  apply N.leb_le in H1. apply N.leb_le in H2.
  replace (c <=? 13)%N with false by (symmetry; apply N.leb_gt; lia).
  replace (8192 <=? c)%N with false by (symmetry; apply N.leb_gt; lia).
  replace (c =? 32)%N with false by (symmetry; apply N.eqb_neq; lia).
  replace (c =? 160)%N with false by (symmetry; apply N.eqb_neq; lia).
  replace (c =? 5760)%N with false by (symmetry; apply N.eqb_neq; lia).
  replace (c =? 8232)%N with false by (symmetry; apply N.eqb_neq; lia).
  replace (c =? 8233)%N with false by (symmetry; apply N.eqb_neq; lia).
  replace (c =? 8239)%N with false by (symmetry; apply N.eqb_neq; lia).
  replace (c =? 8287)%N with false by (symmetry; apply N.eqb_neq; lia).
  replace (c =? 12288)%N with false by (symmetry; apply N.eqb_neq; lia).
  replace (c =? 65279)%N with false by (symmetry; apply N.eqb_neq; lia).
  rewrite andb_false_r. reflexivity.
Qed.

Lemma money_shown qualifier amount :
  (qualifier = [] \/ qualifier = js "od ") -> amountText amount ->
  priceShown (qualifier ++ amount ++ js " €") = true.
Proof.
  intros Hq Ha. pose proof (money_not_NA qualifier amount Hq Ha) as Hna.
  assert (Hb : begins_with_space (qualifier ++ amount ++ js " €") = false).
  { destruct Ha as (ds1 & ds2 & Hne & _ & Hd & _ & ->).
    destruct Hq as [-> | ->]; [ | reflexivity ].
    destruct ds1 as [|c ds1]; [ congruence | ]. simpl in *.
    apply andb_true_iff in Hd. destruct Hd as [Hc _].
    apply digit_not_space. exact Hc. }
  assert (He : ends_with_space (qualifier ++ amount ++ js " €") = false).
  { unfold ends_with_space. rewrite !rev_app_distr.
    replace (js " €") with [32%N; 8364%N] by (vm_compute; reflexivity).
    reflexivity. }
  unfold priceShown. rewrite (trim_id _ Hb He).
  destruct (qualifier ++ amount ++ js " €") as [|c p] eqn:Hp.
  - destruct Ha as (ds1 & ds2 & Hne & _ & _ & _ & ->).
    destruct Hq as [-> | ->]; [ | discriminate Hp ].
    destruct ds1; [ congruence | discriminate Hp ].
  - destruct (jseqb (c :: p) (js "N/A")) eqn:Hj; [ | reflexivity ].
    apply jseqb_eq in Hj. contradiction.
Qed.

End PriceLine.

(** X18.  Every item the parser emits is shown with its price line: the
    branch of [formatMenuItem] that leaves the price out is only ever
    taken for the placeholder item of the fallback pass. *)
Theorem parsed_items_show_their_price :
  forall (d : Dom) (viewportNumber : nat) (bestViewport : option BestViewport)
         (it : MenuItem),
    In it (extractItemsFromCurrentViewport_page d viewportNumber) \/
    In it (extractMenuFromScreenshot_page d bestViewport) ->
    formatMenuItem it
    = js "**" ++ name it ++ js "**" ++ newline ++ price it ++ newline ++ newline.
Proof.
  intros d n bv it Hin.
  destruct (emitted_from_parser _ _ _ _ Hin) as (m & dflt & t & vp & item & Hp).
  apply parseListItem_inv in Hp. destruct Hp as (c & Hc & _ & _ & Hprice & _).
  apply candidateOf_priced in Hc. destruct Hc as (q & a & Hq & Ha & Hc).
  unfold formatMenuItem. rewrite Hprice, Hc, (money_shown q a Hq Ha).
  rewrite <- !app_assoc. reflexivity.
Qed.

Lemma parsed_items_show_their_price_witness :
  In Demo.oneDecimalItem (extractItemsFromCurrentViewport_page Demo.oneDecimal 1) /\
  formatMenuItem Demo.oneDecimalItem
  = js "**Gulášová polievka**" ++ newline ++ js "3,5 €" ++ newline ++ newline.
Proof.
  assert (Hin : In Demo.oneDecimalItem
                   (extractItemsFromCurrentViewport_page Demo.oneDecimal 1))
    by (vm_compute; left; reflexivity).
  split; [ exact Hin | ].
  rewrite (parsed_items_show_their_price Demo.oneDecimal 1 None Demo.oneDecimalItem
             (or_introl Hin)).
  vm_compute. reflexivity.
Defined.

(** ** The Discord notifier *)

Ltac inv_seq H :=
  let H1 := fresh "Hm" in
  let H2 := fresh "Hm" in
  inversion H as [ | | ? ? ? ? ? ? ? H1 H2 | | | | | | | | | ]; subst; clear H.

Section Webhook.

(** A match found by [exec], with the input it was found in. *)
Lemma search_sound_at re : forall suffix i m,
  search re i suffix = Some m ->
  exists pre sfx w st',
    suffix = pre ++ sfx /\ m_index m = i + length pre /\
    matches re (MState (m_index m) sfx []) w st'.
Proof.
  induction suffix as [|c tl IH]; intros i m H; simpl in H.
  - destruct (rmatch re Some (MState i [] [])) as [st|] eqn:E; [ | discriminate ].
    inversion H; subst m; clear H. simpl.
    apply rmatch_sound in E. destruct E as (w & st' & Hm & Hk).
    exists [], [], w, st'. simpl. rewrite Nat.add_0_r. auto.
  - destruct (rmatch re Some (MState i (c :: tl) [])) as [st|] eqn:E.
    + inversion H; subst m; clear H. simpl.
      apply rmatch_sound in E. destruct E as (w & st' & Hm & Hk).
      exists [], (c :: tl), w, st'. simpl. rewrite Nat.add_0_r. auto.
    + apply IH in H. destruct H as (pre & sfx & w & st' & -> & Hi & Hm).
      exists (c :: pre), sfx, w, st'. simpl. split; [ reflexivity | ].
      split; [ lia | exact Hm ].
Qed.

Lemma matches_lits s : forall st w st',
  matches (seq_of lit s) st w st' -> w = s.
Proof.
  induction s as [|c s IH]; intros st w st' H.
  - simpl in H. inversion H. reflexivity.
  - destruct s as [|c' s'].
    + simpl in H. destruct (matches_chr_inv _ _ _ _ H) as (x & -> & Hx & _).
      apply N.eqb_eq in Hx. subst. reflexivity.
    + change (seq_of lit (c :: c' :: s')) with (Seq (lit c) (seq_of lit (c' :: s'))) in H.
      inversion H as [ | | a b s1 w1 s2 w2 s3 H1 H2 | | | | | | | | | ]; subst; clear H.
      destruct (matches_chr_inv _ _ _ _ H1) as (x & -> & Hx & _).
      apply N.eqb_eq in Hx. subst x. apply IH in H2. subst w2. reflexivity.
Qed.

Lemma rmatch_lits s : forall k i tl cs,
  s <> [] ->
  rmatch (seq_of lit s) k (MState i (s ++ tl) cs) = k (MState (i + length s) tl cs).
Proof.
  induction s as [|c s IH]; intros k i tl cs Hne; [ congruence | ].
  destruct s as [|c' s'].
  - simpl seq_of. simpl app. unfold lit. rewrite rmatch_chr_cons, N.eqb_refl.
    simpl length. replace (i + 1) with (S i) by lia. reflexivity.
  - change (seq_of lit (c :: c' :: s')) with (Seq (lit c) (seq_of lit (c' :: s'))).
    rewrite rmatch_seq. simpl app. unfold lit at 1.
    rewrite rmatch_chr_cons, N.eqb_refl.
    change (c' :: s' ++ tl) with ((c' :: s') ++ tl).
    rewrite IH by discriminate.
    simpl length. replace (S i + S (length s')) with (i + S (S (length s'))) by lia.
    reflexivity.
Qed.

Lemma anchored_id_token_inv (P : regex) (sep : N) (tok : N -> bool) st w st' :
  matches (seqs [Bol; P; Plus digit; lit sep; Plus (Chr tok); Eol]) st w st' ->
  exists wp id token stp,
    pos st = 0 /\ matches P st wp stp /\
    rest st = wp ++ id ++ [sep] ++ token /\
    id <> [] /\ forallb is_digit id = true /\
    token <> [] /\ forallb tok token = true.
Proof.
  unfold seqs. cbn [fold_right]. intros Hm.
  repeat match goal with
         | H : matches (Seq _ _) _ _ _ |- _ => inv_seq H
         end.
  repeat match goal with
         | H : matches Bol _ _ _ |- _ => inversion H; subst; clear H
         | H : matches Eol _ _ _ |- _ => inversion H; subst; clear H
         | H : matches Eps _ _ _ |- _ => inversion H; subst; clear H
         end.
  match goal with
  | H : matches (Plus digit) _ _ _ |- _ =>
      destruct (matches_plus_chr _ _ _ _ H) as (Hid & Hdigits & _);
      apply matches_consumes in H; destruct H as [R5 _]
  end.
  match goal with
  | H : matches (lit _) _ _ _ |- _ =>
      destruct (matches_chr_inv _ _ _ _ H) as (x & -> & Hx & _);
      apply N.eqb_eq in Hx; subst x;
      apply matches_consumes in H; destruct H as [R7 _]
  end.
  match goal with
  | H : matches (Plus (Chr tok)) _ _ _ |- _ =>
      destruct (matches_plus_chr _ _ _ _ H) as (Htoken & Htok & _);
      apply matches_consumes in H; destruct H as [R9 _]
  end.
  match goal with
  | H : rest _ = [] |- _ => rewrite H in R9
  end.
  match goal with
  | H : matches P _ _ _ |- _ =>
      pose proof (matches_consumes _ _ _ _ H) as [R3 _]
  end.
  rewrite R9 in R7. rewrite R7 in R5. rewrite R5 in R3.
  rewrite app_nil_r in R3.
  eexists. eexists. eexists. eexists.
  split; [ eassumption | ]. split; [ eassumption | ].
  split; [ exact R3 | ]. repeat split; assumption.
Qed.

Lemma webhookPattern_sound url :
  test webhookPattern url = true -> webhookShape url.
Proof.
  unfold test, exec. destruct (search webhookPattern 0 url) as [m|] eqn:E; [ | discriminate ].
  intros _. apply search_sound_at in E.
  destruct E as (pre & sfx & w & st' & -> & Hi & Hm).
  apply anchored_id_token_inv in Hm.
  destruct Hm as (wp & id & token & stp & Hpos & Hp & Hrest & Hid & Hd & Htoken & Ht).
  simpl in Hpos, Hrest. apply matches_lits in Hp. subst wp.
  assert (Hpre : pre = []) by (destruct pre; [ reflexivity | simpl in *; lia ]).
  subst pre. simpl. exists id, token. auto.
Qed.

Lemma rmatch_bol k s cs : rmatch Bol k (MState 0 s cs) = k (MState 0 s cs).
Proof. reflexivity. Qed.

Lemma rmatch_eol k i cs : rmatch Eol k (MState i [] cs) = k (MState i [] cs).
Proof. reflexivity. Qed.

Lemma webhookPattern_complete url :
  webhookShape url -> test webhookPattern url = true.
Proof.
  intros (id & token & -> & Hid & Hdigits & Htoken & Htok).
  unfold test, exec.
  assert (H : exists res,
             rmatch webhookPattern Some
                    (MState 0 (webhookPrefix ++ id ++ js "/" ++ token) []) = Some res).
  { replace (js "/" ++ token) with (cu "/" :: token ++ [])
      by (rewrite app_nil_r; reflexivity).
    eexists. unfold webhookPattern, seqs. cbn [fold_right].
    rewrite rmatch_seq, rmatch_bol.
    rewrite rmatch_seq, rmatch_lits by (vm_compute; discriminate).
    rewrite rmatch_seq. unfold digit.
    apply plus_chr_greedy; [ assumption | assumption | vm_compute; reflexivity | ].
    rewrite rmatch_seq. unfold lit. rewrite rmatch_chr_cons, N.eqb_refl.
    rewrite rmatch_seq.
    apply plus_chr_greedy; [ assumption | assumption | reflexivity | ].
    rewrite rmatch_seq, rmatch_eol. reflexivity. }
  destruct H as (res & H).
  destruct (search_head _ _ _ _ H) as (m & ->). reflexivity.
Qed.

End Webhook.

(** X19.  [validateWebhookUrl] returns true exactly for an address that
    consists of "https://discord.com/api/webhooks/", a numeric id, a slash
    and a token of letters, digits, "_" and "-", with nothing before or
    after; for everything else it throws, with a message of its own when
    the address is not set or empty. *)
Theorem webhook_url_accepted_iff_shape :
  forall webhookUrl : option jsstring,
    (validateWebhookUrl webhookUrl = Ok true <->
     exists url, webhookUrl = Some url /\ webhookShape url) /\
    (forall b, validateWebhookUrl webhookUrl = Ok b -> b = true) /\
    (truthy webhookUrl = false ->
     validateWebhookUrl webhookUrl
     = Throw {| message := js "Discord webhook URL is not configured" |}).
Proof.
  intros webhookUrl. split; [ | split ].
  - split.
    + destruct webhookUrl as [[|c url]|]; simpl; try discriminate.
      destruct (test webhookPattern (c :: url)) eqn:E; [ | discriminate ].
      intros _. exists (c :: url). split; [ reflexivity | ].
      apply webhookPattern_sound. exact E.
    + intros (url & -> & Hshape).
      pose proof (webhookPattern_complete url Hshape) as E.
      destruct url as [|c url].
      * destruct Hshape as (id & token & Hurl & _).
        apply (f_equal (@length N)) in Hurl. rewrite length_app in Hurl.
        vm_compute in Hurl. discriminate Hurl.
      * simpl. rewrite E. reflexivity.
  - intros b. destruct webhookUrl as [[|c url]|]; simpl; try discriminate.
    destruct (test webhookPattern (c :: url)); [ | discriminate ].
    intros H. inversion H. reflexivity.
  - destruct webhookUrl as [[|c url]|]; simpl; try reflexivity. discriminate.
Qed.

Section Sending.

Variable answer : nat -> AxiosResult.

(** Whatever [sendMessage] throws is a new error: it has no response. *)
Lemma sendMessage_plain r e : sendMessage r = inl e -> se_response e = None.
Proof.
  destruct r as [status|status retry dataMessage| |text]; simpl;
    try destruct (status =? 204)%Z; intros H; inversion H; reflexivity.
Qed.

Lemma sendMessage_delivered r :
  if delivered r then sendMessage r = inr true
  else exists e, sendMessage r = inl e.
Proof.
  destruct r as [status|status retry dataMessage| |text]; simpl;
    try destruct (status =? 204)%Z; eauto.
Qed.

(** The loop never retries, so one round per message and one more is
    enough, and it amounts to [plainSend]. *)
Lemma sendLoop_plain messages : forall todo pre fuel allSent acts,
  messages = pre ++ todo ->
  length todo < fuel ->
  sendLoop answer fuel messages (length pre) (length pre) allSent acts
  = Some (allSent && forallb (fun j => delivered (answer j))
                             (seq (length pre) (length todo)),
          acts ++ plainSend answer (length pre) todo).
Proof.
  induction todo as [|m todo IH]; intros pre fuel allSent acts Hm Hfuel;
    (destruct fuel as [|fuel]; [ simpl in Hfuel; lia | ]); cbn [sendLoop].
  - rewrite Hm, app_nil_r.
    replace (nth_error pre (length pre)) with (@None Message)
      by (symmetry; apply nth_error_None; lia).
    simpl. rewrite andb_true_r, app_nil_r. reflexivity.
  - assert (Hnth : nth_error messages (length pre) = Some m).
    { rewrite Hm, nth_error_app2 by lia. rewrite Nat.sub_diag. reflexivity. }
    rewrite Hnth.
    assert (Hlast : (S (length pre) <? length messages)
                    = match todo with [] => false | _ :: _ => true end).
    { rewrite Hm, length_app. simpl. destruct todo; simpl.
      - apply Nat.ltb_ge. lia.
      - apply Nat.ltb_lt. lia. }
    assert (Hm' : messages = (pre ++ [m]) ++ todo) by (rewrite <- app_assoc; exact Hm).
    assert (Hlen : length (pre ++ [m]) = S (length pre))
      by (rewrite length_app; simpl; lia).
    simpl in Hfuel.
    pose proof (sendMessage_delivered (answer (length pre))) as Hsend.
    cbn [plainSend seq forallb length].
    destruct (delivered (answer (length pre))) eqn:Hd.
    + rewrite Hsend, Hlast.
      rewrite <- Hlen. rewrite (IH (pre ++ [m]) fuel allSent _ Hm') by lia.
      rewrite Hlen. cbn [andb]. f_equal. f_equal.
      destruct todo; simpl; rewrite <- ?app_assoc; reflexivity.
    + destruct Hsend as (e & He). rewrite He.
      rewrite (sendMessage_plain _ _ He).
      rewrite <- Hlen. rewrite (IH (pre ++ [m]) fuel false _ Hm') by lia.
      rewrite Hlen. cbn [andb]. rewrite andb_false_r. f_equal. f_equal.
      simpl. rewrite <- app_assoc. reflexivity.
Qed.

Lemma postsOf_app a b : postsOf (a ++ b) = postsOf a ++ postsOf b.
Proof.
  unfold postsOf. rewrite map_app.
  induction (map _ a) as [|[x|] l IH]; simpl; congruence.
Qed.

Lemma plainSend_posts : forall todo i, postsOf (plainSend answer i todo) = todo.
Proof.
  induction todo as [|m todo IH]; intros i; [ reflexivity | ].
  cbn [plainSend].
  change (Posted m :: ?l) with ([Posted m] ++ l).
  rewrite !postsOf_app, IH.
  destruct (delivered (answer i)); [ destruct todo | ]; reflexivity.
Qed.

Lemma plainSend_actions : forall todo i a,
  In a (plainSend answer i todo) ->
  match a with
  | Posted _ => True
  | Delayed ms => ms = 1000%Z
  | CleanedUp _ => False
  end.
Proof.
  induction todo as [|m todo IH]; intros i a Hin; [ contradiction | ].
  cbn [plainSend] in Hin. destruct Hin as [<- | Hin]; [ exact Logic.I | ].
  apply in_app_or in Hin. destruct Hin as [Hin | Hin]; [ | eapply IH; eauto ].
  destruct (delivered (answer i)); [ destruct todo | ]; simpl in Hin;
    try contradiction.
  destruct Hin as [<- | []]. reflexivity.
Qed.

Lemma sendMenuUpdates_plain messages screenshotPath fuel :
  length messages < fuel ->
  sendMenuUpdates answer fuel messages screenshotPath
  = Some (plainSend answer 0 messages
            ++ (if match messages with [] => false | _ :: _ => true end
                   && forallb (fun j => delivered (answer j)) (seq 0 (length messages))
                then [CleanedUp screenshotPath] else [])).
Proof.
  intros Hfuel. unfold sendMenuUpdates.
  destruct messages as [|m todo]; [ reflexivity | ].
  pose proof (sendLoop_plain (m :: todo) (m :: todo) [] fuel true [] eq_refl Hfuel)
    as Hloop.
  change (length (@nil Message)) with 0 in Hloop. rewrite Hloop.
  cbn [app andb].
  destruct (forallb _ _); [ reflexivity | rewrite app_nil_r; reflexivity ].
Qed.

End Sending.

(** X20.  [sendMenuUpdates] posts every message exactly once and in
    order, however the posts end.  The retry after a 429 never happens,
    because [sendMessage] replaces every error by a new one that has no
    [response]; so the loop ends after one round per message, a failed
    message is dropped, and the only pauses are the 1000 ms between
    deliveries.  The screenshots are cleaned up exactly when there was a
    message and every post was answered with 204. *)
Theorem every_message_is_posted_once :
  forall (answer : nat -> AxiosResult) (messages : list Message)
         (screenshotPath : jsstring) (fuel : nat),
    length messages < fuel ->
    exists acts,
      sendMenuUpdates answer fuel messages screenshotPath = Some acts /\
      postsOf acts = messages /\
      (forall ms, In (Delayed ms) acts -> ms = 1000%Z) /\
      (existsb isCleanUp acts = true <->
       messages <> [] /\ forall i, i < length messages -> delivered (answer i) = true).
Proof.
  intros answer messages path fuel Hfuel.
  rewrite (sendMenuUpdates_plain answer messages path fuel Hfuel).
  eexists. split; [ reflexivity | ].
  assert (Hall : forallb (fun j => delivered (answer j)) (seq 0 (length messages)) = true
                 <-> forall i, i < length messages -> delivered (answer i) = true).
  { rewrite forallb_forall. split.
    - intros H i Hi. apply H. apply in_seq. lia.
    - intros H i Hi. apply in_seq in Hi. apply H. lia. }
  assert (Hnone : existsb isCleanUp (plainSend answer 0 messages) = false).
  { destruct (existsb isCleanUp (plainSend answer 0 messages)) eqn:E; [ | reflexivity ].
    apply existsb_exists in E. destruct E as (a & Hin & Ha).
    apply plainSend_actions in Hin. destruct a; try discriminate Ha. contradiction. }
  split; [ | split ].
  - rewrite postsOf_app, plainSend_posts.
    destruct (_ && _); simpl; apply app_nil_r.
  - intros ms Hin. apply in_app_or in Hin. destruct Hin as [Hin | Hin].
    + apply (plainSend_actions answer _ _ _ Hin).
    + destruct (_ && _); simpl in Hin; [ destruct Hin as [Hin | []]; discriminate Hin | contradiction ].
  - rewrite existsb_app, Hnone. cbn [orb].
    destruct messages as [|m todo].
    + simpl. split; [ discriminate | intros [H _]; congruence ].
    + cbn [andb]. destruct (forallb _ _) eqn:E.
      * simpl. split; [ intros _ | reflexivity ].
        split; [ discriminate | apply Hall; reflexivity ].
      * simpl. split; [ discriminate | ].
        intros [_ H]. apply Hall in H. congruence.
Qed.

Lemma every_message_is_posted_once_witness :
  exists acts,
    sendMenuUpdates (fun n => if n =? 0 then RejectedWithResponse 429 (Some 1%Z) None
                              else Resolved 204)
                    3 [ {| embeds := [] |}; {| embeds := [] |} ] (js "./screenshots")
    = Some acts /\
    acts = [ Posted {| embeds := [] |}; Posted {| embeds := [] |} ].
Proof.
  destruct (every_message_is_posted_once
              (fun n => if n =? 0 then RejectedWithResponse 429 (Some 1%Z) None
                        else Resolved 204)
              [ {| embeds := [] |}; {| embeds := [] |} ] (js "./screenshots") 3
              ltac:(simpl; lia)) as (acts & Hrun & _).
  exists acts. split; [ exact Hrun | ].
  vm_compute in Hrun. inversion Hrun. reflexivity.
Defined.

(** ** Site runner: which failures a visit survives *)

Section Survival.

Context {W : Type}.
Variable handle : forall R : Type, op R -> W -> outcome R * W.
Variable clock : W -> jsstring * W.
Variable p : pageId.
Variable tr0 : list event.
Variable site : Site.

(** The calls made outside every [try] block return. *)
Hypothesis H_must :
  forall q (R : Type) (o : pageOp R) w,
    mustSucceed o = true -> exists r, fst (handle R (OnPage q o) w) = Ok r.

Local Abbreviation Inv := (@since W (Some p) anyEvent tr0).

Lemma must_returns {R : Type} (o : pageOp R) :
  mustSucceed o = true -> triple Inv (onPage W handle o) (returns anything).
Proof.
  intros Ho. apply triple_onPage.
  - intros q _. split; [ reflexivity | ]. intros w.
    destruct (H_must q R o w Ho) as (r & ->). exists r.
    split; [ reflexivity | exact Logic.I ].
  - discriminate.
Qed.

Ltac survive_step :=
  lazymatch goal with
  | |- triple _ (bind _ _) (returns _) => apply bind_anything; [ | intros ? ]
  | |- triple _ (ret _) (returns anything) => apply ret_anything
  | |- triple _ (onPage _ _ _) (returns anything) => apply must_returns; reflexivity
  | |- triple _ (getSelf _) (returns anything) => apply getSelf_returns
  | |- triple _ (now _ _) (returns anything) => apply now_returns
  | |- triple _ (setBest _ _) (returns anything) => apply setBest_returns
  | |- triple _ (if ?b then _ else _) _ => destruct b
  | |- triple _ (match ?x with _ => _ end) _ => destruct x
  end.

Lemma any_page (pg : option pageId) :
  forall q (R : Type) (o : pageOp R),
    pg = Some q -> isClosePage o = false -> anyEvent (ev (OnPage q o)) = true.
Proof. reflexivity. Qed.

Lemma survive_extractItems siteName n :
  triple Inv (extractItemsFromCurrentViewport W handle siteName n) (returns anything).
Proof. unfold extractItemsFromCurrentViewport. repeat survive_step. Qed.

Lemma survive_sampleStep ts vh step :
  triple Inv (sampleStep W handle site ts vh step) (returns anything).
Proof.
  unfold sampleStep.
  do 5 (apply bind_anything; [ survive_step | intros ? ]).
  apply bind_anything; [ apply updateBest_returns | intros _ ].
  apply bind_anything; [ apply survive_extractItems | intros ? ].
  apply ret_anything.
Qed.

Lemma survive_sampleSteps ts vh : forall steps shots items,
  triple Inv (sampleSteps W handle site ts vh steps shots items) (returns anything).
Proof.
  induction steps as [|step steps IH]; intros shots items; simpl.
  - apply ret_anything.
  - apply bind_anything; [ apply survive_sampleStep | intros r; apply IH ].
Qed.

Lemma survive_extractMenu path bestViewport :
  triple Inv (extractMenuFromScreenshot W handle path site bestViewport)
         (returns anything).
Proof.
  unfold extractMenuFromScreenshot. apply caught_returns.
  repeat lazymatch goal with
         | |- triple _ (onPage _ _ _) anyOutcome =>
             apply triple_onPage_any; intros ? ?; reflexivity
         | |- triple _ (bind _ _) anyOutcome => apply triple_bind_any; [ | intros ? ]
         | |- triple _ (ret _) anyOutcome => apply triple_ret; exact Logic.I
         | |- triple _ (if ?b then _ else _) _ => destruct b
         | |- triple _ (match ?x with _ => _ end) _ => destruct x
         end.
Qed.

Lemma survive_scrapeRestaurant_try :
  triple Inv (scrapeRestaurant_try W handle clock site) (returns (successData site)).
Proof.
  unfold scrapeRestaurant_try.
  apply bind_anything; [ survive_step | intros _ ].
  apply bind_anything; [ survive_step | intros s ].
  apply bind_anything; [ survive_step | intros _ ].
  apply bind_anything; [ apply handleCloudflareProtection_returns | intros protected ].
  apply bind_anything.
  { destruct protected; [ | apply ret_anything ].
    apply bind_anything; [ survive_step | intros _ ].
    apply caught_returns. apply triple_onPage_any. intros ? ?. reflexivity. }
  intros _.
  apply bind_anything; [ apply handleCookies_returns | intros _ ].
  apply bind_anything.
  { destruct (truthy (customScript site)); [ | apply ret_anything ].
    apply caught_returns. apply triple_call; [ reflexivity | intros; exact Logic.I ]. }
  intros _.
  apply bind_anything.
  { destruct (waitForSelector site) as [[|c sel]|]; survive_step. }
  intros _.
  apply bind_anything.
  { apply caught_returns.
    apply triple_bind_any; [ | intros _ ]; apply triple_onPage_any; intros ? ?; reflexivity. }
  intros _.
  do 5 (apply bind_anything; [ survive_step | intros ? ]).
  apply bind_anything; [ apply survive_sampleSteps | intros sampled ].
  do 3 (apply bind_anything; [ survive_step | intros ? ]).
  apply bind_anything.
  { destruct (snd sampled); [ | apply ret_anything ].
    apply bind_anything; [ survive_step | intros s' ].
    apply survive_extractMenu. }
  intros menuData.
  apply bind_anything; [ survive_step | intros scrapedAt ].
  apply triple_ret. eexists; split; [ reflexivity | ].
  unfold successData. simpl. repeat split; try discriminate.
  eexists. split; reflexivity.
Qed.

End Survival.


Lemma flaky_must_succeed :
  forall q (R : Type) (o : pageOp R) w,
    mustSucceed o = true -> exists r, fst (flakyHandle R (OnPage q o) w) = Ok r.
Proof.
  intros q R o w Ho. unfold flakyHandle. rewrite Ho.
  destruct o; try discriminate Ho; simpl; eexists; reflexivity.
Qed.


(** ** Site runner: the selector a site waits for *)

Section Selector.

Context {W : Type}.
Variable handle : forall R : Type, op R -> W -> outcome R * W.
Variable clock : W -> jsstring * W.

Lemma post_bind_throws {A B : Type} (m : M W A) (k : A -> M W B)
      (Q : outcome B -> Prop) :
  (forall st, exists e, fst (m st) = Throw e) ->
  (forall e, Q (Throw e)) ->
  post (bind m k) Q.
Proof.
  intros Hm HQ st. unfold bind. destruct (Hm st) as (e & He).
  destruct (m st) as [o st1]. simpl in He. subst o. apply HQ.
Qed.

Lemma scrapeRestaurant_try_selector site sel :
  waitForSelector site = Some sel -> sel <> [] ->
  (forall q w, exists e, fst (handle unit (OnPage q (WaitForSelector sel 10000)) w)
                         = Throw e) ->
  post (scrapeRestaurant_try W handle clock site) (fun r => exists e, r = Throw e).
Proof.
  intros Hsel Hne Hthrows. unfold scrapeRestaurant_try.
  do 7 (apply post_bind; [ intros ? | eauto ]).
  apply post_bind_throws; [ | eauto ].
  rewrite Hsel. destruct sel as [|c sel]; [ congruence | ].
  intros st. unfold onPage, bind, getSelf, call, throw.
  destruct (page (self st)) as [q|]; [ | exists nullError; reflexivity ].
  destruct (Hthrows q (world st)) as (e & He).
  destruct (handle unit (OnPage q (WaitForSelector (c :: sel) 10000)) (world st))
    as [o w']. simpl in He. subst o. exists e. reflexivity.
Qed.

End Selector.

(** X22.  A site that is configured to wait for a selector fails when the
    selector does not appear: the error of [waitForSelector] is not caught
    where it is raised (lines 163-167), so on pages where that call throws
    no visit succeeds, whatever else the browser does, and the record
    carries no items. *)
Theorem selector_timeout_fails_visit :
  forall (W : Type) (handle : forall R : Type, op R -> W -> outcome R * W)
         (clock : W -> jsstring * W) (site : Site) (sel : jsstring) (st : State W),
    waitForSelector site = Some sel -> sel <> [] ->
    (forall q w, exists e, fst (handle unit (OnPage q (WaitForSelector sel 10000)) w)
                           = Throw e) ->
    exists data st',
      scrapeRestaurant W handle clock site st = (Ok data, st') /\
      sd_success data = false /\ sd_menuData data = None /\ sd_error data <> None.
Proof.
  intros W handle clock site sel st Hsel Hne Hthrows.
  destruct (scrapeRestaurant_try_selector handle clock site sel Hsel Hne Hthrows st)
    as (e & He).
  unfold scrapeRestaurant, try_catch.
  destruct (scrapeRestaurant_try W handle clock site st) as [o st1].
  simpl in He. subst o. eexists. eexists. split; [ reflexivity | ].
  simpl. repeat split. discriminate.
Qed.

Lemma selector_timeout_fails_visit_witness :
  exists data st',
    scrapeRestaurant Demo.browserState noSelectorHandle Demo.clock
                     {| site_name := js "Utorok Bistro"; site_url := Demo.tuesdayUrl;
                        site_enabled := true; customScript := None;
                        waitForSelector := Some (js "main, [role=main]") |}
                     (Demo.start []) = (Ok data, st') /\
    sd_success data = false /\
    sd_error data = Some (message selectorError).
Proof.
  assert (Hne : js "main, [role=main]" <> []) by (vm_compute; discriminate).
  destruct (selector_timeout_fails_visit
              Demo.browserState noSelectorHandle Demo.clock
              {| site_name := js "Utorok Bistro"; site_url := Demo.tuesdayUrl;
                 site_enabled := true; customScript := None;
                 waitForSelector := Some (js "main, [role=main]") |}
              (js "main, [role=main]") (Demo.start []) eq_refl Hne
              (fun q w => ex_intro _ selectorError eq_refl))
    as (data & st' & Hrun & Hs & _).
  exists data, st'. split; [ exact Hrun | ]. split; [ exact Hs | ].
  replace data with
    (match fst (scrapeRestaurant Demo.browserState noSelectorHandle Demo.clock
                     {| site_name := js "Utorok Bistro"; site_url := Demo.tuesdayUrl;
                        site_enabled := true; customScript := None;
                        waitForSelector := Some (js "main, [role=main]") |}
                     (Demo.start [])) with
     | Ok d => d
     | Throw _ => data
     end) by (rewrite Hrun; reflexivity).
  vm_compute. reflexivity.
Defined.

(** ** The time stamp in the screenshot names *)

Section Timestamp.

Lemma first_occurrence (c : N) : forall s,
  ~ In c s \/ exists pre tl, s = pre ++ c :: tl /\ ~ In c pre.
Proof.
  induction s as [|x s IH]; [ left; intros [] | ].
  destruct (N.eq_dec c x) as [<- | Hne].
  - right. exists [], s. split; [ reflexivity | intros [] ].
  - destruct IH as [Hnot | (pre & tl & -> & Hpre)].
    + left. intros [H | H]; [ congruence | contradiction ].
    + right. exists (x :: pre), tl. split; [ reflexivity | ].
      intros [H | H]; [ congruence | contradiction ].
Qed.

Lemma search_lit_none c : forall s i, ~ In c s -> search (lit c) i s = None.
Proof.
  induction s as [|x s IH]; intros i Hnot; [ reflexivity | ].
  cbn [search]. unfold lit at 1. rewrite rmatch_chr_cons.
  replace (c =? x)%N with false
    by (symmetry; apply N.eqb_neq; intros ->; apply Hnot; left; reflexivity).
  apply IH. intros H. apply Hnot. right. exact H.
Qed.

Lemma search_lit_first c : forall pre i tl,
  ~ In c pre ->
  search (lit c) i (pre ++ c :: tl)
  = Some (MatchResult (i + length pre) (S (i + length pre)) [c] []).
Proof.
  induction pre as [|x pre IH]; intros i tl Hnot.
  - cbn [app search]. unfold lit at 1. rewrite rmatch_chr_cons, N.eqb_refl.
    cbn [pos caps length]. rewrite Nat.add_0_r.
    replace (S i - i) with 1 by lia. reflexivity.
  - cbn [app search]. unfold lit at 1. rewrite rmatch_chr_cons.
    replace (c =? x)%N with false
      by (symmetry; apply N.eqb_neq; intros ->; apply Hnot; left; reflexivity).
    rewrite IH by (intros H; apply Hnot; right; exact H).
    cbn [length]. rewrite !Nat.add_succ_comm. reflexivity.
Qed.

Lemma flat_map_absent (c : N) (repl : jsstring) : forall s,
  ~ In c s -> flat_map (fun x => if (c =? x)%N then repl else [x]) s = s.
Proof.
  induction s as [|x s IH]; intros Hnot; [ reflexivity | ].
  cbn [flat_map].
  replace (c =? x)%N with false
    by (symmetry; apply N.eqb_neq; intros ->; apply Hnot; left; reflexivity).
  rewrite IH by (intros H; apply Hnot; right; exact H). reflexivity.
Qed.

(** Replacing every occurrence of one code unit. *)
Lemma replace_from_lit c repl : forall fuel s i,
  length s < fuel ->
  replace_from fuel (lit c) repl i s
  = flat_map (fun x => if (c =? x)%N then repl else [x]) s.
Proof.
  induction fuel as [|fuel IH]; intros s i Hfuel; [ lia | ].
  cbn [replace_from].
  destruct (first_occurrence c s) as [Hnot | (pre & tl & -> & Hpre)].
  - rewrite (search_lit_none c s i Hnot). symmetry. apply flat_map_absent. exact Hnot.
  - rewrite (search_lit_first c pre i tl Hpre). cbn [m_index m_end].
    replace (S (i + length pre) =? i + length pre) with false
      by (symmetry; apply Nat.eqb_neq; lia).
    replace (i + length pre - i) with (length pre) by lia.
    replace (S (i + length pre) - i) with (S (length pre)) by lia.
    rewrite firstn_app, Nat.sub_diag, firstn_all. cbn [firstn]. rewrite app_nil_r.
    replace (skipn (S (length pre)) (pre ++ c :: tl)) with tl.
    + rewrite IH by (rewrite length_app in Hfuel; simpl in Hfuel; lia).
      rewrite flat_map_app. cbn [flat_map]. rewrite N.eqb_refl.
      rewrite (flat_map_absent c repl pre Hpre). reflexivity.
    + change (pre ++ c :: tl) with (pre ++ [c] ++ tl).
      rewrite app_assoc.
      replace (S (length pre)) with (length (pre ++ [c]))
        by (rewrite length_app; simpl; lia).
      rewrite skipn_app, Nat.sub_diag, skipn_all. reflexivity.
Qed.

Lemma timestampOf_map iso :
  timestampOf iso = upTo (cu ".") (map colonToDash iso).
Proof.
  unfold timestampOf, replace_all.
  rewrite replace_from_lit by lia. f_equal.
  induction iso as [|x iso IH]; [ reflexivity | ].
  cbn [flat_map map]. rewrite IH. unfold colonToDash.
  destruct (cu ":" =? x)%N; reflexivity.
Qed.

Lemma upTo_In c : forall s x, In x (upTo c s) -> In x s /\ x <> c.
Proof.
  induction s as [|y s IH]; intros x Hin; [ contradiction | ].
  cbn [upTo] in Hin. destruct (N.eqb_spec y c) as [-> | Hne]; [ contradiction | ].
  destruct Hin as [<- | Hin]; [ split; [ left; reflexivity | exact Hne ] | ].
  destruct (IH x Hin). split; [ right; assumption | assumption ].
Qed.

Lemma upTo_length c : forall s, length (upTo c s) <= length s.
Proof.
  induction s as [|y s IH]; [ simpl; lia | ].
  cbn [upTo]. destruct (y =? c)%N; simpl; lia.
Qed.

End Timestamp.

(** X23.  The time stamp used in the screenshot names is the ISO time
    with every colon turned into a dash, cut before the first full stop:
    it contains neither a colon nor a full stop and is no longer than the
    ISO time. *)
Theorem timestamp_has_no_colon_or_stop :
  forall iso : jsstring,
    timestampOf iso = upTo (cu ".") (map colonToDash iso) /\
    ~ In (cu ":") (timestampOf iso) /\
    ~ In (cu ".") (timestampOf iso) /\
    length (timestampOf iso) <= length iso.
Proof.
  intros iso. rewrite timestampOf_map.
  split; [ reflexivity | ]. split; [ | split ].
  - intros H. apply upTo_In in H. destruct H as [H _].
    apply in_map_iff in H. destruct H as (x & Hx & _).
    unfold colonToDash in Hx. destruct (cu ":" =? x)%N eqn:E.
    + vm_compute in Hx. discriminate Hx.
    + apply N.eqb_neq in E. congruence.
  - intros H. apply upTo_In in H. destruct H as [_ H]. congruence.
  - rewrite <- (length_map colonToDash iso). apply upTo_length.
Qed.

(** ** Site runner: the challenge check *)

Section Challenge.

Context {W : Type}.
Variable handle : forall R : Type, op R -> W -> outcome R * W.

Lemma onPage_closed {R : Type} (o : pageOp R) (st : State W) :
  page (self st) = None -> onPage W handle o st = (Throw nullError, st).
Proof.
  intros Hp. unfold onPage, bind, getSelf. rewrite Hp. reflexivity.
Qed.

Lemma handleCloudflareProtection_report (st : State W) :
  exists b st',
    handleCloudflareProtection W handle st = (Ok b, st') /\
    self st' = self st /\
    (b = true ->
     exists p d1 w1 w2 d2,
       page (self st) = Some p /\
       handle Dom (OnPage p Evaluate) (world st) = (Ok d1, w1) /\
       fst (handle unit (OnPage p (WaitForTimeout 5000)) w1) = Ok tt /\
       snd (handle unit (OnPage p (WaitForTimeout 5000)) w1) = w2 /\
       handle Dom (OnPage p Evaluate) w2 = (Ok d2, world st') /\
       stillProtected d2 = true /\
       trace st' = trace st ++ challengeCalls p).
Proof.
  unfold handleCloudflareProtection, try_catch.
  destruct (page (self st)) as [p|] eqn:Hp.
  - unfold bind at 1. rewrite (onPage_run handle Evaluate st p Hp).
    destruct (handle Dom (OnPage p Evaluate) (world st)) as [[d1|e1] w1] eqn:E1;
      cbn [fst snd];
      [ | eexists; eexists; split; [ reflexivity | split; [ reflexivity | discriminate ] ] ].
    destruct (existsb _ cloudflareIndicators);
      [ | eexists; eexists; split; [ reflexivity | split; [ reflexivity | discriminate ] ] ].
    unfold bind at 1. erewrite (onPage_run handle (WaitForTimeout 5000)); [ | exact Hp ].
    cbn [world self trace].
    destruct (handle unit (OnPage p (WaitForTimeout 5000)) w1) as [[[]|e2] w2] eqn:E2;
      cbn [fst snd];
      [ | eexists; eexists; split; [ reflexivity | split; [ reflexivity | discriminate ] ] ].
    unfold bind at 1. erewrite (onPage_run handle Evaluate); [ | exact Hp ].
    cbn [world self trace].
    destruct (handle Dom (OnPage p Evaluate) w2) as [[d2|e3] w3] eqn:E3;
      cbn [fst snd];
      [ | eexists; eexists; split; [ reflexivity | split; [ reflexivity | discriminate ] ] ].
    unfold ret. eexists. eexists. split; [ reflexivity | ].
    split; [ reflexivity | ]. intros Hb.
    exists p, d1, w1, w2, d2. cbn [world trace].
    split; [ reflexivity | ]. split; [ exact E1 | ].
    split; [ rewrite E2; reflexivity | ]. split; [ rewrite E2; reflexivity | ].
    split; [ exact E3 | ]. split; [ exact Hb | ].
    unfold challengeCalls. rewrite <- !app_assoc. reflexivity.
  - unfold bind at 1. rewrite (onPage_closed Evaluate st Hp).
    eexists. eexists. split; [ reflexivity | split; [ reflexivity | discriminate ] ].
Qed.

End Challenge.

(** X24.  The challenge check never throws and leaves the scraper object
    as it was.  It reports a challenge only after it has read the page,
    waited five seconds and read the page again, all three calls having
    succeeded in that order with nothing else in between, and the text
    of the second reading still says that the visitor is being
    verified. *)
Theorem challenge_reported_after_second_look :
  forall (W : Type) (handle : forall R : Type, op R -> W -> outcome R * W)
         (st : State W),
    exists b st',
      handleCloudflareProtection W handle st = (Ok b, st') /\
      self st' = self st /\
      (b = true ->
       exists p d1 w1 w2 d2,
         page (self st) = Some p /\
         handle Dom (OnPage p Evaluate) (world st) = (Ok d1, w1) /\
         fst (handle unit (OnPage p (WaitForTimeout 5000)) w1) = Ok tt /\
         snd (handle unit (OnPage p (WaitForTimeout 5000)) w1) = w2 /\
         handle Dom (OnPage p Evaluate) w2 = (Ok d2, world st') /\
         stillProtected d2 = true /\
         trace st' = trace st ++ challengeCalls p).
Proof.
  intros W handle st. apply handleCloudflareProtection_report.
Qed.

(** ** Item parser: the labels stripped from a name *)

Section Labels.

Lemma same_app : forall a p b q,
  sameIgnoringCase a p = true -> sameIgnoringCase b q = true ->
  sameIgnoringCase (a ++ b) (p ++ q) = true.
Proof.
  induction a as [|x a IH]; intros [|y p] b q Ha Hb; simpl in Ha;
    try discriminate Ha; simpl; [ exact Hb | ].
  apply andb_true_iff in Ha. destruct Ha as [Hx Ha].
  rewrite Hx. simpl. apply IH; assumption.
Qed.

Lemma same_app_inv : forall p q label,
  sameIgnoringCase label (p ++ q) = true ->
  exists a b,
    label = a ++ b /\ sameIgnoringCase a p = true /\ sameIgnoringCase b q = true.
Proof.
  induction p as [|y p IH]; intros q label H.
  - exists [], label. auto.
  - destruct label as [|x label]; simpl in H; [ discriminate H | ].
    apply andb_true_iff in H. destruct H as [Hx H].
    destruct (IH q label H) as (a & b & -> & Ha & Hb).
    exists (x :: a), b. simpl. rewrite Hx, Ha. auto.
Qed.

Lemma same_first a p :
  sameIgnoringCase a p = true ->
  option_map Case.canonicalize (hd_error a) = option_map Case.canonicalize (hd_error p).
Proof.
  destruct a as [|x a], p as [|y p]; simpl; try discriminate; [ reflexivity | ].
  intros H. apply andb_true_iff in H. destruct H as [Hx _].
  apply N.eqb_eq in Hx. rewrite Hx. reflexivity.
Qed.

Lemma same_nonempty a p : sameIgnoringCase a p = true -> p <> [] -> a <> [].
Proof. destruct a, p; simpl; congruence. Qed.

(** A literal text under the [i] flag accepts what is the same text when
    case is ignored, and nothing else. *)
Lemma rmatch_same p : forall a k i tl cs,
  p <> [] -> sameIgnoringCase a p = true ->
  rmatch (seq_of liti p) k (MState i (a ++ tl) cs) = k (MState (i + length a) tl cs).
Proof.
  induction p as [|c p IH]; intros a k i tl cs Hne Ha; [ congruence | ].
  destruct a as [|x a]; [ discriminate Ha | ].
  simpl in Ha. apply andb_true_iff in Ha. destruct Ha as [Hx Ha].
  destruct p as [|c' p'].
  - destruct a as [|x' a']; [ | discriminate Ha ].
    simpl seq_of. simpl app. unfold liti. rewrite rmatch_chr_cons, Hx.
    simpl length. replace (i + 1) with (S i) by lia. reflexivity.
  - change (seq_of liti (c :: c' :: p')) with (Seq (liti c) (seq_of liti (c' :: p'))).
    rewrite rmatch_seq. simpl app. unfold liti at 1. rewrite rmatch_chr_cons, Hx.
    rewrite (IH a _ (S i) tl cs ltac:(discriminate) Ha).
    simpl length. replace (S i + length a) with (i + S (length a)) by lia.
    reflexivity.
Qed.

Lemma matches_same p : forall st w st',
  matches (seq_of liti p) st w st' -> sameIgnoringCase w p = true.
Proof.
  induction p as [|c p IH]; intros st w st' H.
  - simpl in H. inversion H. reflexivity.
  - destruct p as [|c' p'].
    + simpl in H. destruct (matches_chr_inv _ _ _ _ H) as (x & -> & Hx & _).
      simpl. rewrite Hx. reflexivity.
    + change (seq_of liti (c :: c' :: p'))
        with (Seq (liti c) (seq_of liti (c' :: p'))) in H.
      inversion H as [ | | ? ? ? ? ? ? ? H1 H2 | | | | | | | | | ]; subst; clear H.
      destruct (matches_chr_inv _ _ _ _ H1) as (x & -> & Hx & _).
      apply IH in H2. cbn [app sameIgnoringCase]. rewrite Hx, H2. reflexivity.
Qed.

(** A label that begins with another letter. *)
Lemma label_fails q s k i cs :
  q <> [] ->
  option_map Case.canonicalize (hd_error s)
  <> option_map Case.canonicalize (hd_error q) ->
  rmatch (seq_of liti q) k (MState i s cs) = None.
Proof.
  intros Hq Hne. destruct q as [|c q']; [ congruence | ].
  destruct s as [|x s'].
  - destruct q'; reflexivity.
  - assert (Hx : (Case.canonicalize x =? Case.canonicalize c)%N = false).
    { apply N.eqb_neq. intros Heq. apply Hne. simpl. rewrite Heq. reflexivity. }
    destruct q' as [|c' q''].
    + simpl seq_of. unfold liti. rewrite rmatch_chr_cons, Hx. reflexivity.
    + change (seq_of liti (c :: c' :: q''))
        with (Seq (liti c) (seq_of liti (c' :: q''))).
      rewrite rmatch_seq. unfold liti at 1. rewrite rmatch_chr_cons, Hx. reflexivity.
Qed.

Lemma rmatch_alt a b k st :
  rmatch (Alt a b) k st
  = match rmatch a k st with
    | Some r => Some r
    | None => rmatch b k st
    end.
Proof. reflexivity. Qed.

(** The white space after a label is taken whole. *)
Lemma rmatch_spaces k gap dish i cs res :
  forallb is_space gap = true ->
  begins_with_space dish = false ->
  k (MState (i + length gap) dish cs) = Some res ->
  rmatch (Seq (Star space) Eps) k (MState i (gap ++ dish) cs) = Some res.
Proof.
  intros Hgap Hdish Hk. rewrite rmatch_seq.
  change (rmatch (Star space) ?k0 ?st)
    with (star_loop (rmatch (Chr is_space)) k0 (S (length (rest st))) st).
  cbn [rest]. apply star_loop_chr_greedy.
  - exact Hgap.
  - destruct dish as [|c dish']; [ reflexivity | ].
    simpl in Hdish. rewrite Hdish. reflexivity.
  - rewrite length_app. lia.
  - exact Hk.
Qed.

Lemma plain_label_strips p label gap dish k i cs res :
  p <> [] ->
  sameIgnoringCase label p = true ->
  forallb is_space gap = true ->
  begins_with_space dish = false ->
  k (MState (i + length label + length gap) dish cs) = Some res ->
  rmatch (seqs [seq_of liti p; Star space]) k (MState i (label ++ gap ++ dish) cs)
  = Some res.
Proof.
  intros Hp Hl Hgap Hdish Hk. unfold seqs. cbn [fold_right].
  rewrite rmatch_seq, (rmatch_same p label _ i (gap ++ dish) cs Hp Hl).
  apply rmatch_spaces; assumption.
Qed.

Lemma numbered_label_strips word label gap dish k i cs res :
  js word <> [] ->
  numberedLabel word label = true ->
  forallb is_space gap = true ->
  begins_with_space dish = false ->
  k (MState (i + length label + length gap) dish cs) = Some res ->
  rmatch (seqs [stri word; clsi (js "0123456789"); liti (cu ":"); Star space]) k
         (MState i (label ++ gap ++ dish) cs)
  = Some res.
Proof.
  intros Hw Hl Hgap Hdish Hk. unfold numberedLabel in Hl.
  apply existsb_exists in Hl. destruct Hl as (d & Hd & Hl).
  apply same_app_inv in Hl. destruct Hl as (a & b & -> & Ha & Hb).
  change (js ":") with [cu ":"] in Hb.
  destruct b as [|x [|y [|z b']]]; cbn [app sameIgnoringCase] in Hb;
    try discriminate Hb.
  - rewrite andb_false_r in Hb. discriminate Hb.
  - apply andb_true_iff in Hb. destruct Hb as [Hx Hy].
    rewrite andb_true_r in Hy.
    unfold seqs. cbn [fold_right]. unfold stri.
    rewrite rmatch_seq, <- app_assoc, (rmatch_same _ a _ i _ cs Hw Ha).
    rewrite rmatch_seq. cbn [app]. unfold clsi at 1. rewrite rmatch_chr_cons.
    replace (existsb (fun m => (Case.canonicalize x =? Case.canonicalize m)%N)
                     (js "0123456789")) with true
      by (symmetry; apply existsb_exists; exists d; auto).
    rewrite rmatch_seq. unfold liti at 1. rewrite rmatch_chr_cons, Hy.
    apply rmatch_spaces; try assumption.
    rewrite length_app in Hk. cbn [length] in Hk.
    replace (S (S (i + length a)) + length gap)
      with (i + (length a + 2) + length gap) by lia.
    exact Hk.
  - rewrite !andb_false_r in Hb. discriminate Hb.
Qed.

Lemma numbered_first word label :
  js word <> [] ->
  numberedLabel word label = true ->
  option_map Case.canonicalize (hd_error label)
  = option_map Case.canonicalize (hd_error (js word)).
Proof.
  intros Hw Hl. unfold numberedLabel in Hl.
  apply existsb_exists in Hl. destruct Hl as (d & _ & Hl).
  apply same_first in Hl. rewrite Hl.
  destruct (js word); [ congruence | reflexivity ].
Qed.

Lemma hd_error_label (label tl : jsstring) :
  label <> [] -> hd_error (label ++ tl) = hd_error label.
Proof. destruct label; [ congruence | reflexivity ]. Qed.

(** With a label in front, the pattern of line 495 matches the label and
    the white space after it. *)
Lemma re_prefix_strips label gap dish :
  boilerplateLabel label = true ->
  forallb is_space gap = true ->
  begins_with_space dish = false ->
  exists cs,
    rmatch re_prefix Some (MState 0 (label ++ gap ++ dish) [])
    = Some (MState (length label + length gap) dish cs).
Proof.
  intros Hl Hgap Hdish. unfold re_prefix.
  rewrite rmatch_seq, rmatch_bol, rmatch_group. cbn [alts pos rest].
  assert (P1 : js "Polievka " <> []) by (vm_compute; discriminate).
  assert (P2 : js "Menu " <> []) by (vm_compute; discriminate).
  assert (P0 : js "Samostatná polievka:" <> []) by (vm_compute; discriminate).
  unfold boilerplateLabel in Hl.
  apply orb_true_iff in Hl. destruct Hl as [Hl | Hl];
    [ apply orb_true_iff in Hl; destruct Hl as [Hl | Hl] | ].
  - eexists. rewrite rmatch_alt. unfold stri at 1.
    erewrite (plain_label_strips _ label gap dish _ 0 [] _ P0 Hl Hgap Hdish);
      [ reflexivity | ].
    cbn [set_cap pos rest caps]. reflexivity.
  - assert (Hne : label <> []).
    { intros ->. apply numbered_first in Hl; [ | exact P1 ].
      vm_compute in Hl. discriminate Hl. }
    pose proof (numbered_first _ _ P1 Hl) as Hfirst.
    eexists. rewrite rmatch_alt.
    unfold seqs at 1. cbn [fold_right]. rewrite rmatch_seq. unfold stri at 1.
    rewrite label_fails;
      [ | exact P0
        | rewrite (hd_error_label _ _ Hne), Hfirst; vm_compute; discriminate ].
    rewrite rmatch_alt.
    erewrite (numbered_label_strips _ label gap dish _ 0 [] _ P1 Hl Hgap Hdish);
      [ reflexivity | ].
    cbn [set_cap pos rest caps]. reflexivity.
  - assert (Hne : label <> []).
    { intros ->. apply numbered_first in Hl; [ | exact P2 ].
      vm_compute in Hl. discriminate Hl. }
    pose proof (numbered_first _ _ P2 Hl) as Hfirst.
    eexists. rewrite rmatch_alt.
    unfold seqs at 1. cbn [fold_right]. rewrite rmatch_seq. unfold stri at 1.
    rewrite label_fails;
      [ | exact P0
        | rewrite (hd_error_label _ _ Hne), Hfirst; vm_compute; discriminate ].
    rewrite rmatch_alt.
    unfold seqs at 1. cbn [fold_right]. rewrite rmatch_seq. unfold stri at 1.
    rewrite label_fails;
      [ | exact P1
        | rewrite (hd_error_label _ _ Hne), Hfirst; vm_compute; discriminate ].
    erewrite (numbered_label_strips _ label gap dish _ 0 [] _ P2 Hl Hgap Hdish);
      [ reflexivity | ].
    cbn [set_cap pos rest caps]. reflexivity.
Qed.

Lemma search_at_head re i s st :
  rmatch re Some (MState i s []) = Some st ->
  search re i s = Some (MatchResult i (pos st) (firstn (pos st - i) s) (caps st)).
Proof.
  intros H. destruct s; simpl; rewrite H; reflexivity.
Qed.

Lemma replace_label label gap dish :
  boilerplateLabel label = true ->
  forallb is_space gap = true ->
  begins_with_space dish = false ->
  replace re_prefix [] (label ++ gap ++ dish) = dish.
Proof.
  intros Hl Hgap Hdish.
  destruct (re_prefix_strips label gap dish Hl Hgap Hdish) as (cs & H).
  unfold replace, exec. rewrite (search_at_head _ _ _ _ H).
  cbn [m_index m_end pos firstn app].
  rewrite app_assoc, <- length_app, skipn_app, skipn_all, Nat.sub_diag.
  reflexivity.
Qed.

(** What the pattern of line 495 matches begins with a label. *)
Lemma matches_plain_label p st w st' :
  matches (seqs [seq_of liti p; Star space]) st w st' ->
  exists label gap, w = label ++ gap /\ sameIgnoringCase label p = true.
Proof.
  unfold seqs. cbn [fold_right]. intros H.
  inversion H as [ | | ? ? ? ? ? ? ? H1 H2 | | | | | | | | | ]; subst; clear H.
  match goal with
  | |- exists label gap, ?a ++ ?g = _ /\ _ => exists a, g
  end.
  split; [ reflexivity | ]. exact (matches_same _ _ _ _ H1).
Qed.

Lemma matches_numbered_label word st w st' :
  matches (seqs [stri word; clsi (js "0123456789"); liti (cu ":"); Star space])
          st w st' ->
  exists label gap, w = label ++ gap /\ numberedLabel word label = true.
Proof.
  unfold seqs. cbn [fold_right]. intros H.
  inversion H as [ | | ? ? ? ? ? ? ? H1 H2 | | | | | | | | | ]; subst; clear H.
  inversion H2 as [ | | ? ? ? ? ? ? ? H3 H4 | | | | | | | | | ]; subst; clear H2.
  inversion H4 as [ | | ? ? ? ? ? ? ? H5 H6 | | | | | | | | | ]; subst; clear H4.
  destruct (matches_chr_inv _ _ _ _ H3) as (x & -> & Hx & _).
  destruct (matches_chr_inv _ _ _ _ H5) as (y & -> & Hy & _).
  apply existsb_exists in Hx. destruct Hx as (d & Hd & Hx).
  match goal with
  | |- exists label gap, ?a ++ [x] ++ [y] ++ ?g = _ /\ _ => exists (a ++ [x; y]), g
  end.
  split; [ rewrite <- app_assoc; reflexivity | ].
  unfold numberedLabel. apply existsb_exists. exists d. split; [ exact Hd | ].
  apply same_app; [ exact (matches_same _ _ _ _ H1) | ].
  change (js ":") with [cu ":"]. cbn [app sameIgnoringCase]. rewrite Hx, Hy.
  reflexivity.
Qed.

Lemma matches_re_prefix st w st' :
  matches re_prefix st w st' ->
  pos st = 0 /\ exists label gap, w = label ++ gap /\ boilerplateLabel label = true.
Proof.
  unfold re_prefix. cbn [alts]. intros H.
  inversion H as [ | | ? ? ? ? ? ? ? H1 H2 | | | | | | | | | ]; subst; clear H.
  inversion H1; subst; clear H1.
  inversion H2 as [ | | | | | | | | | ? ? ? ? ? Hg | | ]; subst; clear H2.
  split; [ assumption | ]. unfold boilerplateLabel. cbn [app].
  inversion Hg as [ | | | ? ? ? ? ? Ha | ? ? ? ? ? Hb | | | | | | | ];
    subst; clear Hg.
  - apply matches_plain_label in Ha. destruct Ha as (label & gap & -> & Hl).
    exists label, gap. rewrite Hl. auto.
  - inversion Hb as [ | | | ? ? ? ? ? Ha | ? ? ? ? ? Hc | | | | | | | ];
      subst; clear Hb.
    + apply matches_numbered_label in Ha. destruct Ha as (label & gap & -> & Hl).
      exists label, gap. rewrite Hl, orb_true_r. auto.
    + apply matches_numbered_label in Hc. destruct Hc as (label & gap & -> & Hl).
      exists label, gap. rewrite Hl, orb_true_r. auto.
Qed.

Lemma replace_no_label raw :
  (forall n, boilerplateLabel (firstn n raw) = false) ->
  replace re_prefix [] raw = raw.
Proof.
  intros Hno. unfold replace, exec.
  destruct (search re_prefix 0 raw) as [m|] eqn:E; [ exfalso | reflexivity ].
  apply search_sound_at in E.
  destruct E as (pre & sfx & w & st' & -> & Hi & Hm).
  pose proof (matches_consumes _ _ _ _ Hm) as [Hrest _].
  apply matches_re_prefix in Hm. destruct Hm as (Hpos & label & gap & -> & Hl).
  cbn [pos rest] in Hpos, Hrest.
  assert (Hpre : pre = []) by (destruct pre; [ reflexivity | simpl in Hi; lia ]).
  subst pre. cbn [app] in Hno. specialize (Hno (length label)).
  rewrite Hrest, <- app_assoc, firstn_app, Nat.sub_diag, firstn_all in Hno.
  cbn [firstn] in Hno. rewrite app_nil_r in Hno. congruence.
Qed.

Lemma candidateOf_name minLength dflt item c :
  candidateOf minLength dflt item = Some c -> c_name c = cleanName (rawNameOf item).
Proof.
  unfold candidateOf, rawNameOf.
  destruct (_ || _ || _ || _ || _); [ discriminate | ].
  destruct (includes _ _); [ | discriminate ].
  destruct (exec re_priceMatch _); [ | discriminate ].
  intros H. inversion H; subst c; clear H. reflexivity.
Qed.

End Labels.

(** C3 (as amended).  From "Soup 1: Goulash 3,50 € with bread" the parser
    makes the name "Soup 1: Goulash", the price "3,50 €" and the
    description "with bread".  What it strips from the front of a name
    (the text of the list entry before its first price) is a label
    "Samostatná polievka:", "Polievka d:" or "Menu d:", with one digit
    [d] and in any mix of upper and lower case, together with the white
    space that follows it; a name that begins with no such label keeps its
    beginning, and "Soup 1:" is none.  In both cases the steps of lines
    499-503 then clean the end of the name. *)
Theorem scenarioA_parsed :
  (forall (sectionText : jsstring) (vp : viewportTag),
      exists it,
        parseListItem 15 (js "Daily menu item") sectionText vp Demo.soupItem = Some it /\
        name it = js "Soup 1: Goulash" /\
        price it = js "3,50 €" /\
        description it = js "with bread")
  /\
  (forall (minLength : nat) (dflt sectionText : jsstring) (vp : viewportTag)
          (item : ListItem) (it : MenuItem),
      parseListItem minLength dflt sectionText vp item = Some it ->
      (forall label gap dish,
          rawNameOf item = label ++ gap ++ dish ->
          boilerplateLabel label = true ->
          forallb is_space gap = true ->
          begins_with_space dish = false ->
          name it = cleanTail dish)
      /\
      ((forall n, boilerplateLabel (firstn n (rawNameOf item)) = false) ->
       name it = cleanTail (rawNameOf item))).
Proof.
  split.
  - intros sectionText vp. unfold parseListItem.
    assert (Hs : candidateOf 15 (js "Daily menu item") Demo.soupItem
                 = Some {| c_name := js "Soup 1: Goulash"; c_price := js "3,50 €";
                           c_description := js "with bread" |})
      by (vm_compute; reflexivity).
    rewrite Hs. cbn [c_name c_price c_description].
    replace (nameAccepted (js "Soup 1: Goulash")) with true by (vm_compute; reflexivity).
    eexists. split; [ reflexivity | ]. simpl. auto.
  - intros minLength dflt sectionText vp item it Hp.
    apply parseListItem_inv in Hp. destruct Hp as (c & Hc & _ & Hname & _).
    apply candidateOf_name in Hc. rewrite Hname, Hc.
    change (cleanName (rawNameOf item))
      with (cleanTail (replace re_prefix [] (rawNameOf item))).
    split.
    + intros label gap dish Hraw Hl Hgap Hdish.
      rewrite Hraw, (replace_label label gap dish Hl Hgap Hdish). reflexivity.
    + intros Hno. rewrite (replace_no_label _ Hno). reflexivity.
Qed.

(** The Slovak counterpart of scenario A, and a label in capitals. *)
Lemma scenarioA_parsed_witness :
  (exists it,
      parseListItem 15 (js "Daily menu item") (js "Denné menu Pondelok") (VStep 1)
                    Demo.polievkaItem = Some it /\
      rawNameOf Demo.polievkaItem = js "Polievka 1:" ++ js " " ++ js "Goulash" /\
      name it = js "Goulash")
  /\
  (exists it,
      parseListItem 15 (js "Daily menu item") (js "Denné menu Pondelok") (VStep 1)
                    shoutedItem = Some it /\
      rawNameOf shoutedItem = js "MENU 7:" ++ js " " ++ js "Bryndzové halušky" /\
      name it = js "Bryndzové halušky")
  /\
  (exists it,
      parseListItem 15 (js "Daily menu item") (js "Denné menu Pondelok") (VStep 1)
                    Demo.soupItem = Some it /\
      (forall n, boilerplateLabel (firstn n (rawNameOf Demo.soupItem)) = false) /\
      name it = js "Soup 1: Goulash").
Proof.
  split; [ | split ].
  - destruct (parseListItem 15 (js "Daily menu item") (js "Denné menu Pondelok")
                            (VStep 1) Demo.polievkaItem) as [it|] eqn:Hp;
      [ | vm_compute in Hp; discriminate Hp ].
    assert (Hraw : rawNameOf Demo.polievkaItem
                   = js "Polievka 1:" ++ js " " ++ js "Goulash")
      by (vm_compute; reflexivity).
    exists it. split; [ reflexivity | ]. split; [ exact Hraw | ].
    rewrite (proj1 (proj2 scenarioA_parsed _ _ _ _ _ _ Hp)
                   (js "Polievka 1:") (js " ") (js "Goulash") Hraw
                   ltac:(vm_compute; reflexivity) ltac:(vm_compute; reflexivity)
                   ltac:(vm_compute; reflexivity)).
    vm_compute. reflexivity.
  - destruct (parseListItem 15 (js "Daily menu item") (js "Denné menu Pondelok")
                            (VStep 1) shoutedItem) as [it|] eqn:Hp;
      [ | vm_compute in Hp; discriminate Hp ].
    assert (Hraw : rawNameOf shoutedItem
                   = js "MENU 7:" ++ js " " ++ js "Bryndzové halušky")
      by (vm_compute; reflexivity).
    exists it. split; [ reflexivity | ]. split; [ exact Hraw | ].
    rewrite (proj1 (proj2 scenarioA_parsed _ _ _ _ _ _ Hp)
                   (js "MENU 7:") (js " ") (js "Bryndzové halušky") Hraw
                   ltac:(vm_compute; reflexivity) ltac:(vm_compute; reflexivity)
                   ltac:(vm_compute; reflexivity)).
    vm_compute. reflexivity.
  - destruct (parseListItem 15 (js "Daily menu item") (js "Denné menu Pondelok")
                            (VStep 1) Demo.soupItem) as [it|] eqn:Hp;
      [ | vm_compute in Hp; discriminate Hp ].
    assert (Hraw : rawNameOf Demo.soupItem = js "Soup 1: Goulash")
      by (vm_compute; reflexivity).
    assert (Hno : forall n, boilerplateLabel (firstn n (rawNameOf Demo.soupItem)) = false).
    { intros n. rewrite Hraw.
      do 16 (destruct n as [|n]; [ vm_compute; reflexivity | ]).
      vm_compute. reflexivity. }
    exists it. split; [ reflexivity | ]. split; [ exact Hno | ].
    rewrite (proj2 (proj2 scenarioA_parsed _ _ _ _ _ _ Hp) Hno), Hraw.
    vm_compute. reflexivity.
Defined.

(** ** Progressive viewport sampler: the rounds of a visit *)

Ltac beside_calls :=
  repeat only_step ltac:(reflexivity).

Section Rounds.

Context {W : Type}.
Variable handle : forall R : Type, op R -> W -> outcome R * W.
Variable clock : W -> jsstring * W.

Lemma beside_quiet evs :
  only besideSampling evs ->
  scrollsOf evs = [] /\ countOf isStepScreenshot evs = 0.
Proof.
  unfold only, scrollsOf, countOf. induction evs as [|e evs IH]; simpl; [ auto | ].
  intros H. apply andb_true_iff in H. destruct H as [He Hevs].
  unfold besideSampling, notScroll, noStepScreenshot in He.
  apply andb_true_iff in He. destruct He as [Hs Hshot].
  destruct (isScrollTo e); [ discriminate Hs | ].
  destruct (isStepScreenshot e); [ discriminate Hshot | ].
  apply IH. exact Hevs.
Qed.

Lemma scrolls_counted evs : length (scrollsOf evs) = countOf isScroll evs.
Proof.
  unfold scrollsOf, countOf, isScroll, notScroll.
  induction evs as [|e evs IH]; simpl; [ reflexivity | ].
  destruct (isScrollTo e); simpl; rewrite IH; reflexivity.
Qed.

Lemma handleCloudflareProtection_beside :
  emits (handleCloudflareProtection W handle) (only besideSampling).
Proof. unfold handleCloudflareProtection. beside_calls. Qed.

Lemma tryCookieSelectors_beside sels :
  emits (tryCookieSelectors W handle sels) (only besideSampling).
Proof.
  induction sels as [|sel sels IH]; simpl.
  - beside_calls.
  - apply only_bind; [ beside_calls | ].
    intros [|]; [ beside_calls | exact IH ].
Qed.

Lemma handleCookies_beside : emits (handleCookies W handle) (only besideSampling).
Proof.
  unfold handleCookies.
  apply only_try_catch; [ | intros; beside_calls ].
  apply only_bind; [ beside_calls | intros _ ].
  apply only_bind; [ apply tryCookieSelectors_beside | intros ? ].
  beside_calls.
Qed.

(** A part of the visit that is no part of a round. *)
Lemma runs_beside {A B : Type} (m : M W A) (k : A -> M W B) n offsets :
  emits m (only besideSampling) ->
  (forall a, runs (k a) (sampled n offsets)) ->
  runs (bind m k) (sampled n offsets).
Proof.
  intros Hm Hk st. unfold bind.
  destruct (Hm st) as (e1 & Ht1 & H1).
  apply beside_quiet in H1. destruct H1 as [Hs Hc].
  destruct (m st) as [[a|e] st1]; simpl in *.
  - destruct (Hk a st1) as (e2 & Ht2 & Hle & Hok).
    exists (e1 ++ e2). rewrite Ht2, Ht1, app_assoc. split; [ reflexivity | ].
    unfold sampled. rewrite countOf_app, scrollsOf_app, Hs, Hc. simpl. auto.
  - exists e1. split; [ assumption | ]. split; [ lia | discriminate ].
Qed.

(** A value read from the page: what follows is only ever run on a value
    that the page returned. *)
Lemma runs_read {R B : Type} (o : pageOp R) (k : R -> M W B) n offsets :
  (forall p, besideSampling (ev (OnPage p o)) = true) ->
  (forall r, (exists p w, fst (handle R (OnPage p o) w) = Ok r) ->
             runs (k r) (sampled n offsets)) ->
  runs (bind (onPage W handle o) k) (sampled n offsets).
Proof.
  intros Ho Hk st. unfold bind.
  destruct (page (self st)) as [p|] eqn:Hp.
  - rewrite (onPage_run handle o st p Hp).
    assert (Hq : scrollsOf [ev (OnPage p o)] = []
                 /\ countOf isStepScreenshot [ev (OnPage p o)] = 0).
    { apply beside_quiet. apply only_one. apply Ho. }
    destruct Hq as [Hs Hc].
    destruct (handle R (OnPage p o) (world st)) as [[r|e] w1] eqn:E; cbn [fst snd].
    + match goal with
      | |- exists evs, trace (snd (k r ?st1)) = _ /\ _ =>
          destruct (Hk r (ex_intro _ p (ex_intro _ (world st)
                                                (f_equal fst E))) st1)
            as (e2 & Ht2 & Hle & Hok)
      end.
      exists ([ev (OnPage p o)] ++ e2). rewrite Ht2. cbn [trace].
      rewrite <- app_assoc. split; [ reflexivity | ].
      unfold sampled. rewrite countOf_app, scrollsOf_app, Hs, Hc. simpl. auto.
    + exists [ev (OnPage p o)]. split; [ reflexivity | ].
      split; [ lia | discriminate ].
  - rewrite (onPage_closed handle o st Hp). exists []. rewrite app_nil_r.
    split; [ reflexivity | ]. split; [ unfold countOf; simpl; lia | discriminate ].
Qed.

(** A scroll to an offset. *)
Lemma runs_scroll {B : Type} (y : Z) (k : unit -> M W B) n offsets :
  (forall a, runs (k a) (sampled n offsets)) ->
  runs (bind (onPage W handle (ScrollTo y)) k) (sampled n (y :: offsets)).
Proof.
  intros Hk st. unfold bind.
  destruct (page (self st)) as [p|] eqn:Hp.
  - rewrite (onPage_run handle (ScrollTo y) st p Hp).
    destruct (handle unit (OnPage p (ScrollTo y)) (world st)) as [[r|e] w1];
      cbn [fst snd].
    + match goal with
      | |- exists evs, trace (snd (k r ?st1)) = _ /\ _ =>
          destruct (Hk r st1) as (e2 & Ht2 & Hle & Hok)
      end.
      exists ([ev (OnPage p (ScrollTo y))] ++ e2). rewrite Ht2. cbn [trace].
      rewrite <- app_assoc. split; [ reflexivity | ].
      unfold sampled. rewrite countOf_app, scrollsOf_app.
      change (countOf isStepScreenshot [ev (OnPage p (ScrollTo y))]) with 0.
      change (scrollsOf [ev (OnPage p (ScrollTo y))]) with [y].
      split; [ exact Hle | ]. intros H. destruct (Hok H) as (Hn & later & Hsc & Hl).
      split; [ exact Hn | ]. exists later. rewrite Hsc. auto.
    + exists [ev (OnPage p (ScrollTo y))]. split; [ reflexivity | ].
      split; [ unfold countOf; simpl; lia | discriminate ].
  - rewrite (onPage_closed handle (ScrollTo y) st Hp). exists []. rewrite app_nil_r.
    split; [ reflexivity | ]. split; [ unfold countOf; simpl; lia | discriminate ].
Qed.

(** The loop, followed by what takes no viewport screenshot. *)
Lemma runs_rounds {A B : Type} (m : M W A) (k : A -> M W B) steps vh n offsets :
  length steps = n ->
  runs m (rounds steps vh) ->
  (forall a, runs (k a) (sampled 0 offsets)) ->
  runs (bind m k) (sampled n (map (scrollYOf vh) steps ++ offsets)).
Proof.
  intros Hn Hm Hk st. unfold bind. subst n.
  destruct (Hm st) as (e1 & Ht1 & Hle1 & Hok1).
  destruct (m st) as [[a|e] st1]; simpl in *.
  - destruct (Hk a st1) as (e2 & Ht2 & Hle2 & Hok2).
    destruct (Hok1 eq_refl) as [Hc1 Hs1].
    exists (e1 ++ e2). rewrite Ht2, Ht1, app_assoc. split; [ reflexivity | ].
    unfold sampled. rewrite countOf_app, scrollsOf_app, Hs1, Hc1.
    split; [ lia | ]. intros H. destruct (Hok2 H) as (Hc2 & later & Hsc & Hl).
    split; [ lia | ]. exists later. rewrite Hsc, app_assoc. auto.
  - exists e1. split; [ assumption | ]. split; [ assumption | discriminate ].
Qed.

(** What comes after the rounds. *)
Lemma runs_after {A : Type} (m : M W A) :
  emits m (only noStepScreenshot) ->
  emits m (atMost isScroll 1) ->
  runs m (sampled 0 []).
Proof.
  intros H1 H2 st. destruct (emits_and m _ _ H1 H2 st) as (evs & Htr & Hno & Hsc).
  exists evs. split; [ exact Htr | ].
  apply only_not_counted in Hno.
  split; [ lia | ]. intros _. split; [ exact Hno | ].
  exists (scrollsOf evs). split; [ reflexivity | ].
  rewrite scrolls_counted. exact Hsc.
Qed.

Lemma sampleSteps_rounds site ts vh steps shots items :
  runs (sampleSteps W handle site ts vh steps shots items) (rounds steps vh).
Proof.
  intros st.
  destruct (sampleSteps_shots handle site ts vh steps shots items st)
    as (evs & Htr & Hle).
  exists evs. split; [ exact Htr | ]. split; [ exact Hle | ].
  intros Hok.
  destruct (sampleSteps W handle site ts vh steps shots items st)
    as [[r|e] st'] eqn:E; [ | discriminate Hok ].
  apply sampleSteps_completed in E. destruct E as (evs' & Htr' & Hsc & Hshots).
  simpl in Htr. rewrite Htr' in Htr. apply app_inv_head in Htr. subst evs'.
  split; assumption.
Qed.

Lemma extractMenuFromScreenshot_scrolls path site bv :
  emits (extractMenuFromScreenshot W handle path site bv) (atMost isScroll 1).
Proof.
  unfold extractMenuFromScreenshot.
  apply (atMost_try_catch isScroll 1 0 1); [ lia | | intros; free ].
  apply (atMost_bind isScroll 1 0 1); [ lia | | intros; free ].
  destruct bv as [b|]; [ destruct (jseqb (site_name site) (js "Central Pub")) | ];
    [ | free | free ].
  apply (atMost_bind isScroll 1 0 1); [ lia | apply atMost_onPage; lia | intros; free ].
Qed.

Variables totalHeight viewportHeight : Z.

Hypothesis H_page :
  forall p w d,
    fst (handle Dom (OnPage p Evaluate) w) = Ok d ->
    innerHeight d = viewportHeight /\ scrollHeight d = totalHeight.

Ltac beside :=
  apply runs_beside;
  [ solve [ repeat first [ apply handleCloudflareProtection_beside
                         | apply handleCookies_beside
                         | only_step ltac:(reflexivity) ] ]
  | intros ? ].

Lemma scrapeRestaurant_try_sampled site :
  runs (scrapeRestaurant_try W handle clock site)
       (sampled (stepCount totalHeight viewportHeight)
                (0%Z :: stepOffsets totalHeight viewportHeight ++ [0%Z])).
Proof.
  unfold scrapeRestaurant_try.
  do 10 beside.
  apply runs_read; [ reflexivity | intros d1 (p1 & w1 & H1) ].
  apply runs_read; [ reflexivity | intros d2 (p2 & w2 & H2) ].
  destruct (H_page _ _ _ H1) as [-> _]. destruct (H_page _ _ _ H2) as [_ ->].
  apply runs_scroll; intros _.
  beside.
  apply runs_rounds; [ apply length_seq | apply sampleSteps_rounds | intros sampledItems ].
  apply runs_scroll; intros _.
  apply runs_after.
  - repeat first [ apply extractMenuFromScreenshot_only
                 | only_step ltac:(reflexivity) ];
      side_conditions.
  - do 2 skip_free.
    apply (atMost_bind isScroll 1 0 1); [ lia | | intros; free ].
    destruct (snd sampledItems); [ | free ].
    skip_free. apply extractMenuFromScreenshot_scrolls.
Qed.

Lemma scrapeRestaurant_sampled site (st : State W) :
  exists data st' evs,
    scrapeRestaurant W handle clock site st = (Ok data, st') /\
    trace st' = trace st ++ evs /\
    countOf isStepScreenshot evs <= stepCount totalHeight viewportHeight /\
    (sd_success data = true ->
     countOf isStepScreenshot evs = stepCount totalHeight viewportHeight /\
     exists later,
       scrollsOf evs
       = (0%Z :: stepOffsets totalHeight viewportHeight ++ [0%Z]) ++ later /\
       length later <= 1).
Proof.
  unfold scrapeRestaurant, try_catch.
  destruct (scrapeRestaurant_try_sampled site st) as (evs & Htr & Hle & Hok).
  destruct (scrapeRestaurant_try W handle clock site st) as [[data|e] st1];
    simpl in *.
  - exists data, st1, evs. auto.
  - eexists. exists st1, evs. split; [ reflexivity | ].
    split; [ assumption | ]. split; [ assumption | ]. simpl. discriminate.
Qed.

End Rounds.


